(** * Scholarly XML: the validation pipeline of [src/extension.ts]

    A shallow embedding of the grammar cache ([doValidation]), the
    validation run ([parse]) and the path resolver ([processXML],
    [matchesXPath]), with the properties the specification states about
    them; then of the functions around them ([locateSchema],
    [parseWithoutSchema], [convertCustomXPath], [doSchematronValidation],
    the validations in progress, the command [sxml.wrapWithEl]), with
    properties read off the code.

    Conventions.
    - A JavaScript string is a [string]; its characters are the code units
      of the document, taken in the 8-bit range.  A JavaScript number that
      counts or indexes is an [N] or a [Z]; the occurrence indices of the
      path resolver stay far below the range where a double stops being
      exact.
    - An array is a list in the order of its indices, so [push] appends and
      [pop] takes the last element; the frame stack of [parse], which is
      only pushed and popped, is a list with its top first.
    - The tokenizer (saxes), the validation automaton and the name resolver
      (salve) and the editor API are libraries the extension calls.  The
      tokenizer is represented by the stream of events it delivers to the
      listeners, each with the position ([parser.line], [parser.column])
      the tokenizer reports while the listener runs; the automaton is a
      parameter of the development; the name resolver is a stack of scopes.
    - An exception is a result of its own ([Thrown]), with the state the
      shared variables were left in. *)

From Stdlib Require Import ZArith NArith Lia Bool Ascii String DecimalString DecimalN.
From stdpp Require Import base option list gmap strings sorting.

#[local] Open Scope Z_scope.
#[local] Open Scope string_scope.
#[local] Open Scope list_scope.

(** ** JavaScript string primitives used by the extension *)

Module Js.

Definition chars (s : string) : list ascii := list_ascii_of_string s.
Definition str (l : list ascii) : string := string_of_list_ascii l.

(** Line terminators: the characters the regular-expression atom [.]
    does not match. *)
Definition is_line_terminator (c : ascii) : bool :=
  match c with
  | "010" | "013" => true
  | _ => false
  end%char.

(** The class [\s], which is also what [String.prototype.trim] strips. *)
Definition is_whitespace (c : ascii) : bool :=
  match c with
  | "009" | "010" | "011" | "012" | "013" | " " | "160" => true
  | _ => false
  end%char.

(** The class [\d]. *)
Definition is_digit (c : ascii) : bool :=
  match Ascii.is_nat c with Some _ => true | None => false end.

(** [span p l]: the longest prefix of [l] whose elements satisfy [p], and
    the rest; a greedy character-class loop. *)
Fixpoint span {A} (p : A -> bool) (l : list A) : list A * list A :=
  match l with
  | [] => ([], [])
  | x :: r => if p x then let '(a, b) := span p r in (x :: a, b) else ([], l)
  end.

(** [s.trim()], on the characters of [s] *)
Definition trim_chars (l : list ascii) : list ascii :=
  reverse (snd (span is_whitespace (reverse (snd (span is_whitespace l))))).

(** [s.split(c)] for a one-character separator. *)
Fixpoint split_chars (sep : ascii) (cur : list ascii) (l : list ascii) : list (list ascii) :=
  match l with
  | [] => [reverse cur]
  | x :: r => if Ascii.eqb x sep then reverse cur :: split_chars sep [] r
              else split_chars sep (x :: cur) r
  end.
Definition split (sep : ascii) (s : string) : list string :=
  str <$> split_chars sep [] (chars s).

(** [Number(ds)] on a string of decimal digits, and the decimal rendering
    of a natural number by template-literal interpolation. *)
Definition Number (ds : string) : N :=
  match NilEmpty.uint_of_string ds with
  | Some d => N.of_uint d
  | None => 0%N
  end.
Definition decimal (n : N) : string := NilEmpty.string_of_uint (N.to_uint n).

(** [l.pop()] on an array: the last element, and the array without it. *)
Definition pop {A} (l : list A) : option A * list A :=
  match reverse l with
  | [] => (None, [])
  | x :: r => (Some x, reverse r)
  end.

End Js.

(** ** The tokenizer boundary *)

Module Saxes.

Record Position := { line : Z; column : Z }.

Record SaxesAttributeNS := {
  attr_prefix : string;
  attr_local : string;
  attr_uri : string;
  attr_value : string
}.

(** [node.attributes] is an object keyed by the attribute's qualified
    name. *)
Record SaxesTag := {
  tag_name : string;
  tag_uri : string;
  tag_local : string;
  tag_attributes : gmap string SaxesAttributeNS
}.

(** The events of the tokenizer.  [Other] stands for the events no listener
    of the extension is registered for (comments, processing
    instructions, ...). *)
Inductive Event :=
| OpenTagStart
| OpenTag (node : SaxesTag)
| Text (text : string)
| CloseTag (node : SaxesTag)
| Doctype (doctype : string)
| Error (message : string)
| End
| Other.

Definition Token : Type := Position * Event.

(** What a call into the tokenizer comes to: it returns, or an exception
    leaves it, raised by the tokenizer or by a listener.  The state is the
    one the listeners share, as it stands at that point. *)
Inductive Outcome (S : Type) :=
| Done (s : S)
| Thrown (at_ : Position) (message : string) (s : S).
Arguments Done {S} s.
Arguments Thrown {S} at_ message s.

(** The state the listeners were left in. *)
Definition state_of {S} (o : Outcome S) : S :=
  match o with Done s => s | Thrown _ _ s => s end.

Section Driver.
Context {S : Type}.
(** The listeners registered with [parser.on], error listener apart. *)
Variable listeners : Position -> Event -> S -> Outcome S.
(** The listener registered with [parser.on('error', ...)], if any:
    without one the tokenizer throws the error it would have reported. *)
Variable errorListener : option (string -> S -> S).

Definition deliver (tok : Token) (s : S) : Outcome S :=
  match tok.2 with
  | Error m =>
      match errorListener with
      | Some h => Done (h m s)
      | None => Thrown tok.1 m s
      end
  | ev => listeners tok.1 ev s
  end.

(** [parser.write(text).close()] *)
Fixpoint write (tokens : list Token) (s : S) : Outcome S :=
  match tokens with
  | [] => Done s
  | tok :: rest =>
      match deliver tok s with
      | Done s' => write rest s'
      | Thrown p m s' => Thrown p m s'
      end
  end.
End Driver.

End Saxes.

(** ** The path resolver: [matchesXPath] and [processXML] *)

Module PathResolver.
Import Saxes.

(** [function matchesXPath(currentPath, xpath)]: the loop over the indices
    of [xpath], from the index reached; past the end of [currentPath] the
    element read is [undefined], which no string is equal to. *)
Fixpoint matchesXPath_loop (currentPath xpath : list string) : bool :=
  match xpath, currentPath with
  | [], _ => true
  | x :: xs, c :: cs =>
      if negb (String.eqb x c) && negb (String.eqb x "*") then false
      else matchesXPath_loop cs xs
  | x :: xs, [] =>
      if negb (String.eqb x "*") then false
      else matchesXPath_loop [] xs
  end.

Definition matchesXPath (currentPath xpath : list string) : bool :=
  if negb (length currentPath =? length xpath)%nat then false
  else matchesXPath_loop currentPath xpath.

(** [lastTag?.match(re)], where the anchored regular expression [re]
    reads: any run of characters other than line terminators (group 1), an
    opening bracket, one or more digits (group 2), a closing bracket, the
    end of the string.  The result is the two groups. *)
Definition match_indexed (s : string) : option (string * string) :=
  match reverse (Js.chars s) with
  | "]"%char :: r1 =>
      match Js.span Js.is_digit r1 with
      | ((_ :: _) as ds, "["%char :: r2) =>
          if forallb (fun c => negb (Js.is_line_terminator c)) r2
          then Some (Js.str (reverse r2), Js.str (reverse ds))
          else None
      | _ => None
      end
  | _ => None
  end.

(** The template literal [`${name}[${index}]`] *)
Definition indexed (name : string) (index : N) : string :=
  name +:+ "[" +:+ Js.decimal index +:+ "]".

Definition Range4 : Type := Z * Z * Z * Z.

Record State := {
  currentPath : list string;
  lastTag : option string;
  tagStartStack : list (Z * Z);
  (** [startLine], [startColumn], [endLine], [endColumn] *)
  found : Range4
}.

Definition initial : State :=
  {| currentPath := []; lastTag := None; tagStartStack := [];
     found := (-1, -1, -1, -1) |}.

Definition on_opentagstart (p : Position) (st : State) : State :=
  {| currentPath := currentPath st; lastTag := lastTag st;
     tagStartStack := tagStartStack st ++ [(line p - 1, column p - 1)];
     found := found st |}.

Definition next_segment (lastTag : option string) (name : string) : string :=
  match lastTag with
  | Some last =>
      match match_indexed last with
      | Some (m1, m2) =>
          if String.eqb m1 name then indexed name (Js.Number m2 + 1)
          else indexed name 1
      | None => indexed name 1
      end
  | None => indexed name 1
  end.

Definition on_opentag (xpath : list string) (p : Position) (node : SaxesTag)
    (st : State) : State :=
  match Js.pop (tagStartStack st) with
  | (None, _) => st
  | (Some tagStart, rest) =>
      let path := currentPath st ++ [next_segment (lastTag st) (tag_name node)] in
      {| currentPath := path; lastTag := lastTag st; tagStartStack := rest;
         found := if matchesXPath path xpath
                  then (tagStart.1, tagStart.2, line p - 1, column p - 1)
                  else found st |}
  end.

Definition on_closetag (st : State) : State :=
  let '(top, rest) := Js.pop (currentPath st) in
  {| currentPath := rest; lastTag := top; tagStartStack := tagStartStack st;
     found := found st |}.

Definition listeners (xpath : list string) (p : Position) (ev : Event)
    (st : State) : Outcome State :=
  match ev with
  | OpenTagStart => Done (on_opentagstart p st)
  | OpenTag node => Done (on_opentag xpath p node st)
  | CloseTag _ => Done (on_closetag st)
  | _ => Done st
  end.

(** [parser.on('error', (error) => { console.error('Error:', error); })] *)
Definition on_error (message : string) (st : State) : State := st.

(** [xpathExpression.split('/').filter(Boolean)] *)
Definition segments (xpathExpression : string) : list string :=
  filter (fun s => s ≠ "") (Js.split "/" xpathExpression).

Definition run (tokens : list Token) (xpath : list string) (st : State)
    : Outcome State :=
  write (listeners xpath) (Some on_error) tokens st.

(** The value of [currentPath] at each test [matchesXPath(currentPath, xpath)]
    the listener of start tags makes, in the order of the tests. *)
Fixpoint paths_tested (xpath : list string) (tokens : list Token) (st : State)
    : list (list string) :=
  match tokens with
  | [] => []
  | tok :: rest =>
      match deliver (listeners xpath) (Some on_error) tok st with
      | Done st' =>
          match tok.2, Js.pop (tagStartStack st) with
          | OpenTag _, (Some _, _) => [currentPath st']
          | _, _ => []
          end ++ paths_tested xpath rest st'
      | Thrown _ _ _ => []
      end
  end.

(** [async function processXML(xml, xpathExpression)], on the events the
    tokenizer delivers for [xml]. *)
Definition processXML (tokens : list Token) (xpathExpression : string)
    : Outcome Range4 :=
  match run tokens (segments xpathExpression) initial with
  | Done st => Done (found st)
  | Thrown p m st => Thrown p m (found st)
  end.

End PathResolver.

(** ** The path resolver as the specification words it (section 4.4)

    The occurrence index of a start tag is counted against the most recently
    closed sibling, one such sibling being remembered per nesting depth; the
    indexed paths of the start tags are compared with the target path in
    document order. *)

Module PathSpec.
Import Saxes.

Record IndexedPathSegment := { localName : string; occurrenceIndex : N }.

Definition rendered (s : IndexedPathSegment) : string :=
  localName s +:+ "[" +:+ Js.decimal (occurrenceIndex s) +:+ "]".

Definition segment_matches (target : string) (s : IndexedPathSegment) : Prop :=
  target = rendered s \/ target = "*".

Definition path_matches (xpath : list string) (path : list IndexedPathSegment) : Prop :=
  Forall2 segment_matches xpath path.

#[global] Instance segment_matches_dec t s : Decision (segment_matches t s).
Proof. unfold segment_matches. apply _. Defined.

#[global] Instance path_matches_dec xpath path : Decision (path_matches xpath path).
Proof. unfold path_matches. apply _. Defined.

Record State := {
  (** the open elements, outermost first *)
  path : list IndexedPathSegment;
  (** per nesting depth, innermost first, the most recently closed sibling
      at that depth *)
  closed : list (option IndexedPathSegment);
  (** positions recorded at tag-open, not yet used *)
  starts : list (Z * Z);
  (** every start tag seen so far, in document order, with its indexed
      path and its range *)
  tags : list (list IndexedPathSegment * PathResolver.Range4)
}.

Definition initial : State :=
  {| path := []; closed := [None]; starts := []; tags := [] |}.

Definition occurrence (previous : option IndexedPathSegment) (name : string) : N :=
  match previous with
  | Some s => if decide (localName s = name) then (occurrenceIndex s + 1)%N else 1%N
  | None => 1%N
  end.

(** One event.  The specification says nothing of a start tag that no
    tag-open event precedes, nor of an end tag when no element is open; both
    are left without effect here, and neither occurs in a regular stream. *)
Definition step (st : State) (tok : Token) : State :=
  match tok.2 with
  | OpenTagStart =>
      {| path := path st; closed := closed st;
         starts := starts st ++ [(line tok.1 - 1, column tok.1 - 1)];
         tags := tags st |}
  | OpenTag node =>
      match Js.pop (starts st) with
      | (Some start, rest) =>
          let seg := {| localName := tag_name node;
                        occurrenceIndex := occurrence (mjoin (head (closed st))) (tag_name node) |} in
          let path' := path st ++ [seg] in
          {| path := path'; closed := None :: closed st; starts := rest;
             tags := tags st ++
               [(path', (start.1, start.2, line tok.1 - 1, column tok.1 - 1))] |}
      | (None, _) => st
      end
  | CloseTag _ =>
      match Js.pop (path st) with
      | (Some s, rest) =>
          {| path := rest; closed := Some s :: tail (tail (closed st));
             starts := starts st; tags := tags st |}
      | (None, _) => st
      end
  | _ => st
  end.

Definition tags_of (tokens : list Token) : list (list IndexedPathSegment * PathResolver.Range4) :=
  tags (fold_left step tokens initial).

(** The indexed path of a start tag, one string [name[index]] per segment. *)
Definition rendered_path (t : list IndexedPathSegment * PathResolver.Range4) : list string :=
  rendered <$> t.1.

Definition matching (xpath : list string) (tokens : list Token) : list PathResolver.Range4 :=
  snd <$> filter (fun t => path_matches xpath t.1) (tags_of tokens).

(** The range of the first matching tag in document order. *)
Definition first_match (xpath : list string) (tokens : list Token) : option PathResolver.Range4 :=
  head (matching xpath tokens).

(** The range of the last matching tag in document order. *)
Definition last_match (xpath : list string) (tokens : list Token) : option PathResolver.Range4 :=
  last (matching xpath tokens).

(** The element closed last among those remembered: the first one met from
    the innermost depth outwards. *)
Fixpoint first_some {A} (l : list (option A)) : option A :=
  match l with
  | [] => None
  | Some x :: _ => Some x
  | None :: r => first_some r
  end.

Definition name_ok (name : string) : bool :=
  forallb (fun c => negb (Js.is_line_terminator c)) (Js.chars name).

(** Regular streams: every start tag follows its tag-open event and has a
    name free of line terminators, every end tag closes an open element, and
    no element that opens with no sibling closed before it at its depth
    bears the name of the element closed last before it. *)
Definition regular_here (st : State) (ev : Event) : bool :=
  match ev with
  | OpenTag node =>
      match starts st with [] => false | _ => true end
      && name_ok (tag_name node)
      && match mjoin (head (closed st)), first_some (closed st) with
         | None, Some s => negb (String.eqb (localName s) (tag_name node))
         | _, _ => true
         end
  | CloseTag _ => match path st with [] => false | _ => true end
  | _ => true
  end.

Fixpoint regular_from (st : State) (tokens : list Token) : bool :=
  match tokens with
  | [] => true
  | tok :: rest => regular_here st tok.2 && regular_from (step st tok) rest
  end.

Definition regular (tokens : list Token) : bool := regular_from initial tokens.

End PathSpec.

(** ** The validator library (salve) at its boundary *)

Module Salve.

(** [DefaultNameResolver]: a stack of prefix-to-URI scopes above a default
    scope that cannot be left. *)
Record NameResolver := {
  default_context : gmap string string;
  contexts : list (gmap string string)
}.

Definition XML1_NAMESPACE : string := "http://www.w3.org/XML/1998/namespace".

Definition new_DefaultNameResolver : NameResolver :=
  {| default_context := <["xml" := XML1_NAMESPACE]> (<["" := ""]> ∅);
     contexts := [] |}.

Definition enterContext (r : NameResolver) : NameResolver :=
  {| default_context := default_context r; contexts := ∅ :: contexts r |}.

Definition definePrefix (prefix uri : string) (r : NameResolver) : NameResolver :=
  match contexts r with
  | c :: cs => {| default_context := default_context r; contexts := <[prefix := uri]> c :: cs |}
  | [] => {| default_context := <[prefix := uri]> (default_context r); contexts := [] |}
  end.

(** [leaveContext] throws when only the default scope is left. *)
Definition leaveContext (r : NameResolver) : option NameResolver :=
  match contexts r with
  | _ :: cs => Some {| default_context := default_context r; contexts := cs |}
  | [] => None
  end.

Record EName := { ns : string; name : string }.

(** A validation error of the automaton: [err.msg] and [err.getNames()]. *)
Record ValidationError := { msg : string; names : list EName }.

(** The events of [walker.fireEvent(name, args)] the extension fires. *)
Inductive WalkerEvent :=
| enterStartTag (uri local : string)
| attributeName (uri local : string)
| attributeValue (value : string)
| leaveStartTag
| endTag (uri local : string)
| text (value : string).

(** The compiled grammar and its walker.  The walker resolves names through
    the name resolver it was created with.  [fireEvent] and [end_] answer
    [None] for JavaScript's [false] and [Some errors] for an array.
    [grammarFromSource k src] is the outcome of the compilation of [src] when
    [k] compilations were started before it: the schema is fetched and
    compiled anew each time, so the outcome may differ between calls; [None]
    is a failed compilation. *)
Class Automaton := {
  Grammar : Type;
  Walker : Type;
  newWalker : Grammar -> Walker;
  fireEvent : Walker -> NameResolver -> WalkerEvent -> Walker * option (list ValidationError);
  end_ : Walker -> NameResolver -> Walker * option (list ValidationError);
  grammarFromSource : nat -> string -> option Grammar
}.

End Salve.

(** ** The editor API at its boundary *)

Module Vscode.

(** [new vscode.Range(startLine, startCharacter, endLine, endCharacter)] *)
Record Range := {
  startLine : Z; startCharacter : Z; endLine : Z; endCharacter : Z
}.

Record Diagnostic := { range : Range; message : string }.

(** An open text document: [document.lineAt(n).text]. *)
Record TextDocument := { lineAt : Z -> string }.

End Vscode.

(** ** The doctype scanner of [parse] *)

Module DoctypeScanner.

Definition is_not_line_terminator (c : ascii) : bool := negb (Js.is_line_terminator c).
Definition is_not_whitespace (c : ascii) : bool := negb (Js.is_whitespace c).

Fixpoint starts_with (prefix l : list ascii) : option (list ascii) :=
  match prefix, l with
  | [], _ => Some l
  | p :: ps, c :: r => if Ascii.eqb p c then starts_with ps r else None
  | _ :: _, [] => None
  end.

(** [.replace(re, "")] where [re] is: start of the string, the shortest run
    of characters other than line terminators, an opening bracket. *)
Fixpoint strip_open_at (l : list ascii) : option (list ascii) :=
  match l with
  | [] => None
  | c :: r =>
      if Ascii.eqb c "[" then Some r
      else if Js.is_line_terminator c then None
      else strip_open_at r
  end.

Definition strip_open (l : list ascii) : list ascii :=
  match strip_open_at l with Some r => r | None => l end.

(** [.replace(re, "")] where [re] is: a closing bracket, characters other
    than line terminators, the end of the string.  The leftmost match is
    replaced. *)
Fixpoint strip_close (l : list ascii) : list ascii :=
  match l with
  | [] => []
  | c :: r =>
      if Ascii.eqb c "]" && forallb is_not_line_terminator r then []
      else c :: strip_close r
  end.

(** [.replace(re, "")] with the flag [g], where [re] is a comment opener,
    the shortest run of any characters, a comment closer.
    [comment_end l] is the number of characters before the first closer in
    [l]; [strip_comments_from skip l] drops [skip] characters first. *)
Fixpoint comment_end (l : list ascii) : option nat :=
  match l with
  | [] => None
  | _ :: r =>
      match starts_with (Js.chars "-->") l with
      | Some _ => Some 0%nat
      | None => S <$> comment_end r
      end
  end.

Fixpoint strip_comments_from (skip : nat) (l : list ascii) : list ascii :=
  match l with
  | [] => []
  | c :: r =>
      match skip with
      | S k => strip_comments_from k r
      | O =>
          match starts_with (Js.chars "<!--") l with
          | Some body =>
              match comment_end body with
              | Some d => strip_comments_from (d + 6) r
              | None => c :: strip_comments_from 0 r
              end
          | None => c :: strip_comments_from 0 r
          end
      end
  end.

Definition strip_comments (l : list ascii) : list ascii := strip_comments_from 0 l.

(** The text the entity loop works on. *)
Definition clean (doctype : string) : list ascii :=
  Js.trim_chars (strip_comments (strip_close (strip_open (Js.chars doctype)))).

(** The end of a declaration after its closing quote: optional whitespace
    and a closing angle bracket; what follows the bracket. *)
Definition closes (l : list ascii) : option (list ascii) :=
  match snd (Js.span Js.is_whitespace l) with
  | ">"%char :: rest => Some rest
  | _ => None
  end.

(** The value of a declaration: the shortest run of characters other than
    line terminators after which the quote and the end of the declaration
    come; [acc] is the run read so far, last character first. *)
Fixpoint lazy_value (quote : ascii) (acc l : list ascii) : option (list ascii * list ascii) :=
  match l with
  | [] => None
  | c :: r =>
      match (if Ascii.eqb c quote then closes r else None) with
      | Some rest => Some (reverse acc, rest)
      | None =>
          if Js.is_line_terminator c then None
          else lazy_value quote (c :: acc) r
      end
  end.

Definition is_quote (c : ascii) : bool :=
  Ascii.eqb c "'" || Ascii.eqb c "034".

(** [entityRe.exec(cleaned)]: the name (group 1), the value (group 3) and
    what is left of [cleaned] after the whole match.  The expression reads:
    start of the string, the keyword, whitespace, a run of non-whitespace,
    whitespace, a quote (group 2), the shortest run of characters other than
    line terminators (group 3) that is followed by the same quote, optional
    whitespace and a closing angle bracket, then optional whitespace.  Each
    greedy run is followed by a character outside its class, so no shorter
    run can match. *)
Definition entityRe (cleaned : list ascii) : option (string * string * list ascii) :=
  match starts_with (Js.chars "<!ENTITY") cleaned with
  | None => None
  | Some r0 =>
      match Js.span Js.is_whitespace r0 with
      | ([], _) => None
      | (_, r1) =>
          match Js.span is_not_whitespace r1 with
          | ([], _) => None
          | (name, r2) =>
              match Js.span Js.is_whitespace r2 with
              | (_ :: _, quote :: r3) =>
                  if is_quote quote then
                    match lazy_value quote [] r3 with
                    | Some (value, r4) =>
                        Some (Js.str name, Js.str value, snd (Js.span Js.is_whitespace r4))
                    | None => None
                    end
                  else None
              | _ => None
              end
          end
      end
  end.

Inductive Scan :=
| Registered (ENTITIES : gmap string string)
| Redefining (name : string)
| Unexpected.

(** The loop [while (cleaned.length !== 0)].  Every match consumes at least
    the keyword, so [length cleaned] rounds are enough: [rounds] is the
    number of rounds still allowed, and the case of no round left for a text
    that is not empty is never reached from [scan_doctype]. *)
Fixpoint scan (rounds : nat) (cleaned : list ascii) (ENTITIES : gmap string string) : Scan :=
  match cleaned, rounds with
  | [], _ => Registered ENTITIES
  | _ :: _, O => Registered ENTITIES
  | _ :: _, S rounds' =>
      match entityRe cleaned with
      | Some (name, value, rest) =>
          match ENTITIES !! name with
          | Some _ => Redefining name
          | None => scan rounds' rest (<[name := value]> ENTITIES)
          end
      | None => Unexpected
      end
  end.

Definition scan_doctype (doctype : string) (ENTITIES : gmap string string) : Scan :=
  let cleaned := clean doctype in
  scan (length cleaned) cleaned ENTITIES.

End DoctypeScanner.

(** ** The cleaning of the doctype as the specification words it

    "Strip everything before the first opening bracket and after the last
    closing bracket, strip comments"; the loop over the declarations is the
    one of the code. *)

Module DoctypeSpec.

Fixpoint after_first_open (l : list ascii) : option (list ascii) :=
  match l with
  | [] => None
  | c :: r => if Ascii.eqb c "[" then Some r else after_first_open r
  end.

Fixpoint before_last_close (l : list ascii) : option (list ascii) :=
  match l with
  | [] => None
  | c :: r =>
      match before_last_close r with
      | Some r' => Some (c :: r')
      | None => if Ascii.eqb c "]" then Some [] else None
      end
  end.

Definition clean (doctype : string) : list ascii :=
  let l := Js.chars doctype in
  let l := default l (after_first_open l) in
  let l := default l (before_last_close l) in
  Js.trim_chars (DoctypeScanner.strip_comments l).

Definition scan_doctype (doctype : string) (ENTITIES : gmap string string)
    : DoctypeScanner.Scan :=
  let cleaned := clean doctype in
  DoctypeScanner.scan (length cleaned) cleaned ENTITIES.

End DoctypeSpec.

(** ** The validation run: [parse] *)

Module Validation.
Import Saxes Salve Vscode.

Inductive ErrorType := ERR_VALID | ERR_WELLFORM | ERR_SCHEMA | NO_ERR.

Record TagInfo := { uri : string; local : string; hasContext : bool }.

(** The calls the run makes into the validator library, in the order it
    makes them.  The record is kept for the statements about ordering; the
    code keeps no such list. *)
Inductive Call :=
| EnterContext
| DefinePrefix (prefix uri : string)
| LeaveContext
| FireEvent (ev : WalkerEvent)
| WalkerEnd.

(** [XML_ENTITIES], with which the tokenizer fills [parser.ENTITIES].  The
    table is taken with the entries it owns: [parser.ENTITIES[name]] is the
    lookup of [name] among them. *)
Definition XML_ENTITIES : gmap string string :=
  <["amp" := "&"]> (<["gt" := ">"]> (<["lt" := "<"]>
    (<["quot" := String "034" ""]> (<["apos" := "'"]> ∅)))).

Section Run.
Context `{Automaton}.

(** The variables the listeners of [parse] share.  [diagnostics] is
    [diagnosticMap.get(xmlURI)], the only key the map is used with. *)
Record RunState := {
  walker : Walker;
  nameResolver : NameResolver;
  ENTITIES : gmap string string;
  tagStack : list TagInfo;
  textBuf : string;
  error : ErrorType;
  errorCount : Z;
  diagnostics : list Diagnostic;
  calls : list Call
}.

Definition set_walker (w : Walker) (c : Call) (st : RunState) : RunState :=
  {| walker := w; nameResolver := nameResolver st; ENTITIES := ENTITIES st;
     tagStack := tagStack st; textBuf := textBuf st; error := error st;
     errorCount := errorCount st; diagnostics := diagnostics st;
     calls := calls st ++ [c] |}.

Definition set_nameResolver (r : NameResolver) (c : Call) (st : RunState) : RunState :=
  {| walker := walker st; nameResolver := r; ENTITIES := ENTITIES st;
     tagStack := tagStack st; textBuf := textBuf st; error := error st;
     errorCount := errorCount st; diagnostics := diagnostics st;
     calls := calls st ++ [c] |}.

Definition set_ENTITIES (e : gmap string string) (st : RunState) : RunState :=
  {| walker := walker st; nameResolver := nameResolver st; ENTITIES := e;
     tagStack := tagStack st; textBuf := textBuf st; error := error st;
     errorCount := errorCount st; diagnostics := diagnostics st;
     calls := calls st |}.

Definition set_tagStack (t : list TagInfo) (st : RunState) : RunState :=
  {| walker := walker st; nameResolver := nameResolver st; ENTITIES := ENTITIES st;
     tagStack := t; textBuf := textBuf st; error := error st;
     errorCount := errorCount st; diagnostics := diagnostics st;
     calls := calls st |}.

Definition set_textBuf (t : string) (st : RunState) : RunState :=
  {| walker := walker st; nameResolver := nameResolver st; ENTITIES := ENTITIES st;
     tagStack := tagStack st; textBuf := t; error := error st;
     errorCount := errorCount st; diagnostics := diagnostics st;
     calls := calls st |}.

(** [error = e; errorCount += n; diagnostics.push(...ds)] *)
Definition report (e : ErrorType) (n : Z) (ds : list Diagnostic) (st : RunState) : RunState :=
  {| walker := walker st; nameResolver := nameResolver st; ENTITIES := ENTITIES st;
     tagStack := tagStack st; textBuf := textBuf st; error := e;
     errorCount := errorCount st + n; diagnostics := diagnostics st ++ ds;
     calls := calls st |}.

(** [errorCount++] *)
Definition count_error (st : RunState) : RunState := report (error st) 1 [] st.

(** The loop of [fireEvent] that looks for the start of the tag: the
    characters of the line at the indices below [n], from the last one
    down. *)
Fixpoint scan_back (lineText : string) (n : nat) : option nat :=
  match n with
  | O => None
  | S i =>
      match String.get i lineText with
      | Some "<"%char => Some i
      | _ => scan_back lineText i
      end
  end.

Definition tag_start (document : option TextDocument) (p : Position) : Z :=
  match document with
  | Some doc =>
      let lineText := lineAt doc (line p - 1) in
      let errorCol0 := Z.min (column p - 1) (Z.of_nat (String.length lineText) - 1) in
      match scan_back lineText (Z.to_nat (errorCol0 + 1)) with
      | Some i => Z.of_nat i
      | None => 0
      end
  | None => 0
  end.

Definition names_message (ns : list EName) : string :=
  String.concat " "
    (map (fun n => String "034" "" +:+ Salve.name n +:+ String "034" "" +:+ " " +:+
                   (if String.eqb (Salve.ns n) "" then "" else "(" +:+ Salve.ns n +:+ ")"))
         ns).

Definition automaton_diagnostic (document : option TextDocument) (p : Position)
    (err : ValidationError) : Diagnostic :=
  {| range := {| startLine := line p - 1; startCharacter := tag_start document p;
                 endLine := line p - 1; endCharacter := column p |};
     message := msg err +:+ " — " +:+ names_message (names err) |}.

(** [function fireEvent(name, args)] of [parse] *)
Definition fireEvent (document : option TextDocument) (p : Position) (ev : WalkerEvent)
    (st : RunState) : RunState :=
  let '(w, ret) := Salve.fireEvent (walker st) (nameResolver st) ev in
  let st := set_walker w (FireEvent ev) st in
  match ret with
  | Some errs =>
      report ERR_VALID (Z.of_nat (length errs))
        (map (automaton_diagnostic document p) errs) st
  | None => st
  end.

(** [function flushTextBuf()] *)
Definition flushTextBuf (document : option TextDocument) (p : Position)
    (st : RunState) : RunState :=
  if String.eqb (textBuf st) "" then st
  else set_textBuf "" (fireEvent document p (text (textBuf st)) st).

(** [Object.keys(node.attributes)] followed by [names.sort()]: the keys in
    the order of their code units. *)
Definition sorted_names (node : SaxesTag) : list string :=
  merge_sort String.le (fst <$> map_to_list (tag_attributes node)).

(** The loop over the sorted names: [nsDefinitions] and
    [attributeEvents]. *)
Fixpoint partition_attributes (attributes : gmap string SaxesAttributeNS)
    (names : list string) : list (string * string) * list WalkerEvent :=
  match names with
  | [] => ([], [])
  | name :: rest =>
      let '(nsDefinitions, attributeEvents) := partition_attributes attributes rest in
      match attributes !! name with
      | Some attr =>
          if String.eqb name "xmlns" then
            (("", attr_value attr) :: nsDefinitions, attributeEvents)
          else if String.eqb (attr_prefix attr) "xmlns" then
            ((attr_local attr, attr_value attr) :: nsDefinitions, attributeEvents)
          else
            (nsDefinitions,
             attributeName (attr_uri attr) (attr_local attr)
               :: attributeValue (attr_value attr) :: attributeEvents)
      | None => (nsDefinitions, attributeEvents)
      end
  end.

Definition define_prefixes (nsDefinitions : list (string * string)) (st : RunState) : RunState :=
  fold_left (fun st d => set_nameResolver (definePrefix d.1 d.2 (nameResolver st))
                           (DefinePrefix d.1 d.2) st)
            nsDefinitions st.

Definition is_nil {A} (l : list A) : bool :=
  match l with [] => true | _ => false end.

(** [parser.on('opentag', (node) => ...)] *)
Definition on_opentag (document : option TextDocument) (p : Position) (node : SaxesTag)
    (st : RunState) : RunState :=
  let st := flushTextBuf document p st in
  let '(nsDefinitions, attributeEvents) :=
    partition_attributes (tag_attributes node) (sorted_names node) in
  let st :=
    if is_nil nsDefinitions then st
    else define_prefixes nsDefinitions
           (set_nameResolver (enterContext (nameResolver st)) EnterContext st) in
  let st := fireEvent document p (enterStartTag (tag_uri node) (tag_local node)) st in
  let st := fold_left (fun st ev => fireEvent document p ev st) attributeEvents st in
  let st := fireEvent document p leaveStartTag st in
  set_tagStack ({| uri := tag_uri node; local := tag_local node;
                   hasContext := negb (is_nil nsDefinitions) |} :: tagStack st) st.

(** [parser.on('text', (text) => ...)] *)
Definition on_text (t : string) (st : RunState) : RunState :=
  set_textBuf (textBuf st +:+ t) st.

(** [parser.on('closetag', () => ...)] *)
Definition on_closetag (document : option TextDocument) (p : Position)
    (st : RunState) : Outcome RunState :=
  let st := flushTextBuf document p st in
  match tagStack st with
  | [] => Thrown p "stack underflow" (count_error st)
  | tagInfo :: rest =>
      let st := set_tagStack rest st in
      let st := fireEvent document p (endTag (uri tagInfo) (local tagInfo)) st in
      if hasContext tagInfo then
        match leaveContext (nameResolver st) with
        | Some r => Done (set_nameResolver r LeaveContext st)
        | None => Thrown p "trying to leave the default context" st
        end
      else Done st
  end.

(** [parser.on('doctype', (doctype) => ...)] *)
Definition on_doctype (p : Position) (doctype : string) (st : RunState) : Outcome RunState :=
  match DoctypeScanner.scan_doctype doctype (ENTITIES st) with
  | DoctypeScanner.Registered e => Done (set_ENTITIES e st)
  | DoctypeScanner.Redefining name => Thrown p ("redefining entity: " +:+ name) st
  | DoctypeScanner.Unexpected =>
      Thrown p ("unexpected construct in DOCTYPE: " +:+ doctype) (count_error st)
  end.

(** [parser.on('end', () => ...)] *)
Definition on_end (st : RunState) : RunState :=
  let '(w, result) := end_ (walker st) (nameResolver st) in
  let st := set_walker w WalkerEnd st in
  match result with
  | Some errs => report ERR_WELLFORM (Z.of_nat (length errs)) [] st
  | None => st
  end.

Definition listeners (document : option TextDocument) (p : Position) (ev : Event)
    (st : RunState) : Outcome RunState :=
  match ev with
  | OpenTag node => Done (on_opentag document p node st)
  | Text t => Done (on_text t st)
  | CloseTag _ => on_closetag document p st
  | Doctype d => on_doctype p d st
  | End => Done (on_end st)
  | _ => Done st
  end.

(** The state of the run when the tokenizer is started on the document. *)
Definition start (tree : Grammar) : RunState :=
  {| walker := newWalker tree; nameResolver := new_DefaultNameResolver;
     ENTITIES := XML_ENTITIES; tagStack := []; textBuf := "";
     error := NO_ERR; errorCount := 0; diagnostics := []; calls := [] |}.

(** The [catch] block of [parse]. *)
Definition catch (p : Position) (message : string) (st : RunState) : RunState :=
  report ERR_WELLFORM 1
    [ {| range := {| startLine := line p - 1; startCharacter := 0;
                     endLine := line p - 1; endCharacter := column p |};
         message := message |} ] st.

(** The [try] statement of [parse]: no error listener is registered, so an
    error of the tokenizer is thrown and caught with those of the
    listeners. *)
Definition tokenize (document : option TextDocument) (tokens : list Token)
    (st : RunState) : RunState :=
  match write (listeners document) None tokens st with
  | Done st' => st'
  | Thrown p m st' => catch p m st'
  end.

Record Result := {
  errorType : ErrorType;
  result_errorCount : Z;
  result_diagnostics : list Diagnostic
}.

Definition result_of (st : RunState) : Result :=
  {| errorType := error st; result_errorCount := errorCount st;
     result_diagnostics := diagnostics st |}.

(** *** The grammar store and [doValidation] *)

Record StoredGrammar := { rngURI : option string; grammar : option Grammar }.

(** [grammarStore], and the schema sources handed to [grammarFromSource] so
    far, oldest first. *)
Record World := {
  grammarStore : gmap string StoredGrammar;
  compilations : list string
}.

Definition set_grammar (xmlURI : string) (g : option Grammar) (w : World) : World :=
  {| grammarStore := alter (fun r => {| rngURI := rngURI r; grammar := g |}) xmlURI (grammarStore w);
     compilations := compilations w |}.

Definition compile (rngSource : string) (w : World) : World * option Grammar :=
  ({| grammarStore := grammarStore w; compilations := compilations w ++ [rngSource] |},
   grammarFromSource (length (compilations w)) rngSource).

(** What the promise of [parse] comes to.  [Rejected] is the [TypeError] of
    reading a property of [grammarStore[xmlURI]] when the store has no record
    for [xmlURI].  [final] is the state the listeners were left in, when the
    document was tokenized. *)
Inductive Parsed :=
| Resolved (r : Result) (final : option RunState)
| Rejected.

Definition resolved (p : Parsed) : option Result :=
  match p with Resolved r _ => Some r | Rejected => None end.

Definition final_state (p : Parsed) : option RunState :=
  match p with Resolved _ st => st | Rejected => None end.

(** The first statements of [parse], up to the grammar: [Some None] when the
    compilation failed. *)
Definition resolve_grammar (isNewSchema : bool) (rngSource xmlURI : string) (w : World)
    : World * option (option Grammar) :=
  match grammarStore w !! xmlURI with
  | None =>
      if isNewSchema then
        let '(w, tree) := compile rngSource w in
        (w, match tree with Some _ => None | None => Some None end)
      else (w, None)
  | Some stored =>
      let tree := if isNewSchema then None else grammar stored in
      let '(w, tree) :=
        match tree with
        | Some g => (w, Some g)
        | None => compile rngSource w
        end in
      match tree with
      | Some g => (set_grammar xmlURI (Some g) w, Some (Some g))
      | None => (w, Some None)
      end
  end.

(** [async function parse(isNewSchema, rngSource, xmlSource, xmlURI)] *)
Definition parse (isNewSchema : bool) (rngSource : string) (tokens : list Token)
    (xmlURI : string) (document : option TextDocument) (w : World) : World * Parsed :=
  match resolve_grammar isNewSchema rngSource xmlURI w with
  | (w, None) => (w, Rejected)
  | (w, Some None) =>
      (w, Resolved {| errorType := ERR_SCHEMA; result_errorCount := 1;
                      result_diagnostics := [] |} None)
  | (w, Some (Some tree)) =>
      let st := tokenize document tokens (start tree) in
      (w, Resolved (result_of st) (Some st))
  end.

(** What [doValidation] does with the result of [parse]. *)
Inductive Next :=
| Schematron (message : string) (errorCount : Z) (diagnostics : list Diagnostic)
| StatusBar (message : string).

Definition dispatch (r : Result) : Next :=
  match errorType r with
  | ERR_VALID => Schematron "XML is not valid" (result_errorCount r) (result_diagnostics r)
  | ERR_WELLFORM => StatusBar "$(error) XML is not well formed."
  | ERR_SCHEMA => Schematron "RNG schema is incorrect." (result_errorCount r) (result_diagnostics r)
  | NO_ERR => Schematron "XML is valid." (result_errorCount r) (result_diagnostics r)
  end.

(** The part of [doValidation] that looks the schema up in the store, for a
    located schema [schema] of the document [xmlURI]. *)
Definition lookup_schema (schema xmlURI : string) (w : World) : World * bool :=
  let store :=
    match grammarStore w !! xmlURI with
    | Some _ => grammarStore w
    | None => <[xmlURI := {| rngURI := None; grammar := None |}]> (grammarStore w)
    end in
  let savedSchemaLoc := store !! xmlURI ≫= rngURI in
  if decide (savedSchemaLoc = Some schema) then
    ({| grammarStore := store; compilations := compilations w |}, false)
  else
    ({| grammarStore := <[xmlURI := {| rngURI := Some schema; grammar := None |}]> store;
        compilations := compilations w |}, true).

(** [doValidation] for a located schema: the store, then [parse], then the
    next step. *)
Definition doValidation (schema : string) (tokens : list Token) (xmlURI : string)
    (document : option TextDocument) (w : World) : World * Parsed * option Next :=
  let '(w, isNewSchema) := lookup_schema schema xmlURI w in
  let '(w, parsed) := parse isNewSchema schema tokens xmlURI document w in
  (w, parsed, match parsed with Resolved r _ => Some (dispatch r) | Rejected => None end).

End Run.

End Validation.

(** ** Sample documents *)

Module Samples.
Import Saxes.

Definition at_ (l c : Z) : Position := {| line := l; column := c |}.

Definition element (n : string) : SaxesTag :=
  {| tag_name := n; tag_uri := ""; tag_local := n; tag_attributes := ∅ |}.

(** The events of a tokenizer pass over the one-line document
    [<r><a/><a/></r>].  In the streams for the path resolver the tag-open
    event of a tag is placed one column after its opening angle bracket and
    its start-tag event one column after its closing angle bracket. *)
Definition two_siblings : list Token :=
  [ (at_ 1 1, OpenTagStart); (at_ 1 3, OpenTag (element "r"));
    (at_ 1 4, OpenTagStart); (at_ 1 7, OpenTag (element "a")); (at_ 1 7, CloseTag (element "a"));
    (at_ 1 8, OpenTagStart); (at_ 1 11, OpenTag (element "a")); (at_ 1 11, CloseTag (element "a"));
    (at_ 1 15, CloseTag (element "r")); (at_ 1 15, End) ].

(** [<r><a/><b/><a/></r>] *)
Definition interleaved : list Token :=
  [ (at_ 1 1, OpenTagStart); (at_ 1 3, OpenTag (element "r"));
    (at_ 1 4, OpenTagStart); (at_ 1 7, OpenTag (element "a")); (at_ 1 7, CloseTag (element "a"));
    (at_ 1 8, OpenTagStart); (at_ 1 11, OpenTag (element "b")); (at_ 1 11, CloseTag (element "b"));
    (at_ 1 12, OpenTagStart); (at_ 1 15, OpenTag (element "a")); (at_ 1 15, CloseTag (element "a"));
    (at_ 1 19, CloseTag (element "r")); (at_ 1 19, End) ].

(** [<r><a/><b><a/></b></r>] *)
Definition nested : list Token :=
  [ (at_ 1 1, OpenTagStart); (at_ 1 3, OpenTag (element "r"));
    (at_ 1 4, OpenTagStart); (at_ 1 7, OpenTag (element "a")); (at_ 1 7, CloseTag (element "a"));
    (at_ 1 8, OpenTagStart); (at_ 1 10, OpenTag (element "b"));
    (at_ 1 11, OpenTagStart); (at_ 1 14, OpenTag (element "a")); (at_ 1 14, CloseTag (element "a"));
    (at_ 1 18, CloseTag (element "b"));
    (at_ 1 22, CloseTag (element "r")); (at_ 1 22, End) ].

(** [<r><a></r>]: the tokenizer reports the end tag that does not match,
    closes both elements and goes on. *)
Definition unclosed : list Token :=
  [ (at_ 1 1, OpenTagStart); (at_ 1 3, OpenTag (element "r"));
    (at_ 1 4, OpenTagStart); (at_ 1 6, OpenTag (element "a"));
    (at_ 1 10, Error "unexpected close tag."); (at_ 1 10, CloseTag (element "a"));
    (at_ 1 10, CloseTag (element "r")); (at_ 1 10, End) ].

Definition named (n : string) : Salve.EName := {| Salve.ns := ""; Salve.name := n |}.

Definition sample_fireEvent (w : list string * list string) (r : Salve.NameResolver)
    (ev : Salve.WalkerEvent)
    : (list string * list string) * option (list Salve.ValidationError) :=
  match ev with
  | Salve.enterStartTag _ l =>
      if bool_decide (l ∈ w.1) then ((w.1, filter (fun n => n ≠ l) w.2), None)
      else (w, Some [ {| Salve.msg := "tag not allowed here"; Salve.names := named <$> w.1 |} ])
  | _ => (w, None)
  end.

Definition sample_end (w : list string * list string) (r : Salve.NameResolver)
    : (list string * list string) * option (list Salve.ValidationError) :=
  match w.2 with
  | [] => (w, None)
  | missing => (w, Some [ {| Salve.msg := "required element missing"; Salve.names := named <$> missing |} ])
  end.

(** A small automaton.  A grammar lists the local names of the elements a
    document may contain, all of which it must contain once at least; the
    walker keeps the names allowed and the names still missing.  Only the
    schema [file:///tei.rng] compiles. *)
#[local] Instance sample : Salve.Automaton := {|
  Salve.Grammar := list string;
  Salve.Walker := list string * list string;
  Salve.newWalker g := (g, g);
  Salve.fireEvent := sample_fireEvent;
  Salve.end_ := sample_end;
  Salve.grammarFromSource _ src :=
    if String.eqb src "file:///tei.rng" then Some ["doc"; "title"] else None
|}.

Definition attribute (prefix local uri value : string) : SaxesAttributeNS :=
  {| attr_prefix := prefix; attr_local := local; attr_uri := uri; attr_value := value |}.

Definition element_ns (n uri : string) (attributes : gmap string SaxesAttributeNS) : SaxesTag :=
  {| tag_name := n; tag_uri := uri; tag_local := n; tag_attributes := attributes |}.

(** [<doc/>] followed by a line break: well formed, and the title the
    grammar requires is missing. *)
Definition no_title : list Token :=
  [ (at_ 1 6, OpenTag (element "doc")); (at_ 1 6, CloseTag (element "doc"));
    (at_ 2 0, Text (String "010" "")); (at_ 2 0, End) ].

(** [<doc><bad></doc>]: an element the grammar does not allow, which is
    left unclosed; the events up to the error of the tokenizer and one it
    would deliver after it.  In the streams for [parse] a start tag is
    reported one column after its closing angle bracket. *)
Definition bad_unclosed : list Token :=
  [ (at_ 1 5, OpenTag (element "doc")); (at_ 1 10, OpenTag (element "bad"));
    (at_ 1 16, Error "unexpected close tag"); (at_ 1 16, CloseTag (element "bad")) ].

(** [<doc xmlns="urn:x"><t:title xmlns:t="urn:t" id="i"/>text</doc>] *)
Definition namespaced : list Token :=
  [ (at_ 1 19, OpenTag (element_ns "doc" "urn:x"
       (<["xmlns" := attribute "xmlns" "" "http://www.w3.org/2000/xmlns/" "urn:x"]> ∅)));
    (at_ 1 54, OpenTag
       {| tag_name := "t:title"; tag_uri := "urn:t"; tag_local := "title";
          tag_attributes :=
            <["xmlns:t" := attribute "xmlns" "t" "http://www.w3.org/2000/xmlns/" "urn:t"]>
              (<["id" := attribute "" "id" "" "i"]> ∅) |});
    (at_ 1 54, CloseTag (element "t:title"));
    (at_ 1 60, Text "text");
    (at_ 1 64, CloseTag (element "doc"));
    (at_ 1 64, End) ].

Definition the_document : Vscode.TextDocument :=
  {| Vscode.lineAt := fun n => if (n =? 0)%Z then "<doc><bad></doc>" else "" |}.

Definition quote : string := String "034" "".



Definition no_world : Validation.World :=
  {| Validation.grammarStore := ∅; Validation.compilations := [] |}.

(** The grammar of [file:///tei.rng], and the run state at the start of a
    validation against it. *)
Definition tei : @Salve.Grammar sample := ["doc"; "title"].
Definition started : @Validation.RunState sample := Validation.start tei.

End Samples.

(** ** More JavaScript primitives: [split] on two characters, [join],
    [slice], regular expressions with lazy quantifiers *)

Module JsText.

Definition dquote : ascii := "034"%char.

(** [s.split(sep)] for a separator [sep] of two characters [s1 s2]: the
    pieces between the occurrences of [sep], found from the left, an
    occurrence starting where the one before it ended at the earliest. *)
Fixpoint split2_chars (s1 s2 : ascii) (cur l : list ascii) : list (list ascii) :=
  match l with
  | [] => [reverse cur]
  | c :: r =>
      match r with
      | c2 :: r2 =>
          if Ascii.eqb c s1 && Ascii.eqb c2 s2
          then reverse cur :: split2_chars s1 s2 [] r2
          else split2_chars s1 s2 (c :: cur) r
      | [] => [reverse (c :: cur)]
      end
  end.

Definition split2 (s1 s2 : ascii) (s : string) : list string :=
  Js.str <$> split2_chars s1 s2 [] (Js.chars s).

(** [l.filter(Boolean)] on an array of strings: the empty string is the
    falsy one. *)
Definition filter_Boolean (l : list string) : list string :=
  filter (fun s => s ≠ "") l.

(** [l.join(sep)] *)
Definition join (sep : string) (l : list string) : string := String.concat sep l.

(** [l.slice(0, -1)] *)
Definition slice_init {A} (l : list A) : list A := take (length l - 1) l.

(** An integer as a template literal renders it. *)
Definition decimalZ (n : Z) : string :=
  if (n <? 0)%Z then "-" +:+ Js.decimal (Z.to_N (- n)) else Js.decimal (Z.to_N n).

(** *** Regular expressions, by continuations

    A matcher takes the text left to read and answers with the value of the
    match, if there is one; what comes next in the expression is the
    continuation [k]. *)

(** A literal. *)
Definition lit {A} (s : list ascii) (k : list ascii -> option A) (l : list ascii) : option A :=
  DoctypeScanner.starts_with s l ≫= k.

(** [.+?] under the flag [s] starts with one character, whatever it is. *)
Definition any_char {A} (k : list ascii -> option A) (l : list ascii) : option A :=
  match l with
  | [] => None
  | _ :: r => k r
  end.

(** [.*?] under the flag [s]: the continuation is tried after no character,
    then after one more each time it fails.  The search for the leftmost
    match of an expression that is not anchored goes the same way. *)
Fixpoint lazily {A} (k : list ascii -> option A) (l : list ascii) {struct l} : option A :=
  match k l with
  | Some a => Some a
  | None =>
      match l with
      | [] => None
      | _ :: r => lazily k r
      end
  end.

(** A group of one or more characters other than the double quote, then a
    double quote.  The group is greedy and its characters are not quotes, so
    it ends at the first quote or not at all. *)
Definition quoted {A} (k : list ascii -> list ascii -> option A) (l : list ascii) : option A :=
  match Js.span (fun c => negb (Ascii.eqb c dquote)) l with
  | ((_ :: _) as value, _ :: rest) => k value rest
  | _ => None
  end.

End JsText.

(** ** [convertCustomXPath] *)

Module XPathConversion.

(** [component.match(re)], where [re] reads: the start of the string, an
    opening brace, one or more characters other than the closing brace
    (group 1), a closing brace, characters other than line terminators
    (group 2), the end of the string. *)
Definition match_qualified (component : string) : option (string * string) :=
  match Js.chars component with
  | c :: r =>
      if Ascii.eqb c "{" then
        match Js.span (fun c => negb (Ascii.eqb c "}")) r with
        | ((_ :: _) as g1, _ :: g2) =>
            if forallb (fun c => negb (Js.is_line_terminator c)) g2
            then Some (Js.str g1, Js.str g2)
            else None
        | _ => None
        end
      else None
  | [] => None
  end.

Definition convert_component (component : string) : string :=
  match match_qualified component with
  | Some (_, elementName) => elementName
  | None => component
  end.

(** [function convertCustomXPath(customXPath)] *)
Definition convertCustomXPath (customXPath : string) : string :=
  let xPathComponents := JsText.filter_Boolean (JsText.split2 "/" "Q" customXPath) in
  let prefixedComponents := convert_component <$> xPathComponents in
  JsText.join "/" prefixedComponents.

End XPathConversion.

(** ** [locateSchema] *)

Module SchemaLocator.
Import JsText.

(** The active editor's document, as far as [locateSchema] reads it:
    [document.getText()], [document.uri.toString()], [document.uri.path]
    and [document.fileName]. *)
Record Document := {
  getText : string;
  uri : string;
  uri_path : string;
  fileName : string
}.

(** The functions of Node's [path] and [url] modules the function calls:
    [path.parse(p).root], [new URL(s).protocol] ([None] when the constructor
    throws) and [url.pathToFileURL(p).toString()]. *)
Record Platform := {
  path_root : string -> string;
  URL_protocol : string -> option string;
  pathToFileURL : string -> string
}.

Definition xml_model : list ascii := Js.chars "<?xml-model".
Definition href : list ascii := Js.chars "href=" ++ [dquote].
(** The schematypens attribute in the two expressions.  Its two full stops
    are not escaped, so each stands for one character, whatever it is. *)
Definition relaxng_start : list ascii :=
  Js.chars "schematypens=" ++ [dquote] ++ Js.chars "http://relaxng".
Definition relaxng_middle : list ascii := Js.chars "org/ns/structure/1".
Definition relaxng_end : list ascii := Js.chars "0" ++ [dquote].

Definition relaxng {A} (k : list ascii -> option A) : list ascii -> option A :=
  lit relaxng_start (any_char (lit relaxng_middle (any_char (lit relaxng_end k)))).

(** [fileText.match(re)[1]] for the first expression, flag [s]: the
    processing instruction's opener, any characters (lazily), the href
    attribute with its value in group 1, one or more characters (lazily),
    the schematypens attribute of RELAX NG. *)
Definition href_first (fileText : list ascii) : option (list ascii) :=
  lazily
    (lit xml_model
       (lazily
          (lit href
             (quoted (fun value rest =>
                any_char (lazily (relaxng (fun _ => Some value))) rest)))))
    fileText.

(** The second expression: the opener, one or more characters (lazily),
    the schematypens attribute, one or more characters (lazily), the href
    attribute with its value in group 1. *)
Definition schematypens_first (fileText : list ascii) : option (list ascii) :=
  lazily
    (lit xml_model
       (any_char (lazily
          (relaxng
             (any_char (lazily
                (lit href (quoted (fun value _ => Some value)))))))))
    fileText.

(** [fileName.split('.').pop()] *)
Definition extKey (fileName : string) : string :=
  match (Js.pop (Js.split "." fileName)).1 with
  | Some ext => ext
  | None => "undefined"
  end.

(** The schema reference: the one of the document when it has one, else the
    one the settings give for the extension of the file. *)
Definition schemaURL (doc : Document) (defaultSchemas : gmap string string) : option string :=
  let fromSettings := defaultSchemas !! extKey (fileName doc) in
  let schemaURLMatch :=
    match href_first (Js.chars (getText doc)) with
    | Some m => Some m
    | None => schematypens_first (Js.chars (getText doc))
    end in
  match schemaURLMatch with
  | Some m => Some (Js.str m)
  | None => fromSettings
  end.

(** What a call of [locateSchema] comes to: the record it returns, nothing,
    or the [TypeError] of [new URL]. *)
Inductive Located :=
| Found (schema fileText xmlURI : string)
| NotFound
| Raised.

(** The directory of the document:
    [uri.path.split('/').slice(0, -1).join('/')] *)
Definition directory (doc : Document) : string :=
  join "/" (slice_init (Js.split "/" (uri_path doc))).

(** [export function locateSchema()] *)
Definition locateSchema (node : Platform) (activeEditor : option Document)
    (defaultSchemas : gmap string string) : Located :=
  match activeEditor with
  | None => NotFound
  | Some doc =>
      match schemaURL doc defaultSchemas with
      | Some url =>
          if String.eqb url "" then NotFound
          else if negb (String.eqb (path_root node url) "") then
            Found (pathToFileURL node url) (getText doc) (uri doc)
          else
            match URL_protocol node url with
            | None => Raised
            | Some protocol =>
                if String.eqb protocol "" then
                  Found (pathToFileURL node (directory doc +:+ "/" +:+ url))
                        (getText doc) (uri doc)
                else Found url (getText doc) (uri doc)
            end
      | None => NotFound
      end
  end.

End SchemaLocator.

(** ** [parseWithoutSchema] and the branch of [doValidation] that calls it *)

Module WellFormedness.
Import Saxes Vscode Validation.

(** [async function parseWithoutSchema(xmlSource, xmlURI)]: the tokenizer
    runs with no listener at all; the answer is the error type and the
    diagnostics shown for the document. *)
Definition parseWithoutSchema (tokens : list Token) : ErrorType * list Diagnostic :=
  match write (fun _ _ (s : unit) => Done s) None tokens tt with
  | Done _ => (NO_ERR, [])
  | Thrown p m _ =>
      (ERR_WELLFORM,
       [ {| range := {| startLine := line p - 1; startCharacter := 0;
                        endLine := line p - 1; endCharacter := column p |};
            message := m |} ])
  end.

(** The status bar message of [doValidation] when no schema is located. *)
Definition status (err : ErrorType) : string :=
  match err with
  | ERR_WELLFORM => "$(error) XML is not well formed."
  | _ => "$(check) XML is well formed."
  end.

(** The branch of [doValidation] taken when no schema is located: nothing
    without an active editor, else the status bar message and the
    diagnostics shown. *)
Definition doValidation (activeEditor : option (list Token))
    : option (string * list Diagnostic) :=
  match activeEditor with
  | None => None
  | Some tokens =>
      let '(err, diagnostics) := parseWithoutSchema tokens in
      Some (status err, diagnostics)
  end.

End WellFormedness.

(** ** [doSchematronValidation] *)

Module SchematronStage.
Import Saxes Vscode.

(** An error of the constraint engine: [err.location] and [err.text]. *)
Record SchematronError := { location : string; text : string }.

(** The status bar and [diagnosticCollection]. *)
Record Display := {
  statusBarMessage : string;
  diagnosticCollection : gmap string (list Diagnostic)
}.

(** What the callback comes to: it returns, or an exception leaves it. *)
Inductive Settled :=
| Fulfilled (ui : Display)
| Failed (ui : Display).

Definition totalErrors (errors : option (list SchematronError)) (errorCount : Z) : Z :=
  match errors with
  | Some es => Z.of_nat (length es) + errorCount
  | None => errorCount
  end.

Definition status (message : string) (total : Z) : string :=
  if (total =? 0)%Z then "$(check) " +:+ message
  else "$(error) " +:+ message +:+ " Errors: " +:+ JsText.decimalZ total.

Section Stage.
(** [new vscode.Range(startLine, startCharacter, endLine, endCharacter)] as
    the editor has it: the range, or [None] when the constructor throws. *)
Variable new_Range : Z -> Z -> Z -> Z -> option Range.

(** The loop over the errors: [schematronDiagnostics], or [None] when an
    exception leaves the loop. *)
Fixpoint locate_errors (tokens : list Token) (errors : list SchematronError)
    (schematronDiagnostics : list Diagnostic) : option (list Diagnostic) :=
  match errors with
  | [] => Some schematronDiagnostics
  | err :: rest =>
      match PathResolver.processXML tokens
              (XPathConversion.convertCustomXPath (location err)) with
      | Done (startLine, startColumn, endLine, endColumn) =>
          match new_Range startLine startColumn endLine endColumn with
          | Some errorRange =>
              locate_errors tokens rest
                (schematronDiagnostics ++ [ {| range := errorRange; message := text err |} ])
          | None => None
          end
      | Thrown _ _ _ => None
      end
  end.

(** [doSchematronValidation(message, errorCount, diagnostics)].
    [activeEditor] is the stream of events the tokenizer of [processXML]
    delivers for the text of the active editor, if there is one; [errors] is
    what [sch.validate] resolves with; [relocated] is the answer of
    [locateSchema] when the errors have been located. *)
Definition doSchematronValidation (message : string) (errorCount : Z)
    (diagnostics : list Diagnostic) (activeEditor : option (list Token))
    (errors : option (list SchematronError)) (relocated : SchemaLocator.Located)
    (ui : Display) : Settled :=
  let ui := {| statusBarMessage := "$(gear~spin) " +:+ message +:+ "; checking Schematron";
               diagnosticCollection := diagnosticCollection ui |} in
  match activeEditor with
  | None => Fulfilled ui
  | Some tokens =>
      let ui := {| statusBarMessage := status message (totalErrors errors errorCount);
                   diagnosticCollection := ∅ |} in
      match locate_errors tokens (default [] errors) [] with
      | None => Failed ui
      | Some schematronDiagnostics =>
          match relocated with
          | SchemaLocator.Found _ _ xmlURI =>
              Fulfilled {| statusBarMessage := statusBarMessage ui;
                           diagnosticCollection :=
                             <[xmlURI := diagnostics ++ schematronDiagnostics]>
                               (diagnosticCollection ui) |}
          | SchemaLocator.NotFound => Fulfilled ui
          | SchemaLocator.Raised => Failed ui
          end
      end
  end.

End Stage.

End SchematronStage.

(** ** The validations in progress: the first statements of [doValidation]
    and its [validations.push] *)

Module Pending.

(** The loop [for (const [index, v] of validations.entries())]: the
    iterator reads the array at its own index, which goes up by one at each
    step, while [splice] takes the element just read out of the array.
    [rounds] bounds the number of steps; [None] is the bound reached. *)
Fixpoint abort_loop {A} (rounds index : nat) (validations aborted : list A)
    : option (list A * list A) :=
  match validations !! index with
  | None => Some (validations, aborted)
  | Some v =>
      match rounds with
      | O => None
      | S rounds' =>
          abort_loop rounds' (S index) (delete index validations) (aborted ++ [v])
      end
  end.

(** [validations], the controllers [abort] was called on, oldest call
    first, and the number of controllers created.  A controller is named by
    its rank of creation. *)
Record State := {
  validations : list nat;
  aborted : list nat;
  created : nat
}.

Definition initial : State := {| validations := []; aborted := []; created := 0 |}.

(** One call of [doValidation]: the loop when [validations] is not empty,
    then, when a schema is located, a new controller at the end of
    [validations]. *)
Definition doValidation (located : SchemaLocator.Located) (s : State) : option State :=
  match (if (0 <? length (validations s))%nat
         then abort_loop (length (validations s)) 0 (validations s) (aborted s)
         else Some (validations s, aborted s)) with
  | None => None
  | Some (validations', aborted') =>
      Some match located with
           | SchemaLocator.Found _ _ _ =>
               {| validations := validations' ++ [created s]; aborted := aborted';
                  created := S (created s) |}
           | _ => {| validations := validations'; aborted := aborted'; created := created s |}
           end
  end.

(** A sequence of calls of [doValidation], each with what [locateSchema]
    answers in it. *)
Fixpoint session (calls : list SchemaLocator.Located) (s : State) : option State :=
  match calls with
  | [] => Some s
  | located :: rest =>
      match doValidation located s with
      | Some s' => session rest s'
      | None => None
      end
  end.

End Pending.

(** ** The command [sxml.wrapWithEl]: [XMLname] and the wrapped text

    The expression has classes above the 8-bit range, so the text is taken
    here as its sequence of UTF-16 code units. *)

Module XmlName.

#[local] Open Scope N_scope.

Definition in_range (lo hi c : N) : bool := (lo <=? c) && (c <=? hi).

Definition nameStartChar (c : N) : bool :=
  (c =? 0x5F) || in_range 0x41 0x5A c || in_range 0x61 0x7A c
  || in_range 0xC0 0xD6 c || in_range 0xD8 0xF6 c || in_range 0xF8 0x2FF c
  || in_range 0x370 0x37D c || in_range 0x37F 0x1FFF c || in_range 0x200C 0x200D c
  || in_range 0x2070 0x218F c || in_range 0x2C00 0x2FEF c || in_range 0x3001 0xD7FF c
  || in_range 0xF900 0xFDCF c || in_range 0xFDF0 0xFFFD c.

Definition nameChar (c : N) : bool :=
  nameStartChar c || (c =? 0x2D) || (c =? 0x2E) || in_range 0x30 0x39 c
  || (c =? 0xB7) || in_range 0x300 0x36F c || in_range 0x203F 0x2040 c.

(** [text.match(XMLname)] is not null: a name start character, then name
    characters up to the end of the text. *)
Definition XMLname (text : list N) : bool :=
  match text with
  | [] => false
  | c :: r => nameStartChar c && forallb nameChar r
  end.

(** [validateInput]: [None] is JavaScript's [null], the input is accepted. *)
Definition validateInput (text : list N) : option string :=
  if XMLname text then None else Some "Must be an XML Name".

(** The template literal of the replacement, for the name [t] and the
    selected text. *)
Definition wrapped (t selected : list N) : list N :=
  [0x3C] ++ t ++ [0x3E] ++ selected ++ [0x3C; 0x2F] ++ t ++ [0x3E].

(** The callback of [showInputBox]: the replacement made, if one is. *)
Definition wrapWithEl (t : option (list N)) (selected : list N) : option (list N) :=
  match t with
  | Some ((_ :: _) as name) => Some (wrapped name selected)
  | _ => None
  end.

End XmlName.

(** ** Sample editors *)

Module Cases.
Import SchemaLocator.

(** A platform whose paths are absolute when they start with a slash and
    whose URL parser knows the schemes http and file. *)
Definition posix : Platform :=
  {| path_root := fun p => if String.prefix "/" p then "/" else "";
     URL_protocol := fun s =>
       if String.prefix "http://" s then Some "http:"
       else if String.prefix "file://" s then Some "file:"
       else None;
     pathToFileURL := fun p => "file://" +:+ p |}.

Definition attribute (name value : string) : string :=
  name +:+ "=" +:+ Samples.quote +:+ value +:+ Samples.quote.

(** A document whose instruction gives the href attribute first. *)
Definition href_then_schematypens : Document :=
  {| getText :=
       "<?xml-model " +:+ attribute "href" "http://e.org/tei.rng" +:+ " "
       +:+ attribute "schematypens" "http://relaxng.org/ns/structure/1.0" +:+ "?><doc/>";
     uri := "file:///home/u/letter.xml";
     uri_path := "/home/u/letter.xml";
     fileName := "/home/u/letter.xml" |}.

(** A document whose instruction gives the schematypens attribute first. *)
Definition schematypens_then_href : Document :=
  {| getText :=
       "<?xml-model " +:+ attribute "schematypens" "http://relaxng.org/ns/structure/1.0"
       +:+ " " +:+ attribute "href" "http://e.org/tei.rng" +:+ "?><doc/>";
     uri := "file:///home/u/letter.xml";
     uri_path := "/home/u/letter.xml";
     fileName := "/home/u/letter.xml" |}.

(** A document with no instruction. *)
Definition no_instruction : Document :=
  {| getText := "<doc/>";
     uri := "file:///home/u/letter.tei.odd";
     uri_path := "/home/u/letter.tei.odd";
     fileName := "/home/u/letter.tei.odd" |}.

Definition settings : gmap string string := {[ "xml" := "http://e.org/default.rng" ]}.

(** A range constructor that refuses negative numbers. *)
Definition checked_Range (startLine startCharacter endLine endCharacter : Z)
    : option Vscode.Range :=
  if ((0 <=? startLine) && (0 <=? startCharacter) && (0 <=? endLine) && (0 <=? endCharacter))%Z
  then Some {| Vscode.startLine := startLine; Vscode.startCharacter := startCharacter;
               Vscode.endLine := endLine; Vscode.endCharacter := endCharacter |}
  else None.

End Cases.

(** * Properties *)

(** ** Strings and arrays *)

Module JsFacts.
Import Js.

Lemma str_chars s : str (chars s) = s.
Proof. apply string_of_list_ascii_of_string. Qed.

Lemma chars_str l : chars (str l) = l.
Proof. apply list_ascii_of_string_of_list_ascii. Qed.

Lemma chars_app a b : chars (a +:+ b) = chars a ++ chars b.
Proof. induction a as [|c a IH]; simpl; [done|]. unfold chars in *. simpl. by rewrite IH. Qed.

Lemma pop_nil {A} : pop (@nil A) = (None, []).
Proof. done. Qed.

Lemma pop_snoc {A} (l : list A) x : pop (l ++ [x]) = (Some x, l).
Proof. unfold pop. rewrite reverse_snoc. by rewrite reverse_involutive. Qed.

Lemma pop_cases {A} (l : list A) :
  (l = [] /\ pop l = (None, [])) \/ (exists l' x, l = l' ++ [x] /\ pop l = (Some x, l')).
Proof.
  destruct l as [|y l] using rev_ind; [by left|].
  right. exists l, y. split; [done|]. apply pop_snoc.
Qed.

Lemma span_all {A} (p : A -> bool) a x r :
  forallb p a = true -> p x = false -> span p (a ++ x :: r) = (a, x :: r).
Proof.
  induction a as [|y a IH]; simpl; intros Ha Hx.
  - by rewrite Hx.
  - apply andb_prop in Ha as [Hy Ha]. rewrite Hy, IH; done.
Qed.

Lemma uint_digits d : forallb is_digit (chars (NilEmpty.string_of_uint d)) = true.
Proof. induction d; simpl; try done. Qed.

Lemma decimal_digits n : forallb is_digit (chars (decimal n)) = true.
Proof. apply uint_digits. Qed.

Lemma decimal_nonempty n : chars (decimal n) <> [].
Proof.
  unfold decimal. destruct n as [|q]; simpl; [done|].
  pose proof (DecimalPos.Unsigned.to_uint_nonnil q) as Hn.
  destruct (Pos.to_uint q); simpl; try done.
Qed.

Lemma Number_decimal n : Number (decimal n) = n.
Proof. unfold Number, decimal. rewrite NilEmpty.usu. apply DecimalN.Unsigned.of_to. Qed.

End JsFacts.

(** ** The validation run *)

Module ValidationFacts.
Import Saxes Salve Vscode Validation.

Section Facts.
Context `{Automaton}.
Variable document : option TextDocument.

Lemma fire_fields p ev st :
  calls (fireEvent document p ev st) = calls st ++ [FireEvent ev] /\
  tagStack (fireEvent document p ev st) = tagStack st /\
  textBuf (fireEvent document p ev st) = textBuf st /\
  nameResolver (fireEvent document p ev st) = nameResolver st /\
  ENTITIES (fireEvent document p ev st) = ENTITIES st.
Proof.
  unfold fireEvent. destruct (Salve.fireEvent (walker st) (nameResolver st) ev) as [w [errs|]]; done.
Qed.

Lemma fire_calls p ev st : calls (fireEvent document p ev st) = calls st ++ [FireEvent ev].
Proof. apply fire_fields. Qed.

Lemma fires_fields p evs : forall st,
  let st' := fold_left (fun st ev => fireEvent document p ev st) evs st in
  calls st' = calls st ++ (FireEvent <$> evs) /\
  tagStack st' = tagStack st /\ textBuf st' = textBuf st /\
  nameResolver st' = nameResolver st /\ ENTITIES st' = ENTITIES st.
Proof.
  induction evs as [|ev evs IH]; intros st; simpl.
  - by rewrite app_nil_r.
  - destruct (IH (fireEvent document p ev st)) as (-> & -> & -> & -> & ->).
    destruct (fire_fields p ev st) as (-> & -> & -> & -> & ->).
    by rewrite <- app_assoc.
Qed.

(** The calls of a flush: one text transition when text is pending. *)
Definition flushed (buf : string) : list Call :=
  if String.eqb buf "" then [] else [FireEvent (text buf)].

Lemma flushTextBuf_fields p st :
  let st' := flushTextBuf document p st in
  calls st' = calls st ++ flushed (textBuf st) /\
  tagStack st' = tagStack st /\ textBuf st' = "" /\
  nameResolver st' = nameResolver st /\ ENTITIES st' = ENTITIES st.
Proof.
  unfold flushTextBuf, flushed. destruct (String.eqb_spec (textBuf st) "") as [Hb|Hb]; simpl.
  - by rewrite app_nil_r.
  - by destruct (fire_fields p (text (textBuf st)) st) as (-> & -> & _ & -> & ->).
Qed.

Lemma define_prefixes_fields defs : forall st,
  let st' := define_prefixes defs st in
  calls st' = calls st ++ ((fun d => DefinePrefix d.1 d.2) <$> defs) /\
  tagStack st' = tagStack st /\ textBuf st' = textBuf st /\
  ENTITIES st' = ENTITIES st /\ walker st' = walker st /\
  length (contexts (nameResolver st')) = length (contexts (nameResolver st)) /\
  tail (contexts (nameResolver st')) = tail (contexts (nameResolver st)) /\
  (contexts (nameResolver st) <> [] ->
   default_context (nameResolver st') = default_context (nameResolver st)).
Proof.
  unfold define_prefixes.
  induction defs as [|d defs IH]; intros st; simpl.
  - by rewrite app_nil_r.
  - match goal with |- context [fold_left _ defs ?s] => specialize (IH s) end.
    simpl in IH. destruct IH as (-> & -> & -> & -> & -> & -> & -> & IH). simpl.
    rewrite <- app_assoc. repeat split; try done.
    + unfold definePrefix. by destruct (contexts (nameResolver st)).
    + unfold definePrefix. by destruct (contexts (nameResolver st)).
    + intros Hne. rewrite IH.
      * unfold definePrefix. by destruct (contexts (nameResolver st)).
      * unfold definePrefix. by destruct (contexts (nameResolver st)).
Qed.

Lemma write_app tokens1 tokens2 (st : RunState) :
  write (listeners document) None (tokens1 ++ tokens2) st =
  match write (listeners document) None tokens1 st with
  | Done st' => write (listeners document) None tokens2 st'
  | Thrown p m st' => Thrown p m st'
  end.
Proof.
  revert st. induction tokens1 as [|tok tokens1 IH]; intros st; simpl; [done|].
  destruct (deliver _ _ tok st); [apply IH|done].
Qed.

End Facts.

End ValidationFacts.

(** ** The path resolver *)

Module PathResolverFacts.
Import Saxes PathResolver.

Definition sentinel : Range4 := (-1, -1, -1, -1).

Lemma forallb_reverse {A} (p : A -> bool) l : forallb p (reverse l) = forallb p l.
Proof.
  apply eq_true_iff_eq. rewrite !forallb_forall.
  split; intros Hp x Hx; apply Hp; apply list_elem_of_In;
    apply list_elem_of_In in Hx; by apply elem_of_reverse.
Qed.

Lemma chars_indexed name k :
  Js.chars (indexed name k) = Js.chars name ++ "["%char :: Js.chars (Js.decimal k) ++ ["]"%char].
Proof. unfold indexed. by rewrite !JsFacts.chars_app. Qed.

Lemma bracket_not_digit : Js.is_digit "[" = false.
Proof. reflexivity. Qed.

(** The regular expression of [processXML] reads a rendered segment back. *)
Lemma match_indexed_indexed name k :
  PathSpec.name_ok name = true ->
  match_indexed (indexed name k) = Some (name, Js.decimal k).
Proof.
  intros Hname. unfold match_indexed. rewrite chars_indexed.
  rewrite reverse_app, reverse_cons, reverse_app. simpl.
  rewrite <- (app_assoc _ ["["%char]). simpl.
  rewrite (JsFacts.span_all Js.is_digit); cycle 1.
  { rewrite forallb_reverse. apply JsFacts.decimal_digits. }
  { apply bracket_not_digit. }
  destruct (reverse (Js.chars (Js.decimal k))) as [|d ds] eqn:Hd.
  { apply (f_equal reverse) in Hd. rewrite reverse_involutive in Hd.
    by destruct (JsFacts.decimal_nonempty k). }
  rewrite forallb_reverse. unfold PathSpec.name_ok in Hname. rewrite Hname.
  rewrite <- Hd, !reverse_involutive, !JsFacts.str_chars. done.
Qed.

Lemma matchesXPath_loop_Forall2 cur xp :
  length cur = length xp ->
  matchesXPath_loop cur xp = true <-> Forall2 (fun t c => t = c \/ t = "*") xp cur.
Proof.
  revert cur. induction xp as [|x xp IH]; intros [|c cur] Hlen; simpl in *; try lia.
  - split; [constructor|done].
  - destruct (String.eqb_spec x c) as [->|Hxc]; simpl.
    + rewrite IH by lia. split; [by constructor; [left|]|by inversion 1].
    + destruct (String.eqb_spec x "*") as [->|Hstar]; simpl.
      * rewrite IH by lia. split; [by constructor; [right|]|by inversion 1].
      * split; [done|]. inversion 1 as [|? ? ? ? [?|?]]; done.
Qed.

Lemma matchesXPath_Forall2 cur xp :
  matchesXPath cur xp = true <-> Forall2 (fun t c => t = c \/ t = "*") xp cur.
Proof.
  unfold matchesXPath. destruct (Nat.eqb_spec (length cur) (length xp)) as [Hlen|Hlen]; simpl.
  - by apply matchesXPath_loop_Forall2.
  - split; [done|]. intros HF. apply Forall2_length in HF. lia.
Qed.

Lemma matchesXPath_rendered path xp :
  matchesXPath (PathSpec.rendered <$> path) xp = bool_decide (PathSpec.path_matches xp path).
Proof.
  apply eq_true_iff_eq. rewrite matchesXPath_Forall2, bool_decide_eq_true.
  unfold PathSpec.path_matches, PathSpec.segment_matches.
  by rewrite Forall2_fmap_r.
Qed.

(** *** The code against the specification's resolver *)

Definition names_ok (s : PathSpec.State) : Prop :=
  Forall (fun seg => PathSpec.name_ok (PathSpec.localName seg) = true) (PathSpec.path s) /\
  Forall (fun o => forall seg, o = Some seg -> PathSpec.name_ok (PathSpec.localName seg) = true)
         (PathSpec.closed s).

Definition last_range (xpath : list string) (s : PathSpec.State) : Range4 :=
  default sentinel
    (last (snd <$> filter (fun t => PathSpec.path_matches xpath t.1) (PathSpec.tags s))).

Record sim (xpath : list string) (c : State) (s : PathSpec.State) : Prop := {
  sim_path : currentPath c = PathSpec.rendered <$> PathSpec.path s;
  sim_starts : tagStartStack c = PathSpec.starts s;
  sim_last : lastTag c = PathSpec.rendered <$> PathSpec.first_some (PathSpec.closed s);
  sim_names : names_ok s;
  sim_found : found c = last_range xpath s
}.

Lemma first_some_ok (l : list (option PathSpec.IndexedPathSegment)) seg :
  Forall (fun o => forall seg, o = Some seg -> PathSpec.name_ok (PathSpec.localName seg) = true) l ->
  PathSpec.first_some l = Some seg -> PathSpec.name_ok (PathSpec.localName seg) = true.
Proof.
  induction 1 as [|[x|] l Hx Hl IH]; simpl; intros Hf; try done.
  - injection Hf as <-. by apply Hx.
  - by apply IH.
Qed.

Lemma next_segment_occurrence closed name :
  Forall (fun o => forall seg, o = Some seg -> PathSpec.name_ok (PathSpec.localName seg) = true) closed ->
  match mjoin (head closed), PathSpec.first_some closed with
  | None, Some s => negb (String.eqb (PathSpec.localName s) name)
  | _, _ => true
  end = true ->
  next_segment (PathSpec.rendered <$> PathSpec.first_some closed) name =
  PathSpec.rendered {| PathSpec.localName := name;
                       PathSpec.occurrenceIndex := PathSpec.occurrence (mjoin (head closed)) name |}.
Proof.
  intros Hok Hreg. unfold next_segment.
  destruct (PathSpec.first_some closed) as [seg|] eqn:Hfs; simpl.
  - pose proof (first_some_ok _ _ Hok Hfs) as Hseg.
    change (PathSpec.rendered seg) with
      (indexed (PathSpec.localName seg) (PathSpec.occurrenceIndex seg)).
    rewrite match_indexed_indexed by done.
    destruct closed as [|[x|] below]; simpl in *; try done.
    + injection Hfs as ->. rewrite JsFacts.Number_decimal.
      destruct (String.eqb_spec (PathSpec.localName seg) name) as [Heq|Hne];
        case_decide; done.
    + apply negb_true_iff in Hreg. by rewrite Hreg.
  - destruct closed as [|[x|] below]; simpl in *; done.
Qed.

Lemma last_range_snoc xpath s t tags' :
  tags' = PathSpec.tags s ++ [t] ->
  default sentinel (last (snd <$> filter (fun t => PathSpec.path_matches xpath t.1) tags')) =
  if bool_decide (PathSpec.path_matches xpath t.1) then t.2 else last_range xpath s.
Proof.
  intros ->. rewrite filter_app, fmap_app. unfold last_range.
  rewrite filter_cons, filter_nil. case_bool_decide as Hm.
  - rewrite decide_True by done. simpl. by rewrite last_snoc.
  - rewrite decide_False by done. simpl. by rewrite app_nil_r.
Qed.

Lemma sim_step xpath c s tok :
  sim xpath c s -> PathSpec.regular_here s tok.2 = true ->
  exists c', deliver (listeners xpath) (Some on_error) tok c = Done c' /\
             sim xpath c' (PathSpec.step s tok).
Proof.
  intros [Hpath Hstarts Hlast [Hnp Hnc] Hfound] Hreg.
  destruct tok as [p ev]. unfold deliver, PathSpec.step. simpl in *.
  destruct ev as [|node| |node'| | | |]; simpl;
    try (eexists; split; [reflexivity|]; by constructor).
  - (* tag-open *)
    eexists; split; [reflexivity|]. constructor; simpl; try done.
    by rewrite Hstarts.
  - (* start tag *)
    eexists; split; [reflexivity|].
    apply andb_prop in Hreg as [Hreg Hclash]. apply andb_prop in Hreg as [Hne Hname].
    unfold on_opentag. rewrite Hstarts.
    destruct (JsFacts.pop_cases (PathSpec.starts s)) as [[Hnil _]|(l & x & Hl & Hpop)].
    { by rewrite Hnil in Hne. }
    rewrite Hpop. rewrite Hlast, next_segment_occurrence by done.
    set (seg := {| PathSpec.localName := tag_name node;
                   PathSpec.occurrenceIndex := _ |}).
    assert (currentPath c ++ [PathSpec.rendered seg]
            = PathSpec.rendered <$> (PathSpec.path s ++ [seg])) as Hp'.
    { by rewrite fmap_app, Hpath. }
    constructor; simpl; try done.
    + split; simpl.
      * apply Forall_app. split; [done|]. by repeat constructor.
      * by constructor.
    + rewrite Hp', matchesXPath_rendered.
      unfold last_range at 1. simpl.
      erewrite last_range_snoc by reflexivity. simpl. by rewrite Hfound.
  - (* end tag *)
    eexists; split; [reflexivity|].
    unfold on_closetag. rewrite Hpath.
    destruct (JsFacts.pop_cases (PathSpec.path s)) as [[Hnil _]|(l & x & Hl & Hpop)].
    { unfold PathSpec.regular_here in Hreg. by rewrite Hnil in Hreg. }
    rewrite Hpop. rewrite Hl, fmap_app. simpl. rewrite JsFacts.pop_snoc.
    rewrite Hl in Hnp. apply Forall_app in Hnp as [Hnl Hnx].
    constructor; simpl; try done.
    split; simpl; [done|]. constructor.
    + intros seg [= <-]. by inversion Hnx.
    + destruct (PathSpec.closed s) as [|? [|? ?]]; simpl; try done.
      inversion Hnc as [|? ? ? Hnc']. by inversion Hnc'.
Qed.

Lemma sim_run xpath tokens : forall c s,
  sim xpath c s -> PathSpec.regular_from s tokens = true ->
  exists c', run tokens xpath c = Done c' /\
             sim xpath c' (fold_left PathSpec.step tokens s).
Proof.
  induction tokens as [|tok tokens IH]; intros c s Hsim Hreg; simpl in *.
  - by exists c.
  - apply andb_prop in Hreg as [Hhere Hrest].
    destruct (sim_step _ _ _ _ Hsim Hhere) as (c1 & Hd & Hsim1).
    unfold run. simpl. rewrite Hd. by apply IH.
Qed.

(** The paths the code tests are the indexed paths of the start tags,
    rendered. *)
Lemma sim_paths xpath tokens : forall c s,
  sim xpath c s -> PathSpec.regular_from s tokens = true ->
  exists new,
    PathSpec.tags (fold_left PathSpec.step tokens s) = PathSpec.tags s ++ new /\
    paths_tested xpath tokens c = PathSpec.rendered_path <$> new.
Proof.
  induction tokens as [|tok tokens IH]; intros c s Hsim Hreg; simpl in *.
  - exists []. by rewrite app_nil_r.
  - apply andb_prop in Hreg as [Hhere Hrest].
    destruct (sim_step _ _ _ _ Hsim Hhere) as (c1 & Hd & Hsim1).
    rewrite Hd. destruct (IH c1 _ Hsim1 Hrest) as (new & Htags & Hpaths).
    rewrite Htags, Hpaths. pose proof (sim_path _ _ _ Hsim1) as Hp1.
    rewrite (sim_starts _ _ _ Hsim).
    destruct tok as [p ev]. unfold PathSpec.step in *. simpl in *.
    destruct ev as [|node| |node'| | | |]; simpl in *;
      try (exists new; split; [done|]; by destruct (Js.pop (PathSpec.starts s)) as [[?|] ?]).
    + apply andb_prop in Hhere as [Hhere _]. apply andb_prop in Hhere as [Hne _].
      destruct (JsFacts.pop_cases (PathSpec.starts s)) as [[Hnil _]|(l & x & Hl & Hpop)].
      { by rewrite Hnil in Hne. }
      rewrite Hpop in *. simpl in *. eexists. rewrite <- app_assoc. split; [reflexivity|].
      simpl. unfold PathSpec.rendered_path at 1. simpl. by rewrite Hp1.
    + exists new. split; [|by destruct (Js.pop (PathSpec.starts s)) as [[?|] ?]].
      by destruct (Js.pop (PathSpec.path s)) as [[?|] ?].
Qed.

Lemma sim_initial xpath : sim xpath initial PathSpec.initial.
Proof. constructor; try done. split; simpl; repeat constructor. done. Qed.

End PathResolverFacts.

Module PathResolverTheorems.
Import Saxes PathResolver PathResolverFacts.

(** C1, as the code has it.  On a stream in which every start tag follows
    its tag-open event and has a name without line terminator, every end tag
    closes an open element, and no element opening without a closed sibling
    before it bears the name of the element closed last before it, the
    path stack the resolver tests at each start tag is the indexed path of
    the specification, rendered (occurrence index: the index of the sibling
    closed last at that depth plus one when the names agree, else 1; one
    such sibling per nesting depth; a tag matches when the target has as
    many segments as the rendered path and each is the rendered segment or
    the wildcard), and the resolver returns the range of the LAST matching
    tag in document order, from the position recorded at its tag-open event
    to the position at its start-tag event, and (-1, -1, -1, -1) when no tag
    matches. *)
Theorem processXML_last_match (tokens : list Token) (xpathExpression : string) :
  PathSpec.regular tokens = true ->
  paths_tested (segments xpathExpression) tokens initial =
    PathSpec.rendered_path <$> PathSpec.tags_of tokens /\
  processXML tokens xpathExpression =
    Done (default (-1, -1, -1, -1) (PathSpec.last_match (segments xpathExpression) tokens)).
Proof.
  intros Hreg. split.
  - destruct (sim_paths (segments xpathExpression) tokens initial PathSpec.initial
                (sim_initial _) Hreg) as (new & Htags & ->).
    unfold PathSpec.tags_of. by rewrite Htags.
  - unfold processXML.
    destruct (sim_run (segments xpathExpression) tokens initial PathSpec.initial
                (sim_initial _) Hreg) as (c & -> & Hsim).
    f_equal. apply (sim_found _ _ _ Hsim).
Qed.

Lemma processXML_last_match_witness :
  PathSpec.regular Samples.two_siblings = true /\
  paths_tested (segments "r[1]/a[2]") Samples.two_siblings initial =
    [ ["r[1]"]; ["r[1]"; "a[1]"]; ["r[1]"; "a[2]"] ] /\
  processXML Samples.two_siblings "r[1]/a[2]" = Done (0, 7, 0, 10).
Proof.
  split; [reflexivity|].
  exact (processXML_last_match Samples.two_siblings "r[1]/a[2]" eq_refl).
Defined.

(** C1 as stated fails: in [<r><a/><b/><a/></r>] both [a] elements have the
    indexed path [r[1]/a[1]]; the first one in document order spans columns
    3 to 6, and the resolver answers with the second one. *)
Lemma processXML_not_first_match :
  PathSpec.first_match (segments "r[1]/a[1]") Samples.interleaved = Some (0, 3, 0, 6) /\
  processXML Samples.interleaved "r[1]/a[1]" = Done (0, 11, 0, 14) /\
  processXML Samples.interleaved "r[1]/a[1]" <>
    Done (default (-1, -1, -1, -1)
            (PathSpec.first_match (segments "r[1]/a[1]") Samples.interleaved)).
Proof. repeat split; [vm_compute; reflexivity..|vm_compute; discriminate]. Qed.

(** The code keeps one [lastTag] for all depths: in
    [<r><a/><b><a/></b></r>] the inner [a], a first child, is numbered after
    the [a] closed before its parent opened, and the path [r[1]/b[1]/a[1]]
    is not found. *)
Example first_child_numbered_after_uncle :
  PathSpec.first_match (segments "r[1]/b[1]/a[1]") Samples.nested = Some (0, 10, 0, 13) /\
  processXML Samples.nested "r[1]/b[1]/a[1]" = Done (-1, -1, -1, -1) /\
  processXML Samples.nested "r[1]/b[1]/a[2]" = Done (0, 10, 0, 13) /\
  PathSpec.regular Samples.nested = false.
Proof. repeat split; vm_compute; reflexivity. Qed.

(** *** The pass never throws *)

Lemma deliver_Done xpath tok st :
  exists st', deliver (listeners xpath) (Some on_error) tok st = Done st'.
Proof. destruct tok as [p []]; simpl; eauto. Qed.

Lemma run_Done xpath tokens : forall st, exists st', run tokens xpath st = Done st'.
Proof.
  induction tokens as [|tok tokens IH]; intros st; simpl; [by eexists|].
  unfold run. simpl. destruct (deliver_Done xpath tok st) as [st' ->]. apply IH.
Qed.

Lemma run_app xpath pre post st :
  run (pre ++ post) xpath st =
  match run pre xpath st with
  | Done st' => run post xpath st'
  | Thrown p m st' => Thrown p m st'
  end.
Proof.
  revert st. induction pre as [|tok pre IH]; intros st; simpl; [done|].
  unfold run in *. simpl. destruct (deliver _ _ tok st); [apply IH|done].
Qed.

Lemma run_unmatched xpath tokens : forall st,
  Forall (fun path => matchesXPath path xpath = false) (paths_tested xpath tokens st) ->
  exists st', run tokens xpath st = Done st' /\ found st' = found st.
Proof.
  induction tokens as [|tok tokens IH]; intros st Hall; simpl in *; [by eexists|].
  unfold run. simpl.
  destruct (deliver_Done xpath tok st) as [st' Hd]. rewrite Hd in *.
  apply Forall_app in Hall as [Hhere Hrest].
  destruct (IH st' Hrest) as (st'' & Hrun & Hfound).
  exists st''. split; [done|]. rewrite Hfound.
  destruct tok as [p ev].
  destruct ev; unfold deliver in Hd; simpl in *; injection Hd as <-; try done.
  - unfold on_opentag in *.
    destruct (Js.pop (tagStartStack st)) as [[start|] rest]; simpl in *; [|done].
    inversion Hhere as [|? ? Hm _]. by rewrite Hm.
  - unfold on_closetag. by destruct (Js.pop (currentPath st)).
Qed.

(** C10.  The pass of the path resolver returns a four-component tuple for
    every stream of tokenizer events and every path expression; an error
    the tokenizer reports goes to the error listener and changes nothing;
    and when none of the tests [matchesXPath] succeeds the answer is
    (-1, -1, -1, -1). *)
Theorem processXML_never_throws :
  (forall tokens xpathExpression,
     exists r : Range4, processXML tokens xpathExpression = Done r) /\
  (forall pre p message post xpathExpression,
     processXML (pre ++ (p, Error message) :: post) xpathExpression =
     processXML (pre ++ post) xpathExpression) /\
  (forall tokens xpathExpression,
     Forall (fun path => matchesXPath path (segments xpathExpression) = false)
            (paths_tested (segments xpathExpression) tokens initial) ->
     processXML tokens xpathExpression = Done (-1, -1, -1, -1)).
Proof.
  split; [|split].
  - intros tokens e. unfold processXML.
    destruct (run_Done (segments e) tokens initial) as [st ->]. by eexists.
  - intros pre p m post e. unfold processXML. rewrite !run_app.
    destruct (run pre (segments e) initial); [|done]. done.
  - intros tokens e Hall. unfold processXML.
    destruct (run_unmatched _ _ _ Hall) as (st & -> & ->). done.
Qed.

Lemma processXML_never_throws_witness :
  Forall (fun path => matchesXPath path (segments "r[1]/b[1]") = false)
         (paths_tested (segments "r[1]/b[1]") Samples.unclosed initial) /\
  processXML Samples.unclosed "r[1]/b[1]" = Done (-1, -1, -1, -1).
Proof.
  assert (Forall (fun path => matchesXPath path (segments "r[1]/b[1]") = false)
            (paths_tested (segments "r[1]/b[1]") Samples.unclosed initial)) as Hall.
  { vm_compute. repeat constructor. }
  split; [exact Hall|].
  exact (proj2 (proj2 processXML_never_throws) Samples.unclosed "r[1]/b[1]" Hall).
Defined.

End PathResolverTheorems.

(** ** The validation run: diagnostics and classification *)

Module DiagnosticTheorems.
Import Saxes Salve Vscode Validation ValidationFacts.

Lemma scan_back_spec lineText n :
  match scan_back lineText n with
  | Some i => (i < n)%nat /\ String.get i lineText = Some "<"%char /\
              forall j, (i < j < n)%nat -> String.get j lineText <> Some "<"%char
  | None => forall j, (j < n)%nat -> String.get j lineText <> Some "<"%char
  end.
Proof.
  induction n as [|n IH]; simpl; [intros j; lia|].
  destruct (String.get n lineText) as [c|] eqn:Hn.
  - destruct (Ascii.eqb_spec c "<") as [->|Hc].
    + repeat split; [lia|done|intros j; lia].
    + assert (scan_back lineText n =
              match c with "<"%char => Some n | _ => scan_back lineText n end) as Heq.
      { destruct c as [[] [] [] [] [] [] [] []]; done. }
      rewrite <- Heq. destruct (scan_back lineText n) as [i|].
      * destruct IH as (Hi & Hget & Hno). repeat split; [lia|done|].
        intros j Hj. destruct (decide (j = n)) as [->|]; [congruence|]. apply Hno. lia.
      * intros j Hj. destruct (decide (j = n)) as [->|]; [congruence|]. apply IH. lia.
  - destruct (scan_back lineText n) as [i|].
    + destruct IH as (Hi & Hget & Hno). repeat split; [lia|done|].
      intros j Hj. destruct (decide (j = n)) as [->|]; [congruence|]. apply Hno. lia.
    + intros j Hj. destruct (decide (j = n)) as [->|]; [congruence|]. apply IH. lia.
Qed.

(** Where the backward scan of [fireEvent] ends: at the nearest "<" at or
    below the index [bound], or at 0 when there is none. *)
Definition tag_start_at (lineText : string) (bound start : Z) : Prop :=
  (0 <= start <= bound /\ String.get (Z.to_nat start) lineText = Some "<"%char /\
   forall j, start < j <= bound -> String.get (Z.to_nat j) lineText <> Some "<"%char)
  \/ (start = 0 /\
      forall j, 0 <= j <= bound -> String.get (Z.to_nat j) lineText <> Some "<"%char).

Lemma tag_start_spec doc p :
  let lineText := lineAt doc (line p - 1) in
  tag_start_at lineText (Z.min (column p - 1) (Z.of_nat (String.length lineText) - 1))
               (tag_start (Some doc) p).
Proof.
  unfold tag_start. simpl.
  set (lineText := lineAt doc (line p - 1)).
  set (bound := Z.min _ _).
  pose proof (scan_back_spec lineText (Z.to_nat (bound + 1))) as Hs.
  destruct (scan_back lineText (Z.to_nat (bound + 1))) as [i|].
  - destruct Hs as (Hi & Hget & Hno). left. rewrite Nat2Z.id. repeat split; try lia; [done|].
    intros j Hj. apply Hno. lia.
  - right. split; [done|]. intros j Hj. apply Hs. lia.
Qed.

Section Theorems.
Context `{Automaton}.

(** C7.  Every error the automaton reports becomes one diagnostic.  Its
    lines are both the tokenizer's current line (zero-based: [parser.line - 1]);
    its end column is the tokenizer's current column; its start column is
    the index of the nearest "<" of the current line's text at or before
    the character that precedes the current column (and inside the line),
    or 0 when there is none. When the document is not among the open ones,
    the start column is 0. *)
Theorem automaton_error_range (document : option TextDocument) (p : Position)
    (ev : WalkerEvent) (st : RunState) (w : Walker) (errs : list ValidationError) :
  Salve.fireEvent (walker st) (nameResolver st) ev = (w, Some errs) ->
  exists start : Z,
    range <$> diagnostics (fireEvent document p ev st) =
      (range <$> diagnostics st) ++
      replicate (length errs)
        {| startLine := line p - 1; startCharacter := start;
           endLine := line p - 1; endCharacter := column p |} /\
    match document with
    | Some doc =>
        let lineText := lineAt doc (line p - 1) in
        tag_start_at lineText
          (Z.min (column p - 1) (Z.of_nat (String.length lineText) - 1)) start
    | None => start = 0
    end.
Proof.
  intros Hfire. exists (tag_start document p). split.
  - unfold fireEvent. rewrite Hfire. simpl. rewrite fmap_app. f_equal.
    clear Hfire. induction errs as [|e errs IH]; simpl; [done|]. f_equal. exact IH.
  - destruct document as [doc|]; [apply tag_start_spec|done].
Qed.

(** C5, as the code has it.  When the tokenizer reports an error, nothing
    of the rest of the stream is processed, the run is classified
    [ERR_WELLFORM], ONE diagnostic is ADDED to those the automaton errors
    of the run produced before, which spans the tokenizer's current line
    from column 0 to the tokenizer's current column, and the next step is
    the status bar message, not the constraint engine. *)
Theorem tokenizer_failure (document : option TextDocument) (pre post : list Token)
    (p : Position) (m : string) (st0 st : RunState) :
  write (listeners document) None pre st0 = Done st ->
  let st' := tokenize document (pre ++ (p, Error m) :: post) st0 in
  error st' = ERR_WELLFORM /\
  diagnostics st' = diagnostics st ++
    [ {| range := {| startLine := line p - 1; startCharacter := 0;
                     endLine := line p - 1; endCharacter := column p |};
         message := m |} ] /\
  errorCount st' = errorCount st + 1 /\
  calls st' = calls st /\
  dispatch (result_of st') = StatusBar "$(error) XML is not well formed.".
Proof.
  intros Hpre. unfold tokenize. rewrite write_app, Hpre. simpl. done.
Qed.


End Theorems.

Lemma automaton_error_range_witness :
  @Salve.fireEvent Samples.sample (walker Samples.started) (nameResolver Samples.started)
     (enterStartTag "" "bad")
  = ((["doc"; "title"], ["doc"; "title"]),
     Some [ {| msg := "tag not allowed here"; names := Samples.named <$> ["doc"; "title"] |} ]) /\
  exists start_ : Z,
    range <$> diagnostics
      (fireEvent (Some Samples.the_document) (Samples.at_ 1 10) (enterStartTag "" "bad")
         Samples.started) =
      [ {| startLine := 0; startCharacter := start_; endLine := 0; endCharacter := 10 |} ] /\
    tag_start_at "<doc><bad></doc>" 9 start_.
Proof.
  split; [reflexivity|].
  exact (@automaton_error_range Samples.sample (Some Samples.the_document)
           (Samples.at_ 1 10) (enterStartTag "" "bad") Samples.started
           (["doc"; "title"], ["doc"; "title"]) _ eq_refl).
Defined.

Lemma tokenizer_failure_witness :
  let document := Some Samples.the_document in
  let pre := take 2 Samples.bad_unclosed in
  let st := tokenize document pre Samples.started in
  let st' := tokenize document Samples.bad_unclosed Samples.started in
  write (listeners document) None pre Samples.started = Done st /\
  (error st' = ERR_WELLFORM /\
   diagnostics st' = diagnostics st ++
     [ {| range := {| startLine := 0; startCharacter := 0; endLine := 0; endCharacter := 16 |};
          message := "unexpected close tag" |} ] /\
   errorCount st' = errorCount st + 1 /\
   calls st' = calls st /\
   dispatch (result_of st') = StatusBar "$(error) XML is not well formed.").
Proof.
  split; [reflexivity|].
  exact (@tokenizer_failure Samples.sample (Some Samples.the_document)
           (take 2 Samples.bad_unclosed) (drop 3 Samples.bad_unclosed)
           (Samples.at_ 1 16) "unexpected close tag" Samples.started
           _ eq_refl).
Defined.

(** C5 as stated fails: in the run of [<doc><bad></doc>] the tokenizer
    fails at line 1, column 16; two diagnostics are reported, and the one of
    the tokenizer spans columns 0 to 16. *)
Lemma tokenizer_failure_range_not_single_column :
  (fmap range) <$> (result_diagnostics <$> resolved
     (@doValidation Samples.sample "file:///tei.rng" Samples.bad_unclosed "file:///doc.xml"
        (Some Samples.the_document) Samples.no_world).1.2) =
  Some [ {| startLine := 0; startCharacter := 5; endLine := 0; endCharacter := 10 |};
         {| startLine := 0; startCharacter := 0; endLine := 0; endCharacter := 16 |} ].
Proof. vm_compute. reflexivity. Qed.


End DiagnosticTheorems.

(** ** The grammar store *)

Module GrammarStoreTheorems.
Import Saxes Salve Vscode Validation.

Section Theorems.
Context `{Automaton}.





End Theorems.

#[local] Existing Instance Samples.sample.


End GrammarStoreTheorems.

(** ** The validation run: start tags *)

Module StartTagTheorems.
Import Saxes Salve Vscode Validation ValidationFacts.

(** An attribute, under the key it has in [node.attributes], is a namespace
    declaration when the key is [xmlns] or its prefix is [xmlns]. *)
Definition is_declaration (na : string * SaxesAttributeNS) : Prop :=
  na.1 = "xmlns" \/ attr_prefix na.2 = "xmlns".

#[local] Instance is_declaration_dec na : Decision (is_declaration na).
Proof. unfold is_declaration. apply _. Defined.

(** The prefix a declaration defines and its URI. *)
Definition definition_of (na : string * SaxesAttributeNS) : string * string :=
  (if decide (na.1 = "xmlns") then "" else attr_local na.2, attr_value na.2).

(** The two transitions of an ordinary attribute. *)
Definition transitions_of (na : string * SaxesAttributeNS) : list WalkerEvent :=
  [attributeName (attr_uri na.2) (attr_local na.2); attributeValue (attr_value na.2)].

Definition pairs (attributes : gmap string SaxesAttributeNS) (names : list string)
    : list (string * SaxesAttributeNS) :=
  omap (fun n => (fun a => (n, a)) <$> attributes !! n) names.

Lemma partition_attributes_pairs attributes names :
  partition_attributes attributes names =
  (definition_of <$> filter is_declaration (pairs attributes names),
   filter (fun na => ~ is_declaration na) (pairs attributes names) ≫= transitions_of).
Proof.
  induction names as [|n names IH]; simpl; [done|]. rewrite IH. clear IH.
  destruct (attributes !! n) as [a|] eqn:Ha; simpl; [|done].
  rewrite !filter_cons.
  destruct (decide (is_declaration (n, a))) as [Hd|Hd];
    destruct (decide (~ is_declaration (n, a))) as [Hd'|Hd']; try tauto;
    unfold is_declaration in Hd; simpl in Hd.
  - destruct (String.eqb_spec n "xmlns") as [Hn|Hn].
    + unfold definition_of. simpl. by rewrite decide_True.
    + destruct (String.eqb_spec (attr_prefix a) "xmlns") as [Hp|Hp]; [|tauto].
      unfold definition_of. simpl. by rewrite decide_False.
  - destruct (String.eqb_spec n "xmlns") as [Hn|Hn]; [tauto|].
    destruct (String.eqb_spec (attr_prefix a) "xmlns") as [Hp|Hp]; [tauto|]. done.
Qed.

Lemma sorted_names_spec node :
  StronglySorted String.le (sorted_names node) /\
  NoDup (sorted_names node) /\
  forall n, n ∈ sorted_names node <-> is_Some (tag_attributes node !! n).
Proof.
  unfold sorted_names. split; [|split].
  - apply StronglySorted_merge_sort; apply _.
  - rewrite merge_sort_Permutation. apply NoDup_fst_map_to_list.
  - intros n. rewrite merge_sort_Permutation, list_elem_of_fmap. split.
    + intros ([n' a] & -> & Hin). apply elem_of_map_to_list in Hin. by eexists.
    + intros [a Ha]. exists (n, a). split; [done|]. by apply elem_of_map_to_list.
Qed.

Lemma pairs_spec (attributes : gmap string SaxesAttributeNS) names :
  (forall n, n ∈ names -> is_Some (attributes !! n)) ->
  (pairs attributes names).*1 = names /\
  forall na, na ∈ pairs attributes names <-> na.1 ∈ names /\ attributes !! na.1 = Some na.2.
Proof.
  intros Hall. split.
  - induction names as [|n names IH]; simpl; [done|].
    destruct (Hall n) as [a Ha]; [by left|]. unfold pairs in *. simpl. rewrite Ha. simpl.
    f_equal. apply IH. intros n' Hn'. apply Hall. by right.
  - intros [n a]. unfold pairs. rewrite list_elem_of_omap. simpl. split.
    + intros (n' & Hin & Hl). destruct (attributes !! n') as [a'|] eqn:Ha'; simpl in Hl; [|done].
      injection Hl as -> ->. done.
    + intros [Hin Ha]. exists n. by rewrite Ha.
Qed.

Lemma filter_fst_sorted {B} (R : relation string) (P : string * B -> Prop)
    `{!forall x, Decision (P x)} (l : list (string * B)) :
  StronglySorted R l.*1 -> NoDup l.*1 ->
  StronglySorted R (filter P l).*1 /\ NoDup (filter P l).*1.
Proof.
  induction l as [|x l IH]; simpl; intros Hs Hn; [by split; constructor|].
  apply StronglySorted_inv in Hs as [Hs Hx]. apply NoDup_cons in Hn as [Hxl Hn].
  destruct (IH Hs Hn) as [IHs IHn]. rewrite filter_cons. case_decide; [|done].
  simpl. split.
  - constructor; [done|]. apply Forall_forall. intros y Hy.
    rewrite Forall_forall in Hx. apply Hx.
    apply list_elem_of_fmap in Hy as (z & -> & Hz). apply list_elem_of_filter in Hz as [_ Hz].
    by apply list_elem_of_fmap_2.
  - apply NoDup_cons. split; [|done]. intros Hy. apply Hxl.
    apply list_elem_of_fmap in Hy as (z & -> & Hz). apply list_elem_of_filter in Hz as [_ Hz].
    by apply list_elem_of_fmap_2.
Qed.

Section Theorems.
Context `{Automaton}.
Variable document : option TextDocument.

Lemma on_opentag_calls (p : Position) (node : SaxesTag) (st : RunState) :
  let ps := pairs (tag_attributes node) (sorted_names node) in
  calls (on_opentag document p node st) =
    calls st ++ flushed (textBuf st) ++
    match filter is_declaration ps with
    | [] => []
    | ds => EnterContext ::
              ((fun na => DefinePrefix (definition_of na).1 (definition_of na).2) <$> ds)
    end ++
    [FireEvent (enterStartTag (tag_uri node) (tag_local node))] ++
    (FireEvent <$> (filter (fun na => ~ is_declaration na) ps ≫= transitions_of)) ++
    [FireEvent leaveStartTag].
Proof.
  intros ps. unfold on_opentag. rewrite partition_attributes_pairs. fold ps.
  destruct (flushTextBuf_fields document p st) as (Hc & _).
  set (st1 := flushTextBuf document p st) in *.
  set (ds := filter is_declaration ps).
  set (st2 := if is_nil (definition_of <$> ds) then st1 else _).
  assert (calls st2 = calls st1 ++
            match ds with
            | [] => []
            | _ => EnterContext ::
                ((fun na => DefinePrefix (definition_of na).1 (definition_of na).2) <$> ds)
            end) as Hc2.
  { subst st2. destruct ds as [|d ds]; simpl; [by rewrite app_nil_r|].
    match goal with |- context [define_prefixes ?l ?s] =>
      destruct (define_prefixes_fields l s) as (Hd & _) end.
    simpl in Hd. rewrite Hd. rewrite <- !app_assoc. simpl.
    by rewrite <- list_fmap_compose. }
  simpl.
  match goal with |- context [fold_left _ ?evs ?s] =>
    destruct (fires_fields document p evs s) as (Hf & _) end.
  rewrite fire_calls, Hf, fire_calls, Hc2, Hc, <- !app_assoc.
  clear Hc2. subst st2 ds. by destruct (filter is_declaration ps).
Qed.

Lemma on_opentag_textBuf (p : Position) (node : SaxesTag) (st : RunState) :
  textBuf (on_opentag document p node st) = "".
Proof.
  unfold on_opentag.
  destruct (partition_attributes (tag_attributes node) (sorted_names node)) as [defs evs].
  simpl.
  match goal with |- context [fold_left _ evs ?s] =>
    destruct (fires_fields document p evs s) as (_ & _ & Hf & _) end.
  simpl in Hf.
  match goal with |- context [fireEvent document p leaveStartTag ?s] =>
    destruct (fire_fields document p leaveStartTag s) as (_ & _ & Hl & _) end.
  match goal with |- context [fireEvent document p (enterStartTag ?u ?l) ?s] =>
    destruct (fire_fields document p (enterStartTag u l) s) as (_ & _ & Hs & _) end.
  rewrite Hl, Hf, Hs.
  destruct (flushTextBuf_fields document p st) as (_ & _ & Hb & _).
  destruct (is_nil defs); [done|].
  match goal with |- context [define_prefixes ?l ?s] =>
    destruct (define_prefixes_fields l s) as (_ & _ & Hd & _) end.
  by rewrite Hd.
Qed.

(** C4.  The attributes of a start tag fall into namespace declarations
    (the key [xmlns], or the prefix [xmlns]) and ordinary attributes, each
    list in the lexicographic order of the attribute names.  After the flush
    of pending text the calls are, in this order: when there is a declaration
    at least, the push of a name scope and the definition of every declared
    prefix; the enter-start-tag transition with the tag's URI and local name;
    for each ordinary attribute in the order of the names, its name
    transition then its value transition; the leave-start-tag transition.
    The frame pushed records whether a scope was pushed. *)
Theorem start_tag_transitions (p : Position) (node : SaxesTag) (st : RunState) :
  exists declarations ordinary : list (string * SaxesAttributeNS),
    (forall na, na ∈ declarations <->
       tag_attributes node !! na.1 = Some na.2 /\ is_declaration na) /\
    (forall na, na ∈ ordinary <->
       tag_attributes node !! na.1 = Some na.2 /\ ~ is_declaration na) /\
    StronglySorted String.le declarations.*1 /\ NoDup declarations.*1 /\
    StronglySorted String.le ordinary.*1 /\ NoDup ordinary.*1 /\
    calls (on_opentag document p node st) =
      calls st ++ flushed (textBuf st) ++
      match declarations with
      | [] => []
      | _ => EnterContext ::
               ((fun na => DefinePrefix (definition_of na).1 (definition_of na).2)
                  <$> declarations)
      end ++
      [FireEvent (enterStartTag (tag_uri node) (tag_local node))] ++
      (FireEvent <$> (ordinary ≫= transitions_of)) ++
      [FireEvent leaveStartTag] /\
    tagStack (on_opentag document p node st) =
      {| uri := tag_uri node; local := tag_local node;
         hasContext := bool_decide (declarations <> []) |} :: tagStack st.
Proof.
  destruct (sorted_names_spec node) as (Hsorted & Hnodup & Hin).
  destruct (pairs_spec (tag_attributes node) (sorted_names node)) as [Hfst Hpairs].
  { intros n. apply Hin. }
  set (ps := pairs (tag_attributes node) (sorted_names node)) in *.
  exists (filter is_declaration ps), (filter (fun na => ~ is_declaration na) ps).
  assert (forall na, na ∈ ps <-> tag_attributes node !! na.1 = Some na.2) as Hps.
  { intros na. rewrite Hpairs, Hin. split; [by intros [_ ?]|]. intros Ha. split; [by eexists|done]. }
  rewrite <- Hfst in Hsorted, Hnodup.
  destruct (filter_fst_sorted String.le is_declaration ps Hsorted Hnodup) as [Hds Hdn].
  destruct (filter_fst_sorted String.le (fun na => ~ is_declaration na) ps Hsorted Hnodup)
    as [Hos Hon].
  split; [|split; [|split; [|split; [|split; [|split; [|split]]]]]]; try done.
  - intros na. rewrite list_elem_of_filter, Hps. tauto.
  - intros na. rewrite list_elem_of_filter, Hps. tauto.
  - pose proof (on_opentag_calls p node st) as Hcalls. simpl in Hcalls. fold ps in Hcalls.
    rewrite Hcalls. by destruct (filter is_declaration ps).
  - unfold on_opentag. rewrite partition_attributes_pairs. fold ps. simpl.
    set (ds := filter is_declaration ps).
    match goal with |- context [fold_left _ ?evs ?s] =>
      destruct (fires_fields document p evs s) as (_ & Hf & _) end.
    destruct (fire_fields document p leaveStartTag
                (fold_left (fun st ev => fireEvent document p ev st)
                   (filter (fun na => ~ is_declaration na) ps ≫= transitions_of)
                   (fireEvent document p (enterStartTag (tag_uri node) (tag_local node))
                      (if is_nil (definition_of <$> ds) then flushTextBuf document p st
                       else define_prefixes (definition_of <$> ds)
                              (set_nameResolver
                                 (enterContext (nameResolver (flushTextBuf document p st)))
                                 EnterContext (flushTextBuf document p st))))))
      as (_ & Ht & _).
    rewrite Ht, Hf.
    destruct (fire_fields document p (enterStartTag (tag_uri node) (tag_local node))
                (if is_nil (definition_of <$> ds) then flushTextBuf document p st
                 else define_prefixes (definition_of <$> ds)
                        (set_nameResolver
                           (enterContext (nameResolver (flushTextBuf document p st)))
                           EnterContext (flushTextBuf document p st))))
      as (_ & Ht2 & _).
    rewrite Ht2.
    destruct (flushTextBuf_fields document p st) as (_ & Hts & _).
    f_equal.
    + f_equal. by destruct ds.
    + destruct ds as [|d ds]; simpl; [done|].
      match goal with |- context [define_prefixes ?l ?s] =>
        destruct (define_prefixes_fields l s) as (_ & Hd & _) end.
      simpl in Hd. by rewrite Hd.
Qed.

End Theorems.

(** The start tag [<t:title xmlns:t="urn:t" id="i" class="c">]: the scope,
    the prefix, then the transitions, [class] before [id]. *)
Example start_tag_transitions_title :
  calls (@on_opentag Samples.sample None (Samples.at_ 1 40)
           {| tag_name := "t:title"; tag_uri := "urn:t"; tag_local := "title";
              tag_attributes :=
                <["xmlns:t" := Samples.attribute "xmlns" "t" "http://www.w3.org/2000/xmlns/" "urn:t"]>
                  (<["id" := Samples.attribute "" "id" "" "i"]>
                     (<["class" := Samples.attribute "" "class" "" "c"]> ∅)) |}
           Samples.started) =
  [ EnterContext; DefinePrefix "t" "urn:t";
    FireEvent (enterStartTag "urn:t" "title");
    FireEvent (attributeName "" "class"); FireEvent (attributeValue "c");
    FireEvent (attributeName "" "id"); FireEvent (attributeValue "i");
    FireEvent leaveStartTag ].
Proof. vm_compute. reflexivity. Qed.

End StartTagTheorems.

(** ** The validation run: end tags and name scopes *)

Module EndTagTheorems.
Import Saxes Salve Vscode Validation ValidationFacts.

(** Events that neither open nor close an element, and that no listener of
    [parse] can fail on. *)
Definition is_leaf (ev : Event) : Prop :=
  match ev with
  | Text _ | OpenTagStart | Other | End => True
  | _ => False
  end.

(** Streams in which the start and end tags are paired and nested, as in
    every well-formed document; the tokenizer reports no error, and the
    internal subset of every doctype is one the scanner accepts.  The tables
    are [parser.ENTITIES] before and after the stream. *)
Inductive balanced : gmap string string -> list Token -> gmap string string -> Prop :=
| balanced_nil E : balanced E [] E
| balanced_leaf E E' p ev rest :
    is_leaf ev -> balanced E rest E' -> balanced E ((p, ev) :: rest) E'
| balanced_doctype E E1 E' p d rest :
    DoctypeScanner.scan_doctype d E = DoctypeScanner.Registered E1 ->
    balanced E1 rest E' -> balanced E ((p, Doctype d) :: rest) E'
| balanced_element E E1 E' p node body q node' rest :
    balanced E body E1 -> balanced E1 rest E' ->
    balanced E ((p, OpenTag node) :: body ++ (q, CloseTag node') :: rest) E'.

Definition is_push (c : Call) : bool := match c with EnterContext => true | _ => false end.
Definition is_pop (c : Call) : bool := match c with LeaveContext => true | _ => false end.
Definition is_text (c : Call) : bool := match c with FireEvent (text _) => true | _ => false end.

(** The numbers of scopes pushed and popped by a list of calls. *)
Definition pushes (cs : list Call) : nat := length (List.filter is_push cs).
Definition pops (cs : list Call) : nat := length (List.filter is_pop cs).

Lemma pushes_app a b : pushes (a ++ b) = (pushes a + pushes b)%nat.
Proof. unfold pushes. by rewrite List.filter_app, length_app. Qed.

Lemma pops_app a b : pops (a ++ b) = (pops a + pops b)%nat.
Proof. unfold pops. by rewrite List.filter_app, length_app. Qed.

Lemma pushes_fire evs : pushes (FireEvent <$> evs) = 0%nat.
Proof. induction evs; done. Qed.

Lemma pops_fire evs : pops (FireEvent <$> evs) = 0%nat.
Proof. induction evs; done. Qed.

Lemma pushes_define {A} (f g : A -> string) (l : list A) :
  pushes ((fun d => DefinePrefix (f d) (g d)) <$> l) = 0%nat.
Proof. induction l; done. Qed.

Lemma pops_define {A} (f g : A -> string) (l : list A) :
  pops ((fun d => DefinePrefix (f d) (g d)) <$> l) = 0%nat.
Proof. induction l; done. Qed.

Lemma pushes_flushed buf : pushes (flushed buf) = 0%nat.
Proof. unfold flushed. by destruct (String.eqb buf ""). Qed.

Lemma pops_flushed buf : pops (flushed buf) = 0%nat.
Proof. unfold flushed. by destruct (String.eqb buf ""). Qed.

Section Theorems.
Context `{Automaton}.
Variable document : option TextDocument.

(** What a start tag does to the frame stack and the name resolver. *)
Lemma on_opentag_scope p node st :
  let st' := on_opentag document p node st in
  exists frame new,
    tagStack st' = frame :: tagStack st /\
    ENTITIES st' = ENTITIES st /\
    calls st' = calls st ++ new /\
    pops new = 0%nat /\
    pushes new = (if hasContext frame then 1 else 0)%nat /\
    (if hasContext frame
     then leaveContext (nameResolver st') = Some (nameResolver st)
     else nameResolver st' = nameResolver st).
Proof.
  simpl. unfold on_opentag.
  destruct (partition_attributes (tag_attributes node) (sorted_names node))
    as [defs evs] eqn:Hpart.
  destruct (flushTextBuf_fields document p st) as (Hc & Ht & _ & Hr & He).
  set (st1 := flushTextBuf document p st) in *.
  set (st2 := if is_nil defs then st1 else _).
  assert (exists new2, calls st2 = calls st1 ++ new2 /\ pops new2 = 0%nat /\
            pushes new2 = (if is_nil defs then 0 else 1)%nat /\
            tagStack st2 = tagStack st1 /\ ENTITIES st2 = ENTITIES st1 /\
            (if negb (is_nil defs)
             then leaveContext (nameResolver st2) = Some (nameResolver st1)
             else nameResolver st2 = nameResolver st1)) as (new2 & Hc2 & Hpop2 & Hpush2 & Ht2 & He2 & Hr2).
  { subst st2. destruct defs as [|d defs].
    - exists []. simpl. by rewrite app_nil_r.
    - cbn [is_nil negb].
      set (s0 := set_nameResolver (enterContext (nameResolver st1)) EnterContext st1).
      destruct (define_prefixes_fields (d :: defs) s0)
        as (Hd & Hdt & _ & Hde & _ & Hlen & Htl & Hdef).
      remember (define_prefixes (d :: defs) s0) as s2 eqn:Hs2. clear Hs2.
      subst s0. simpl in Hd, Hdt, Hde, Hlen, Htl, Hdef.
      eexists. rewrite Hd, <- app_assoc. split; [reflexivity|].
      rewrite Hdt, Hde. repeat split.
      + change (EnterContext :: ?l) with ([EnterContext] ++ l).
        rewrite pops_app. simpl. apply (pops_define fst snd).
      + change (EnterContext :: ?l) with ([EnterContext] ++ l).
        rewrite pushes_app. simpl. f_equal. apply (pushes_define fst snd).
      + unfold leaveContext.
        destruct (contexts (nameResolver s2)) as [|c cs] eqn:Hctx; [done|].
        simpl in Htl. subst cs. rewrite Hdef by done.
        by destruct (nameResolver st1). }
  simpl.
  match goal with |- context [fold_left _ evs ?s] =>
    destruct (fires_fields document p evs s) as (Hf & Hft & _ & Hfr & Hfe) end.
  simpl in *.
  match goal with |- context [fireEvent document p leaveStartTag ?s] =>
    destruct (fire_fields document p leaveStartTag s) as (Hl & Hlt & _ & Hlr & Hle) end.
  match goal with |- context [fireEvent document p (enterStartTag ?u ?l) ?s] =>
    destruct (fire_fields document p (enterStartTag u l) s) as (Hs & Hst & _ & Hsr & Hse) end.
  exists {| uri := tag_uri node; local := tag_local node; hasContext := negb (is_nil defs) |}.
  eexists. cbn [tagStack ENTITIES calls nameResolver set_tagStack hasContext].
  split. { by rewrite Hlt, Hft, Hst, Ht2, Ht. }
  split. { by rewrite Hle, Hfe, Hse, He2, He. }
  split. { rewrite Hl, Hf, Hs, Hc2, Hc, <- !app_assoc. reflexivity. }
  split. { rewrite !pops_app, pops_flushed, Hpop2, pops_fire. done. }
  split.
  { rewrite !pushes_app, pushes_flushed, Hpush2, pushes_fire.
    by destruct (is_nil defs). }
  rewrite Hlr, Hfr, Hsr, <- Hr. by destruct (is_nil defs).
Qed.

(** What an end tag does. *)
Lemma on_closetag_cases p st :
  match tagStack st with
  | [] =>
      exists st', on_closetag document p st = Thrown p "stack underflow" st' /\
                  calls st' = calls st ++ flushed (textBuf st) /\
                  errorCount st' = errorCount (flushTextBuf document p st) + 1
  | frame :: rest =>
      let new := flushed (textBuf st) ++ [FireEvent (endTag (uri frame) (local frame))] ++
                 (if hasContext frame then [LeaveContext] else []) in
      match (if hasContext frame then leaveContext (nameResolver st) else Some (nameResolver st)) with
      | Some r =>
          exists st', on_closetag document p st = Done st' /\
                      calls st' = calls st ++ new /\
                      tagStack st' = rest /\ nameResolver st' = r /\
                      ENTITIES st' = ENTITIES st
      | None =>
          exists st', on_closetag document p st =
                        Thrown p "trying to leave the default context" st' /\
                      calls st' = calls st ++ flushed (textBuf st) ++
                                  [FireEvent (endTag (uri frame) (local frame))]
      end
  end.
Proof.
  unfold on_closetag.
  destruct (flushTextBuf_fields document p st) as (Hc & Ht & _ & Hr & He).
  set (st1 := flushTextBuf document p st) in *. rewrite Ht.
  destruct (tagStack st) as [|frame rest].
  - eexists. split; [reflexivity|]. simpl. by rewrite Hc.
  - simpl.
    match goal with |- context [fireEvent document p ?ev ?s] =>
      destruct (fire_fields document p ev s) as (Hf & Hft & _ & Hfr & Hfe) end.
    simpl in *. rewrite <- Hr.
    destruct (hasContext frame).
    + rewrite Hfr. simpl.
      destruct (leaveContext (nameResolver st1)) as [r|].
      * eexists. split; [reflexivity|]. simpl.
        rewrite Hf, Hc, Hft, Hfe, He, <- !app_assoc. done.
      * eexists. split; [reflexivity|]. by rewrite Hf, Hc, <- !app_assoc.
    + eexists. split; [reflexivity|].
      rewrite Hf, Hc, Hft, Hfe, He, Hfr, <- !app_assoc. done.
Qed.

Lemma on_closetag_textBuf p st :
  textBuf (state_of (on_closetag document p st)) = "".
Proof.
  unfold on_closetag.
  destruct (flushTextBuf_fields document p st) as (_ & _ & Hb & _).
  set (st1 := flushTextBuf document p st) in *.
  destruct (tagStack st1) as [|f r]; [done|].
  destruct (fire_fields document p (endTag (uri f) (local f)) (set_tagStack r st1))
    as (_ & _ & Hf & _).
  set (st2 := fireEvent document p (endTag (uri f) (local f)) (set_tagStack r st1)) in *.
  destruct (hasContext f); [destruct (leaveContext (nameResolver st2))|];
    simpl; by rewrite Hf.
Qed.

Lemma leaf_fields p ev st :
  is_leaf ev ->
  exists st', listeners document p ev st = Done st' /\
              tagStack st' = tagStack st /\ nameResolver st' = nameResolver st /\
              ENTITIES st' = ENTITIES st /\
              exists new, calls st' = calls st ++ new /\ pushes new = 0%nat /\ pops new = 0%nat.
Proof.
  destruct ev; simpl; try done; intros _.
  - eexists. split; [reflexivity|]. repeat split. exists []. by rewrite app_nil_r.
  - eexists. split; [reflexivity|]. repeat split. exists []. by rewrite app_nil_r.
  - eexists. split; [reflexivity|]. unfold on_end.
    destruct (end_ (walker st) (nameResolver st)) as [w [errs|]]; simpl;
      repeat split; by exists [WalkerEnd].
  - eexists. split; [reflexivity|]. repeat split. exists []. by rewrite app_nil_r.
Qed.

Lemma deliver_leaf p ev (st : RunState) :
  is_leaf ev -> deliver (listeners document) None (p, ev) st = listeners document p ev st.
Proof. by destruct ev. Qed.

Lemma balanced_run E tokens E' :
  balanced E tokens E' ->
  forall st, ENTITIES st = E ->
  exists st', write (listeners document) None tokens st = Done st' /\
              tagStack st' = tagStack st /\ nameResolver st' = nameResolver st /\
              ENTITIES st' = E' /\
              exists new, calls st' = calls st ++ new /\ pushes new = pops new.
Proof.
  induction 1 as [E|E E' p ev rest Hleaf _ IH|E E1 E' p d rest Hscan _ IH
                 |E E1 E' p node body q node' rest _ IHbody _ IHrest]; intros st HE.
  - exists st. repeat split; try done. exists []. by rewrite app_nil_r.
  - destruct (leaf_fields p ev st Hleaf) as (st1 & Hl & Ht1 & Hr1 & He1 & new1 & Hc1 & Hpu & Hpo).
    destruct (IH st1) as (st' & Hw & Ht & Hr & He & new & Hc & Hb); [congruence|].
    exists st'. simpl. rewrite deliver_leaf, Hl by done.
    split; [done|]. rewrite Ht, Hr, Ht1, Hr1. repeat split; try done.
    exists (new1 ++ new). rewrite Hc, Hc1, <- app_assoc. split; [done|].
    rewrite pushes_app, pops_app. lia.
  - destruct (IH (set_ENTITIES E1 st)) as (st' & Hw & Ht & Hr & He & new & Hc & Hb); [done|].
    exists st'. simpl. unfold deliver. simpl. unfold on_doctype. rewrite HE, Hscan.
    split; [done|]. repeat split; try done. by exists new.
  - destruct (on_opentag_scope p node st)
      as (frame & new1 & Ht1 & He1 & Hc1 & Hpo1 & Hpu1 & Hr1).
    set (st1 := on_opentag document p node st) in *.
    destruct (IHbody st1) as (st2 & Hw2 & Ht2 & Hr2 & He2 & new2 & Hc2 & Hb2); [congruence|].
    pose proof (on_closetag_cases q st2) as Hclose. rewrite Ht2, Ht1 in Hclose.
    simpl in Hclose. rewrite Hr2 in Hclose.
    assert ((if hasContext frame then leaveContext (nameResolver st1)
             else Some (nameResolver st1)) = Some (nameResolver st)) as Hleave.
    { destruct (hasContext frame); [done|]. by rewrite Hr1. }
    rewrite Hleave in Hclose. destruct Hclose as (st3 & Hd3 & Hc3 & Ht3 & Hr3 & He3).
    destruct (IHrest st3) as (st' & Hw & Ht & Hr & He & new & Hc & Hb); [congruence|].
    exists st'. split.
    { change ((p, OpenTag node) :: body ++ (q, CloseTag node') :: rest)
        with ([(p, OpenTag node)] ++ body ++ [(q, CloseTag node')] ++ rest).
      rewrite write_app. cbn [write deliver fst snd listeners]. fold st1.
      rewrite write_app, Hw2, write_app.
      cbn [write deliver fst snd listeners]. rewrite Hd3. done. }
    rewrite Ht, Hr, Ht3, Hr3. repeat split; try done.
    eexists. rewrite Hc, Hc3, Hc2, Hc1, <- !app_assoc. split; [reflexivity|].
    rewrite !pushes_app, !pops_app, pushes_flushed, pops_flushed, Hpo1, Hpu1, Hb2, Hb.
    destruct (hasContext frame); simpl; unfold pushes, pops; simpl; lia.
Qed.

(** The frames that recorded a scope are as many as the scopes of the name
    resolver, all along a run. *)
Definition scopes_recorded (st : RunState) : Prop :=
  length (List.filter hasContext (tagStack st)) = length (contexts (nameResolver st)).

Lemma listeners_scopes_recorded p ev st st' :
  scopes_recorded st -> listeners document p ev st = Done st' -> scopes_recorded st'.
Proof.
  unfold scopes_recorded. intros Hinv.
  destruct ev as [|node|t|node|d|m| |]; simpl; try (by intros [= <-]).
  - intros [= <-].
    destruct (on_opentag_scope p node st) as (frame & new & -> & _ & _ & _ & _ & Hr).
    simpl. destruct (hasContext frame); simpl; [|by rewrite Hr].
    unfold leaveContext in Hr.
    destruct (contexts (nameResolver (on_opentag document p node st))) as [|c cs]; [done|].
    injection Hr as Hr. rewrite <- Hr in Hinv. simpl in *. lia.
  - pose proof (on_closetag_cases p st) as Hc.
    destruct (tagStack st) as [|frame rest]; simpl in *.
    { destruct Hc as (? & -> & _). done. }
    destruct (hasContext frame); simpl in *.
    + unfold leaveContext in Hc.
      destruct (contexts (nameResolver st)) as [|c cs]; [done|].
      destruct Hc as (st'' & -> & _ & Ht & Hr & _). intros [= <-].
      rewrite Ht, Hr. simpl in *. lia.
    + destruct Hc as (st'' & -> & _ & Ht & Hr & _). intros [= <-]. by rewrite Ht, Hr.
  - unfold on_doctype. destruct (DoctypeScanner.scan_doctype d (ENTITIES st)); try done.
    by intros [= <-].
  - intros [= <-]. unfold on_end.
    by destruct (end_ (walker st) (nameResolver st)) as [w [errs|]].
Qed.

Lemma write_scopes_recorded tokens : forall st st',
  scopes_recorded st -> write (listeners document) None tokens st = Done st' ->
  scopes_recorded st'.
Proof.
  induction tokens as [|[p ev] tokens IH]; intros st st' Hinv; simpl.
  - by intros [= <-].
  - destruct (deliver (listeners document) None (p, ev) st) as [st1|] eqn:Hd; [|done].
    apply IH. apply (listeners_scopes_recorded p ev st); [done|].
    by destruct ev.
Qed.

(** C6.  An end tag first flushes the pending text.  On an empty frame
    stack it then throws "stack underflow", which classifies the run
    [ERR_WELLFORM].  Otherwise it pops the frame, fires the end-tag
    transition with the URI and local name the frame recorded (whatever tag
    the tokenizer passes to the listener), and leaves a name scope exactly
    when the frame says that its start tag entered one.  On a stream with
    balanced tags the run completes, the frame stack and the name resolver
    end as they started, with as many scopes pushed as popped: the scope
    stack is empty again. *)
Theorem end_tag_balances_scopes :
  (forall tree pre st p node post,
     write (listeners document) None pre (start tree) = Done st ->
     tagStack st = [] ->
     (exists st', listeners document p (CloseTag node) st = Thrown p "stack underflow" st' /\
                  calls st' = calls st ++ flushed (textBuf st)) /\
     error (tokenize document (pre ++ (p, CloseTag node) :: post) (start tree)) = ERR_WELLFORM) /\
  (forall tree pre st p node frame rest,
     write (listeners document) None pre (start tree) = Done st ->
     tagStack st = frame :: rest ->
     exists st', listeners document p (CloseTag node) st = Done st' /\
       calls st' = calls st ++ flushed (textBuf st) ++
                   [FireEvent (endTag (uri frame) (local frame))] ++
                   (if hasContext frame then [LeaveContext] else []) /\
       tagStack st' = rest /\
       contexts (nameResolver st') =
         (if hasContext frame then tail (contexts (nameResolver st))
          else contexts (nameResolver st))) /\
  (forall tokens E' tree,
     balanced XML_ENTITIES tokens E' ->
     exists st', write (listeners document) None tokens (start tree) = Done st' /\
       tagStack st' = [] /\ contexts (nameResolver st') = [] /\
       pushes (calls st') = pops (calls st')).
Proof.
  split; [|split].
  - intros tree pre st p node post Hpre Hstack.
    pose proof (on_closetag_cases p st) as Hc. rewrite Hstack in Hc.
    destruct Hc as (st' & Hthrow & Hcalls & _). split.
    + exists st'. done.
    + unfold tokenize. rewrite write_app, Hpre. simpl. unfold deliver. simpl.
      by rewrite Hthrow.
  - intros tree pre st p node frame rest Hpre Hstack.
    assert (scopes_recorded st) as Hinv.
    { by apply (write_scopes_recorded pre (start tree)). }
    unfold scopes_recorded in Hinv.
    pose proof (on_closetag_cases p st) as Hc. rewrite Hstack in Hc. simpl in Hc.
    rewrite Hstack in Hinv. simpl in Hinv.
    destruct (hasContext frame) eqn:Hctx.
    + unfold leaveContext in Hc.
      destruct (contexts (nameResolver st)) as [|c cs] eqn:Hcs; [done|].
      destruct Hc as (st' & Hd & Hcalls & Ht & Hr & _).
      exists st'. repeat split; try done. by rewrite Hr.
    + destruct Hc as (st' & Hd & Hcalls & Ht & Hr & _).
      exists st'. repeat split; try done. by rewrite Hr.
  - intros tokens E' tree Hb.
    destruct (balanced_run _ _ _ Hb (start tree) eq_refl)
      as (st' & Hw & Ht & Hr & _ & new & Hc & Hbal).
    exists st'. rewrite Ht, Hr, Hc. done.
Qed.

End Theorems.

Lemma namespaced_balanced : balanced XML_ENTITIES Samples.namespaced XML_ENTITIES.
Proof.
  unfold Samples.namespaced.
  match goal with |- balanced _ ((?p, OpenTag ?n) :: ?t1 :: ?t2 :: ?t3 :: (?q, CloseTag ?n') :: ?r) _ =>
    apply (balanced_element _ XML_ENTITIES _ p n [t1; t2; t3] q n' r) end.
  - match goal with |- balanced _ ((?p, OpenTag ?n) :: (?q, CloseTag ?n') :: ?r) _ =>
      apply (balanced_element _ XML_ENTITIES _ p n [] q n' r) end.
    + constructor.
    + apply balanced_leaf; [done|]. constructor.
  - apply balanced_leaf; [done|]. constructor.
Qed.

Lemma end_tag_balances_scopes_witness :
  balanced XML_ENTITIES Samples.namespaced XML_ENTITIES /\
  exists st', write (listeners None) None Samples.namespaced Samples.started = Done st' /\
    tagStack st' = [] /\ contexts (nameResolver st') = [] /\
    pushes (calls st') = pops (calls st').
Proof.
  split; [exact namespaced_balanced|].
  exact (proj2 (proj2 (@end_tag_balances_scopes Samples.sample None))
           Samples.namespaced XML_ENTITIES Samples.tei namespaced_balanced).
Defined.

End EndTagTheorems.

(** ** The validation run: text *)

Module TextTheorems.
Import Saxes Salve Vscode Validation ValidationFacts StartTagTheorems EndTagTheorems.

(** Events between which text is buffered: text itself, and the events
    [parse] has no listener for. *)
Definition is_quiet (ev : Event) : Prop :=
  match ev with
  | Text _ | OpenTagStart | Other => True
  | _ => False
  end.

(** The text of a stream of events, in order. *)
Fixpoint text_of (tokens : list Token) : string :=
  match tokens with
  | [] => ""
  | (_, Text t) :: rest => t +:+ text_of rest
  | _ :: rest => text_of rest
  end.

Lemma append_assoc (a b c : string) : (a +:+ b) +:+ c = a +:+ (b +:+ c).
Proof.
  induction a as [|x a IH]; [done|].
  change (String x ((a +:+ b) +:+ c) = String x (a +:+ b +:+ c)). by rewrite IH.
Qed.

Lemma append_empty (a : string) : a +:+ "" = a.
Proof.
  induction a as [|x a IH]; [done|].
  change (String x (a +:+ "") = String x a). by rewrite IH.
Qed.

Lemma not_text_define (l : list (string * SaxesAttributeNS)) :
  Forall (fun c => is_text c = false)
    ((fun na => DefinePrefix (definition_of na).1 (definition_of na).2) <$> l).
Proof. induction l; by constructor. Qed.

Lemma not_text_transitions (l : list (string * SaxesAttributeNS)) :
  Forall (fun c => is_text c = false) (FireEvent <$> (l ≫= transitions_of)).
Proof. induction l as [|na l IH]; simpl; [constructor|]. by repeat constructor. Qed.

Section Theorems.
Context `{Automaton}.
Variable document : option TextDocument.

Lemma quiet_run run : forall st,
  Forall (fun tok : Token => is_quiet tok.2) run ->
  exists st', write (listeners document) None run st = Done st' /\
              textBuf st' = textBuf st +:+ text_of run /\
              calls st' = calls st /\ tagStack st' = tagStack st /\
              nameResolver st' = nameResolver st /\ walker st' = walker st.
Proof.
  induction run as [|[p ev] run IH]; intros st Hq; simpl.
  - exists st. by rewrite append_empty.
  - apply Forall_cons in Hq as [Hev Hq]. simpl in Hev.
    destruct ev as [|node|t|node|d|m| |]; try done; unfold deliver; simpl.
    + destruct (IH st Hq) as (st' & -> & Hrest). by exists st'.
    + destruct (IH (on_text t st) Hq) as (st' & -> & Hb & Hc & Ht & Hr & Hw).
      exists st'. simpl in *. by rewrite Hb, append_assoc.
    + destruct (IH st Hq) as (st' & -> & Hrest). by exists st'.
Qed.

(** C8, as the code has it.  The text of consecutive text events is
    buffered.  The next start tag and the next end tag first emit the
    buffered text as one text transition (none when the buffer is empty),
    emit no other text transition, and leave the buffer empty.  The end of
    the stream emits no text transition: text still buffered then stays in
    the buffer and never reaches the automaton. *)
Theorem text_flushed_before_tags (run : list Token) (st : RunState) :
  Forall (fun tok : Token => is_quiet tok.2) run ->
  let buf := textBuf st +:+ text_of run in
  (forall p node, exists rest,
     let st' := state_of (write (listeners document) None (run ++ [(p, OpenTag node)]) st) in
     calls st' = calls st ++ flushed buf ++ rest /\
     Forall (fun c => is_text c = false) rest /\ textBuf st' = "") /\
  (forall p node, exists rest,
     let st' := state_of (write (listeners document) None (run ++ [(p, CloseTag node)]) st) in
     calls st' = calls st ++ flushed buf ++ rest /\
     Forall (fun c => is_text c = false) rest /\ textBuf st' = "") /\
  (forall p, exists st',
     write (listeners document) None (run ++ [(p, End)]) st = Done st' /\
     calls st' = calls st ++ [WalkerEnd] /\ textBuf st' = buf).
Proof.
  intros Hq. simpl.
  destruct (quiet_run run st Hq) as (st1 & Hrun & Hbuf & Hcalls & Hstack & Hres & Hw).
  split; [|split].
  - intros p node. rewrite write_app, Hrun. simpl. unfold deliver. simpl.
    rewrite on_opentag_calls, on_opentag_textBuf, Hcalls, Hbuf.
    eexists. split; [reflexivity|]. split; [|done].
    apply Forall_app. split.
    { destruct (filter is_declaration _); [constructor|].
      constructor; [done|]. apply not_text_define. }
    constructor; [done|]. apply Forall_app. split; [apply not_text_transitions|].
    by constructor.
  - intros p node. rewrite write_app, Hrun. simpl. unfold deliver. simpl.
    pose proof (on_closetag_cases document p st1) as Hc.
    destruct (flushTextBuf_fields document p st1) as (_ & _ & Hflush & _).
    rewrite Hbuf, Hcalls in Hc.
    destruct (tagStack st1) as [|frame rest'].
    + pose proof (on_closetag_textBuf document p st1) as Hempty.
      destruct Hc as (st' & Hthrow & Hc' & _). rewrite Hthrow in *. simpl in *.
      exists []. rewrite app_nil_r. split; [done|]. split; [constructor|done].
    + simpl in Hc.
      pose proof (on_closetag_textBuf document p st1) as Hempty.
      destruct (if hasContext frame then leaveContext (nameResolver st1)
                else Some (nameResolver st1)) as [r|].
      * destruct Hc as (st' & Hd & Hc' & _). rewrite Hd in *. simpl in *.
        eexists. split; [exact Hc'|]. split; [|done].
        constructor; [done|]. by destruct (hasContext frame); repeat constructor.
      * destruct Hc as (st' & Hd & Hc'). rewrite Hd in *. simpl in *.
        eexists. split; [exact Hc'|]. split; [|done]. by repeat constructor.
  - intros p. rewrite write_app, Hrun. simpl. unfold deliver. simpl.
    eexists. split; [reflexivity|]. unfold on_end.
    destruct (end_ (walker st1) (nameResolver st1)) as [w [errs|]]; simpl;
      by rewrite Hcalls, Hbuf.
Qed.

End Theorems.

Lemma text_flushed_before_tags_witness :
  let run := [ (Samples.at_ 1 6, Text "a"); (Samples.at_ 1 13, Other);
               (Samples.at_ 1 14, Text "b") ] in
  Forall (fun tok : Token => is_quiet tok.2) run /\
  (forall p node, exists rest,
     let st' := state_of (write (listeners None) None
                            (run ++ [(p, CloseTag node)]) Samples.started) in
     calls st' = [] ++ [FireEvent (text "ab")] ++ rest /\
     Forall (fun c => is_text c = false) rest /\ textBuf st' = "").
Proof.
  intros run.
  assert (Forall (fun tok : Token => is_quiet tok.2) run) as Hq.
  { by repeat constructor. }
  split; [exact Hq|].
  exact (proj1 (proj2 (@text_flushed_before_tags Samples.sample None run Samples.started Hq))).
Defined.

(** C8 as stated fails: in the run of [<doc/>] followed by a line break the
    line break is buffered and the stream ends; the automaton is sent no
    text transition, and the line break is still in the buffer. *)
Lemma text_pending_at_end_not_flushed :
  let final := final_state
    (@doValidation Samples.sample "file:///tei.rng" Samples.no_title "file:///doc.xml"
       None Samples.no_world).1.2 in
  calls <$> final =
    Some [ FireEvent (enterStartTag "" "doc"); FireEvent leaveStartTag;
           FireEvent (endTag "" "doc"); WalkerEnd ] /\
  textBuf <$> final = Some (String "010" "").
Proof. vm_compute. split; reflexivity. Qed.

End TextTheorems.

(** ** The validation run: the doctype scanner *)

Module DoctypeTheorems.
Import Saxes Salve Vscode Validation ValidationFacts DoctypeScanner.





Lemma starts_with_prefix prefix r : starts_with prefix (prefix ++ r) = Some r.
Proof. induction prefix as [|x prefix IH]; simpl; [done|]. by rewrite Ascii.eqb_refl. Qed.











Lemma comment_end_first l d :
  comment_end l = Some d ->
  starts_with (Js.chars "-->") (drop d l) <> None /\
  forall i, (i < d)%nat -> starts_with (Js.chars "-->") (drop i l) = None.
Proof.
  revert d. induction l as [|c l IH]; intros d; [done|].
  cbn [comment_end].
  destruct (starts_with (Js.chars "-->") (c :: l)) as [r|] eqn:Hs.
  - intros [= <-]. split; [by rewrite drop_0, Hs|]. intros i; lia.
  - destruct (comment_end l) as [d'|] eqn:Hl; [|done]. simpl. intros [= <-].
    destruct (IH d' eq_refl) as [Hat Hbefore]. split; [done|].
    intros [|i] Hi; [done|]. apply Hbefore. lia.
Qed.









Section Theorems.
Context `{Automaton}.
Variable document : option TextDocument.


End Theorems.



End DoctypeTheorems.

(** * Further properties of the code *)

(** ** Splitting and joining *)

Module JsTextFacts.
Import Js JsText.

(** [has_sep s1 s2 l]: the separator [s1 s2] occurs in [l]. *)
Fixpoint has_sep (s1 s2 : ascii) (l : list ascii) : bool :=
  match l with
  | [] => false
  | c :: r =>
      match r with
      | c2 :: _ => (Ascii.eqb c s1 && Ascii.eqb c2 s2) || has_sep s1 s2 r
      | [] => false
      end
  end.

Lemma split2_chars_piece s1 s2 p rest : forall cur,
  s1 <> s2 -> has_sep s1 s2 p = false ->
  split2_chars s1 s2 cur (p ++ s1 :: s2 :: rest) =
  (reverse cur ++ p) :: split2_chars s1 s2 [] rest.
Proof.
  intros cur Hne. revert cur. induction p as [|c p IH]; intros cur Hp.
  - simpl. rewrite !Ascii.eqb_refl. simpl. by rewrite app_nil_r.
  - cbn [app split2_chars].
    destruct p as [|c2 p].
    + cbn [app]. destruct (Ascii.eqb_spec c s1) as [->|Hc]; simpl.
      * destruct (Ascii.eqb_spec s1 s2) as [?|_]; [done|].
        rewrite !Ascii.eqb_refl. simpl. by rewrite reverse_cons.
      * rewrite !Ascii.eqb_refl. simpl. by rewrite reverse_cons.
    + cbn [app]. cbn [has_sep] in Hp. apply orb_false_iff in Hp as [Hhere Hp].
      rewrite Hhere. specialize (IH (c :: cur) Hp). cbn [app] in IH. rewrite IH.
      by rewrite reverse_cons, <- app_assoc.
Qed.

Lemma split2_chars_last s1 s2 p : forall cur,
  has_sep s1 s2 p = false -> split2_chars s1 s2 cur p = [reverse cur ++ p].
Proof.
  induction p as [|c p IH]; intros cur Hp.
  - simpl. by rewrite app_nil_r.
  - cbn [split2_chars]. destruct p as [|c2 p].
    + by rewrite reverse_cons.
    + cbn [has_sep] in Hp. apply orb_false_iff in Hp as [Hhere Hp].
      rewrite Hhere, (IH (c :: cur) Hp). by rewrite reverse_cons, <- app_assoc.
Qed.

Lemma split_chars_piece sep p rest : forall cur,
  sep ∉ p ->
  split_chars sep cur (p ++ sep :: rest) = (reverse cur ++ p) :: split_chars sep [] rest.
Proof.
  induction p as [|c p IH]; intros cur Hp.
  - simpl. rewrite Ascii.eqb_refl. by rewrite app_nil_r.
  - simpl. apply not_elem_of_cons in Hp as [Hc Hp].
    destruct (Ascii.eqb_spec c sep) as [->|_]; [done|].
    rewrite (IH (c :: cur) Hp). by rewrite reverse_cons, <- app_assoc.
Qed.

Lemma split_chars_last sep p : forall cur,
  sep ∉ p -> split_chars sep cur p = [reverse cur ++ p].
Proof.
  induction p as [|c p IH]; intros cur Hp.
  - simpl. by rewrite app_nil_r.
  - simpl. apply not_elem_of_cons in Hp as [Hc Hp].
    destruct (Ascii.eqb_spec c sep) as [->|_]; [done|].
    rewrite (IH (c :: cur) Hp). by rewrite reverse_cons, <- app_assoc.
Qed.

Lemma chars_nil_iff s : chars s = [] <-> s = "".
Proof. destruct s; simpl; split; done. Qed.

Lemma chars_inj a b : chars a = chars b -> a = b.
Proof. intros Hab. by rewrite <- (JsFacts.str_chars a), <- (JsFacts.str_chars b), Hab. Qed.

End JsTextFacts.

(** ** [convertCustomXPath] *)

Module XPathConversionTheorems.
Import Js JsText XPathConversion JsTextFacts.

(** A step of a location as the constraint engine writes it: the
    namespace in braces, then the indexed name.  A location is a sequence of
    steps, each after the separator. *)
Definition component (s : string * string) : list ascii :=
  "{"%char :: chars s.1 ++ "}"%char :: chars s.2.

Fixpoint location_chars (steps : list (string * string)) : list ascii :=
  match steps with
  | [] => []
  | s :: rest => "/"%char :: "Q"%char :: component s ++ location_chars rest
  end.

Definition location_of (steps : list (string * string)) : string :=
  str (location_chars steps).

(** The namespace has no closing brace, the step does not contain the
    separator, and the name has no line terminator. *)
Definition step_ok (s : string * string) : Prop :=
  forallb (fun c => negb (Ascii.eqb c "}")) (chars s.1) = true /\
  has_sep "/" "Q" (component s) = false /\
  forallb (fun c => negb (is_line_terminator c)) (chars s.2) = true.

(** What a step becomes. *)
Definition converted (s : string * string) : string :=
  if decide (s.1 = "") then "{}" +:+ s.2 else s.2.

Lemma split2_components steps : forall s,
  Forall step_ok (s :: steps) ->
  split2_chars "/" "Q" [] (component s ++ location_chars steps) =
  component s :: (component <$> steps).
Proof.
  induction steps as [|s' steps IH]; intros s Hok.
  - cbn [location_chars]. rewrite app_nil_r.
    apply Forall_cons in Hok as [(_ & Hsep & _) _].
    by rewrite (split2_chars_last _ _ _ [] Hsep).
  - cbn [location_chars].
    apply Forall_cons in Hok as [(_ & Hsep & _) Hok].
    rewrite (split2_chars_piece "/" "Q" (component s) _ []) by done.
    rewrite (IH s' Hok). done.
Qed.

Lemma filter_components (l : list (string * string)) :
  filter (fun s => s ≠ "") ((str ∘ component) <$> l) = (str ∘ component) <$> l.
Proof.
  induction l as [|x l IHl]; [done|].
  cbn [fmap list_fmap]. rewrite filter_cons_True by done. by rewrite IHl.
Qed.

Lemma split2_location steps :
  Forall step_ok steps ->
  filter_Boolean (split2 "/" "Q" (location_of steps)) = (str ∘ component) <$> steps.
Proof.
  intros Hok. unfold split2, location_of. rewrite JsFacts.chars_str.
  destruct steps as [|s steps]; [done|].
  assert (split2_chars "/" "Q" [] (location_chars (s :: steps)) =
          [] :: component s :: (component <$> steps)) as ->.
  { cbn [location_chars]. rewrite <- (split2_components steps s Hok).
    exact (split2_chars_piece "/" "Q" [] _ [] ltac:(done) eq_refl). }
  unfold filter_Boolean.
  cbn [fmap list_fmap]. rewrite filter_cons_False by (intros Hne; apply Hne; reflexivity).
  rewrite <- list_fmap_compose.
  change (str (component s) :: ((str ∘ component) <$> steps))
    with ((str ∘ component) <$> (s :: steps)).
  apply filter_components.
Qed.

Lemma convert_component_step s :
  step_ok s -> convert_component (str (component s)) = converted s.
Proof.
  intros (Hns & _ & Hname). unfold convert_component, match_qualified, converted.
  rewrite JsFacts.chars_str. unfold component. simpl.
  destruct s as [ns name]. simpl in *.
  case_decide as Hempty.
  - subst ns. simpl. by rewrite JsFacts.str_chars.
  -     rewrite (JsFacts.span_all _ (chars ns) "}"%char (chars name) Hns eq_refl).
    destruct (chars ns) as [|c r] eqn:Hc.
    { by apply chars_nil_iff in Hc. }
    rewrite Hname. by rewrite JsFacts.str_chars.
Qed.

(** X1.  A location of steps [/Q{namespace}name], whose namespaces have no closing
    brace and whose steps do not contain the separator [/Q] nor a line
    terminator in the name, is converted to the names of its steps joined
    by slashes; a step whose namespace is empty keeps its braces. *)
Theorem convertCustomXPath_location (steps : list (string * string)) :
  Forall step_ok steps ->
  convertCustomXPath (location_of steps) = join "/" (converted <$> steps).
Proof.
  intros Hok. unfold convertCustomXPath. rewrite (split2_location steps Hok).
  f_equal. rewrite <- list_fmap_compose.
  apply Forall_fmap_ext_1. eapply Forall_impl; [exact Hok|].
  intros s Hs. by apply convert_component_step.
Qed.

Lemma convertCustomXPath_location_witness :
  let steps := [("http://www.tei-c.org/ns/1.0", "TEI[1]"); ("", "p[2]")] in
  Forall step_ok steps /\
  convertCustomXPath "/Q{http://www.tei-c.org/ns/1.0}TEI[1]/Q{}p[2]" = "TEI[1]/{}p[2]".
Proof.
  assert (Forall step_ok [("http://www.tei-c.org/ns/1.0", "TEI[1]"); ("", "p[2]")]) as Hok.
  { repeat (apply Forall_cons; split); [..|apply Forall_nil]; repeat split; vm_compute; reflexivity. }
  split; [exact Hok|].
  exact (convertCustomXPath_location _ Hok).
Defined.

End XPathConversionTheorems.

(** ** The target path of [processXML] *)

Module SegmentsTheorems.
Import Js JsText JsTextFacts PathResolver.

(** A segment: a text that is not empty and has no slash. *)
Definition segment_ok (s : string) : Prop :=
  s <> "" /\ forallb (fun c => negb (Ascii.eqb c "/")) (chars s) = true.

Lemma segment_no_slash s : segment_ok s -> "/"%char ∉ chars s.
Proof.
  intros [_ Hs] Hin. rewrite forallb_forall in Hs.
  apply list_elem_of_In in Hin. specialize (Hs _ Hin). done.
Qed.

Lemma chars_join s segs :
  chars (join "/" (s :: segs)) =
  chars s ++ match segs with [] => [] | _ => "/"%char :: chars (join "/" segs) end.
Proof.
  unfold join. destruct segs as [|s' segs]; simpl.
  - by rewrite app_nil_r.
  - by rewrite JsFacts.chars_app.
Qed.

Lemma split_chars_join segs : forall s,
  Forall segment_ok (s :: segs) ->
  split_chars "/" [] (chars (join "/" (s :: segs))) = chars s :: (chars <$> segs).
Proof.
  induction segs as [|s' segs IH]; intros s Hok; rewrite chars_join.
  - rewrite app_nil_r. apply Forall_cons in Hok as [Hs _].
    by rewrite (split_chars_last _ _ [] (segment_no_slash _ Hs)).
  - apply Forall_cons in Hok as [Hs Hok].
    rewrite (split_chars_piece _ _ _ [] (segment_no_slash _ Hs)).
    by rewrite (IH s' Hok).
Qed.

Lemma filter_segments segs :
  Forall segment_ok segs -> filter (fun s : string => s ≠ "") segs = segs.
Proof.
  induction 1 as [|s segs [Hs _] _ IH]; [done|].
  rewrite filter_cons_True by done. by rewrite IH.
Qed.

Lemma split_join segs :
  Forall segment_ok segs ->
  filter (fun s : string => s ≠ "") (Js.split "/" (join "/" segs)) = segs.
Proof.
  intros Hok. unfold Js.split. destruct segs as [|s segs]; [done|].
  rewrite (split_chars_join segs s Hok).
  change (chars s :: (chars <$> segs)) with (chars <$> (s :: segs)).
  rewrite <- list_fmap_compose.
  rewrite (list_fmap_ext (str ∘ chars) id (s :: segs)) by (intros; apply JsFacts.str_chars).
  rewrite list_fmap_id. by apply filter_segments.
Qed.

Lemma split_chars_trailing sep l : forall cur,
  split_chars sep cur (l ++ [sep]) = split_chars sep cur l ++ [[]].
Proof.
  induction l as [|c l IH]; intros cur; simpl.
  - by rewrite Ascii.eqb_refl.
  - destruct (Ascii.eqb c sep); by rewrite IH.
Qed.

Lemma segments_leading e : segments ("/" +:+ e) = segments e.
Proof.
  unfold segments, Js.split. simpl.
  by rewrite filter_cons_False by (intros Hne; apply Hne; reflexivity).
Qed.

Lemma segments_trailing e : segments (e +:+ "/") = segments e.
Proof.
  unfold segments, Js.split. rewrite JsFacts.chars_app.
  change (chars "/") with ["/"%char]. rewrite split_chars_trailing, fmap_app, filter_app.
  cbn [fmap list_fmap]. rewrite filter_cons_False by (intros Hne; apply Hne; reflexivity).
  by rewrite filter_nil, app_nil_r.
Qed.

(** X2.  The path expression made of segments joined by slashes is split back
    into these segments, when none of them is empty or contains a slash; a
    slash before the first segment or after the last one changes nothing. *)
Theorem segments_join (segs : list string) :
  Forall segment_ok segs ->
  segments (join "/" segs) = segs /\
  segments ("/" +:+ join "/" segs) = segs /\
  segments (join "/" segs +:+ "/") = segs.
Proof.
  intros Hok. rewrite segments_leading, segments_trailing.
  pose proof (split_join segs Hok) as Hsplit. done.
Qed.

Lemma segments_join_witness :
  Forall segment_ok ["r[1]"; "a[2]"] /\
  segments "r[1]/a[2]" = ["r[1]"; "a[2]"] /\
  segments "/r[1]/a[2]" = ["r[1]"; "a[2]"] /\
  segments "r[1]/a[2]/" = ["r[1]"; "a[2]"].
Proof.
  assert (Forall segment_ok ["r[1]"; "a[2]"]) as Hok.
  { repeat (apply Forall_cons; split); [..|apply Forall_nil]; done. }
  split; [exact Hok|]. exact (segments_join _ Hok).
Defined.

End SegmentsTheorems.

(** ** The stage of the constraint engine *)

Module SchematronTheorems.
Import Saxes Vscode PathResolver SchematronStage.
Import JsText XPathConversion XPathConversionTheorems SegmentsTheorems.

(** The four numbers [processXML] answers with for the location of an
    error. *)
Definition located (tokens : list Token) (err : SchematronError) : Range4 :=
  found (state_of (run tokens (segments (convertCustomXPath (location err))) initial)).

Lemma processXML_located tokens err :
  processXML tokens (convertCustomXPath (location err)) = Done (located tokens err).
Proof.
  unfold processXML, located.
  by destruct (PathResolverTheorems.run_Done
                 (segments (convertCustomXPath (location err))) tokens initial) as [st ->].
Qed.

Lemma processXML_regular tokens xpathExpression :
  PathSpec.regular tokens = true ->
  processXML tokens xpathExpression =
  Done (default (-1, -1, -1, -1) (PathSpec.last_match (segments xpathExpression) tokens)).
Proof.
  intros Hreg. unfold processXML.
  destruct (PathResolverFacts.sim_run (segments xpathExpression) tokens initial
              PathSpec.initial (PathResolverFacts.sim_initial _) Hreg) as (c & -> & Hsim).
  f_equal. apply (PathResolverFacts.sim_found _ _ _ Hsim).
Qed.

(** The steps of a location in a namespace each, with names that are
    segments. *)
Definition qualified_step (s : string * string) : Prop :=
  step_ok s /\ s.1 <> "" /\ segment_ok s.2.

Lemma segments_location steps :
  Forall qualified_step steps ->
  segments (convertCustomXPath (location_of steps)) = snd <$> steps.
Proof.
  intros Hq. unfold convertCustomXPath.
  rewrite (split2_location steps) by (eapply Forall_impl; [exact Hq|]; by intros s [? _]).
  rewrite <- list_fmap_compose.
  rewrite (Forall_fmap_ext_1 (convert_component ∘ (Js.str ∘ component)) snd steps); cycle 1.
  { eapply Forall_impl; [exact Hq|]. intros s (Hok & Hns & _). unfold compose.
    rewrite (convert_component_step s Hok). unfold converted. by rewrite decide_False. }
  apply split_join. apply Forall_fmap. eapply Forall_impl; [exact Hq|].
  by intros s (_ & _ & Hseg).
Qed.

Section Stage.
Variable new_Range : Z -> Z -> Z -> Z -> option Range.

(** The range of the diagnostic of an error, when the constructor makes
    one. *)
Definition range_of (tokens : list Token) (err : SchematronError) : option Range :=
  let '(startLine, startColumn, endLine, endColumn) := located tokens err in
  new_Range startLine startColumn endLine endColumn.

Definition diagnostic (r : Range) (err : SchematronError) : Diagnostic :=
  {| range := r; message := text err |}.

Lemma locate_errors_step tokens err rest acc :
  locate_errors new_Range tokens (err :: rest) acc =
  match range_of tokens err with
  | Some r => locate_errors new_Range tokens rest (acc ++ [diagnostic r err])
  | None => None
  end.
Proof.
  cbn [locate_errors]. rewrite processXML_located. unfold range_of.
  by destruct (located tokens err) as [[[a b] c] d].
Qed.

Lemma locate_errors_made tokens errors : forall ranges acc,
  Forall2 (fun err r => range_of tokens err = Some r) errors ranges ->
  locate_errors new_Range tokens errors acc = Some (acc ++ zip_with diagnostic ranges errors).
Proof.
  induction errors as [|err errors IH]; intros ranges acc Hall.
  - apply Forall2_nil_inv_l in Hall as ->. simpl. by rewrite app_nil_r.
  - apply Forall2_cons_inv_l in Hall as (r & ranges' & Hr & Hall & ->).
    rewrite locate_errors_step, Hr, (IH ranges' _ Hall). simpl. by rewrite <- app_assoc.
Qed.

Lemma locate_errors_refused tokens errors : forall acc,
  Exists (fun err => range_of tokens err = None) errors ->
  locate_errors new_Range tokens errors acc = None.
Proof.
  induction errors as [|err errors IH]; intros acc Hex.
  - by apply Exists_nil in Hex.
  - rewrite locate_errors_step. destruct (range_of tokens err) as [r|] eqn:Hr; [|done].
    apply Exists_cons in Hex as [Hex|Hex]; [congruence|]. by apply IH.
Qed.

(** X3.  The stage of the constraint engine, for a document that still
    locates a schema.  When the range constructor makes a range for every
    error, the stage leaves in the collection the diagnostics of this one
    document only: those of the validation run first, then one per error of
    the constraint engine, in the order of the errors, each with the text of
    its error.  When the constructor refuses the numbers of one error, the
    stage fails and leaves the collection empty.  In both cases the status
    bar shows the check mark exactly when the two counts of errors add up
    to zero. *)
Theorem schematron_stage (message : string) (errorCount : Z) (diagnostics : list Diagnostic)
    (tokens : list Token) (errors : option (list SchematronError))
    (schema fileText xmlURI : string) (ui : Display) :
  let result :=
    doSchematronValidation new_Range message errorCount diagnostics (Some tokens) errors
      (SchemaLocator.Found schema fileText xmlURI) ui in
  let shown := status message (totalErrors errors errorCount) in
  (forall ranges,
     Forall2 (fun err r => range_of tokens err = Some r) (default [] errors) ranges ->
     result =
       Fulfilled {| statusBarMessage := shown;
                    diagnosticCollection :=
                      {[ xmlURI := diagnostics ++
                                   zip_with diagnostic ranges (default [] errors) ]} |} /\
     Vscode.message <$> zip_with diagnostic ranges (default [] errors) =
       text <$> default [] errors) /\
  (Exists (fun err => range_of tokens err = None) (default [] errors) ->
   result = Failed {| statusBarMessage := shown; diagnosticCollection := ∅ |}) /\
  (shown = "$(check) " +:+ message <->
   Z.of_nat (length (default [] errors)) + errorCount = 0).
Proof.
  simpl. split; [|split].
  - intros ranges Hall. unfold doSchematronValidation.
    rewrite (locate_errors_made tokens _ ranges [] Hall). simpl.
    split; [by rewrite insert_empty|].
    clear -Hall. induction Hall as [|err r errs rs _ _ IH]; simpl; [done|].
    f_equal. exact IH.
  - intros Hex. unfold doSchematronValidation.
    by rewrite (locate_errors_refused tokens _ [] Hex).
  - unfold status, totalErrors. destruct errors as [es|]; simpl.
    + destruct (Z.eqb_spec (Z.of_nat (length es) + errorCount) 0) as [->|Hne]; [done|].
      split; [|done]. intros Heq. apply (f_equal Js.chars) in Heq.
      rewrite !JsFacts.chars_app in Heq. simpl in Heq. discriminate.
    + destruct (Z.eqb_spec errorCount 0) as [->|Hne]; [done|].
      split; [|done]. intros Heq. apply (f_equal Js.chars) in Heq.
      rewrite !JsFacts.chars_app in Heq. simpl in Heq. discriminate.
Qed.

(** X4.  An error whose location is written [/Q{namespace}name[i]/...],
    with a namespace at each step, is compared with the document as the path
    of the names [name[i]]: on a regular stream of events [processXML]
    answers with the range of the last start tag whose indexed path is that
    path, and with (-1, -1, -1, -1) when there is none; these are the four
    numbers the range of the diagnostic is made from. *)
Theorem schematron_error_located (tokens : list Token) (steps : list (string * string))
    (txt : string) :
  PathSpec.regular tokens = true ->
  Forall qualified_step steps ->
  let err := {| location := location_of steps; text := txt |} in
  let answer := default (-1, -1, -1, -1) (PathSpec.last_match (snd <$> steps) tokens) in
  segments (convertCustomXPath (location_of steps)) = snd <$> steps /\
  processXML tokens (convertCustomXPath (location_of steps)) = Done answer /\
  forall rest acc,
    locate_errors new_Range tokens (err :: rest) acc =
    match new_Range answer.1.1.1 answer.1.1.2 answer.1.2 answer.2 with
    | Some r => locate_errors new_Range tokens rest (acc ++ [ {| range := r; message := txt |} ])
    | None => None
    end.
Proof.
  intros Hreg Hq. simpl.
  pose proof (segments_location steps Hq) as Hsegs.
  assert (processXML tokens (convertCustomXPath (location_of steps)) =
          Done (default (-1, -1, -1, -1) (PathSpec.last_match (snd <$> steps) tokens))) as Hp.
  { by rewrite (processXML_regular _ _ Hreg), Hsegs. }
  split; [exact Hsegs|]. split; [exact Hp|].
  intros rest acc. cbn [locate_errors location text]. rewrite Hp.
  by destruct (default (-1, -1, -1, -1) (PathSpec.last_match (snd <$> steps) tokens))
    as [[[a b] c] d].
Qed.

End Stage.

(** With a constructor that refuses negative numbers, one error that
    [processXML] does not find takes every diagnostic off the screen, those
    of the validation run included. *)
Example unlocated_error_clears_collection :
  doSchematronValidation Cases.checked_Range "XML is not valid" 1
    [ {| range := {| startLine := 0; startCharacter := 5; endLine := 0; endCharacter := 10 |};
         message := "tag not allowed here" |} ]
    (Some Samples.two_siblings)
    (Some [ {| location := "/Q{urn:x}r[1]/Q{urn:x}a[2]"; text := "second a" |};
            {| location := "/Q{urn:x}r[1]/Q{urn:x}b[1]"; text := "no b" |} ])
    (SchemaLocator.Found "file:///tei.rng" "" "file:///doc.xml")
    {| statusBarMessage := ""; diagnosticCollection := ∅ |} =
  Failed {| statusBarMessage := "$(error) XML is not valid Errors: 3";
            diagnosticCollection := ∅ |}.
Proof. vm_compute. reflexivity. Qed.

Lemma schematron_stage_witness :
  let errors := [ {| location := "/Q{urn:x}r[1]/Q{urn:x}a[2]"; text := "second a" |} ] in
  let ranges := [ {| startLine := 0; startCharacter := 7; endLine := 0; endCharacter := 10 |} ] in
  Forall2 (fun err r => range_of Cases.checked_Range Samples.two_siblings err = Some r)
          errors ranges /\
  doSchematronValidation Cases.checked_Range "XML is valid." 0 [] (Some Samples.two_siblings)
    (Some errors) (SchemaLocator.Found "file:///tei.rng" "" "file:///doc.xml")
    {| statusBarMessage := ""; diagnosticCollection := ∅ |} =
  Fulfilled {| statusBarMessage := "$(error) XML is valid. Errors: 1";
               diagnosticCollection :=
                 {[ "file:///doc.xml" :=
                      [ {| range := {| startLine := 0; startCharacter := 7;
                                       endLine := 0; endCharacter := 10 |};
                           message := "second a" |} ] ]} |}.
Proof.
  assert (Forall2 (fun err r => range_of Cases.checked_Range Samples.two_siblings err = Some r)
            [ {| location := "/Q{urn:x}r[1]/Q{urn:x}a[2]"; text := "second a" |} ]
            [ {| startLine := 0; startCharacter := 7; endLine := 0; endCharacter := 10 |} ])
    as Hall.
  { repeat constructor. }
  split; [exact Hall|].
  exact (proj1 (proj1 (schematron_stage Cases.checked_Range "XML is valid." 0 []
                         Samples.two_siblings
                         (Some [ {| location := "/Q{urn:x}r[1]/Q{urn:x}a[2]";
                                    text := "second a" |} ])
                         "file:///tei.rng" "" "file:///doc.xml"
                         {| statusBarMessage := ""; diagnosticCollection := ∅ |}) _ Hall)).
Defined.

Lemma schematron_error_located_witness :
  let steps := [("urn:x", "r[1]"); ("urn:x", "a[2]")] in
  PathSpec.regular Samples.two_siblings = true /\
  Forall qualified_step steps /\
  segments (convertCustomXPath "/Q{urn:x}r[1]/Q{urn:x}a[2]") = ["r[1]"; "a[2]"] /\
  processXML Samples.two_siblings (convertCustomXPath "/Q{urn:x}r[1]/Q{urn:x}a[2]") =
    Done (0, 7, 0, 10).
Proof.
  assert (Forall qualified_step [("urn:x", "r[1]"); ("urn:x", "a[2]")]) as Hq.
  { repeat (apply Forall_cons; split); [..|apply Forall_nil];
      repeat split; try (vm_compute; reflexivity); done. }
  split; [reflexivity|]. split; [exact Hq|].
  pose proof (schematron_error_located Cases.checked_Range Samples.two_siblings _
                "second a" eq_refl Hq) as (Hsegs & Hp & _).
  split; [exact Hsegs|exact Hp].
Defined.

End SchematronTheorems.

(** ** The check without a schema *)

Module WellFormednessTheorems.
Import Saxes Salve Vscode Validation WellFormedness.

Definition is_error (tok : Token) : bool :=
  match tok.2 with Error _ => true | _ => false end.

Definition no_listener (p : Position) (ev : Event) (s : unit) : Outcome unit := Done s.

Lemma write_no_error tokens :
  forallb (fun tok => negb (is_error tok)) tokens = true ->
  write no_listener None tokens tt = Done tt.
Proof.
  induction tokens as [|[p ev] tokens IH]; simpl; [done|].
  intros Hall. apply andb_prop in Hall as [Hev Hall].
  unfold deliver. destruct ev; simpl in *; try done; by apply IH.
Qed.

Lemma write_first_error pre p m post :
  forallb (fun tok => negb (is_error tok)) pre = true ->
  write no_listener None (pre ++ (p, Error m) :: post) tt = Thrown p m tt.
Proof.
  induction pre as [|[p' ev] pre IH]; simpl; [done|].
  intros Hall. apply andb_prop in Hall as [Hev Hall].
  unfold deliver. destruct ev; simpl in *; try done; by apply IH.
Qed.


Lemma parseWithoutSchema_clean tokens :
  forallb (fun tok => negb (is_error tok)) tokens = true ->
  parseWithoutSchema tokens = (NO_ERR, []).
Proof.
  intros Hall. unfold parseWithoutSchema.
  change (fun (_ : Position) (_ : Event) (s : unit) => Done s) with no_listener.
  by rewrite (write_no_error tokens Hall).
Qed.

Lemma parseWithoutSchema_error pre p m post :
  forallb (fun tok => negb (is_error tok)) pre = true ->
  parseWithoutSchema (pre ++ (p, Error m) :: post) =
    (ERR_WELLFORM,
     [ {| range := {| startLine := line p - 1; startCharacter := 0;
                      endLine := line p - 1; endCharacter := column p |};
          message := m |} ]).
Proof.
  intros Hpre. unfold parseWithoutSchema.
  change (fun (_ : Position) (_ : Event) (s : unit) => Done s) with no_listener.
  by rewrite (write_first_error pre p m post Hpre).
Qed.

(** X5.  The check without a schema answers [NO_ERR], with no diagnostic
    and the status of a well-formed text, when the tokenizer reports no
    error; otherwise it answers [ERR_WELLFORM] with one diagnostic, for the
    FIRST error the tokenizer reports: its message, on the line of the
    tokenizer, from column 0 to the column of the tokenizer. *)
Theorem parseWithoutSchema_first_error :
  (forall tokens,
     forallb (fun tok => negb (is_error tok)) tokens = true ->
     parseWithoutSchema tokens = (NO_ERR, []) /\
     WellFormedness.doValidation (Some tokens) = Some ("$(check) XML is well formed.", [])) /\
  (forall pre p m post,
     forallb (fun tok => negb (is_error tok)) pre = true ->
     let shown :=
       [ {| range := {| startLine := line p - 1; startCharacter := 0;
                        endLine := line p - 1; endCharacter := column p |};
            message := m |} ] in
     parseWithoutSchema (pre ++ (p, Error m) :: post) = (ERR_WELLFORM, shown) /\
     WellFormedness.doValidation (Some (pre ++ (p, Error m) :: post)) =
       Some ("$(error) XML is not well formed.", shown)).
Proof.
  split.
  - intros tokens Hall. unfold WellFormedness.doValidation.
    by rewrite (parseWithoutSchema_clean tokens Hall).
  - intros pre p m post Hpre. unfold WellFormedness.doValidation.
    by rewrite (parseWithoutSchema_error pre p m post Hpre).
Qed.

Lemma parseWithoutSchema_first_error_witness :
  let shown :=
    [ {| range := {| startLine := 0; startCharacter := 0; endLine := 0; endCharacter := 16 |};
         message := "unexpected close tag" |} ] in
  forallb (fun tok => negb (is_error tok)) (take 2 Samples.bad_unclosed) = true /\
  parseWithoutSchema Samples.bad_unclosed = (ERR_WELLFORM, shown) /\
  WellFormedness.doValidation (Some Samples.bad_unclosed) =
    Some ("$(error) XML is not well formed.", shown).
Proof.
  split; [reflexivity|].
  exact (proj2 parseWithoutSchema_first_error (take 2 Samples.bad_unclosed)
           (Samples.at_ 1 16) "unexpected close tag" (drop 3 Samples.bad_unclosed) eq_refl).
Defined.

Section Theorems.
Context `{Automaton}.
Variable document : option TextDocument.



End Theorems.


End WellFormednessTheorems.

(** ** Invariants of the validation run *)

Module RunInvariants.
Import Saxes Salve Vscode Validation ValidationFacts DoctypeScanner.

Section Invariants.
Context `{Automaton}.
Variable document : option TextDocument.

(** Every diagnostic was counted. *)
Definition counted (st : RunState) : Prop :=
  Z.of_nat (length (diagnostics st)) <= errorCount st.

(** A run that reported nothing counted nothing. *)
Definition settled (st : RunState) : Prop :=
  counted st /\ 0 <= errorCount st /\ (error st = NO_ERR -> errorCount st = 0).

Lemma fireEvent_settled p ev st : settled st -> settled (fireEvent document p ev st).
Proof.
  unfold settled, counted, fireEvent. intros (Hc & Hpos & Hno).
  destruct (Salve.fireEvent (walker st) (nameResolver st) ev) as [w [errs|]]; simpl; [|done].
  rewrite length_app, length_map. repeat split; [lia|lia|done].
Qed.

Lemma fires_settled p evs : forall st,
  settled st -> settled (fold_left (fun st ev => fireEvent document p ev st) evs st).
Proof.
  induction evs as [|ev evs IH]; intros st Hs; simpl; [done|].
  apply IH. by apply fireEvent_settled.
Qed.

Lemma flushTextBuf_settled p st : settled st -> settled (flushTextBuf document p st).
Proof.
  unfold flushTextBuf. intros Hs. destruct (String.eqb (textBuf st) ""); [done|].
  by apply (fireEvent_settled p (text (textBuf st))) in Hs.
Qed.

Lemma define_prefixes_settled defs : forall st,
  settled st -> settled (define_prefixes defs st).
Proof.
  unfold define_prefixes. induction defs as [|d defs IH]; intros st Hs; simpl; [done|].
  by apply IH.
Qed.

Lemma on_opentag_settled p node st : settled st -> settled (on_opentag document p node st).
Proof.
  intros Hs. unfold on_opentag.
  destruct (partition_attributes (tag_attributes node) (sorted_names node)) as [defs evs].
  apply (flushTextBuf_settled p) in Hs.
  set (st1 := flushTextBuf document p st) in *.
  assert (settled (if is_nil defs then st1
                   else define_prefixes defs
                          (set_nameResolver (enterContext (nameResolver st1)) EnterContext st1)))
    as Hs2.
  { destruct (is_nil defs); [done|]. by apply define_prefixes_settled. }
  match type of Hs2 with settled ?s => set (st2 := s) in * end.
  apply (fireEvent_settled p (enterStartTag (tag_uri node) (tag_local node))) in Hs2.
  apply (fires_settled p evs) in Hs2.
  apply (fireEvent_settled p leaveStartTag) in Hs2.
  exact Hs2.
Qed.

Lemma on_closetag_settled p st :
  settled st ->
  match on_closetag document p st with
  | Done st' => settled st'
  | Thrown _ _ st' => counted st' /\ 0 <= errorCount st'
  end.
Proof.
  intros Hs. unfold on_closetag.
  apply (flushTextBuf_settled p) in Hs.
  set (st1 := flushTextBuf document p st) in *.
  destruct (tagStack st1) as [|f r].
  - destruct Hs as (Hc & Hpos & _). unfold counted in *. simpl.
    rewrite app_nil_r. lia.
  - assert (settled (set_tagStack r st1)) as Hs1 by done.
    apply (fireEvent_settled p (endTag (uri f) (local f))) in Hs1.
    set (st2 := fireEvent document p (endTag (uri f) (local f)) (set_tagStack r st1)) in *.
    destruct (hasContext f); [|done].
    destruct (leaveContext (nameResolver st2)); [done|].
    by destruct Hs1 as (? & ? & _).
Qed.

Lemma listeners_settled p ev st :
  settled st ->
  match listeners document p ev st with
  | Done st' => settled st'
  | Thrown _ _ st' => counted st' /\ 0 <= errorCount st'
  end.
Proof.
  intros Hs. destruct ev as [|node|t|node|d|m| |]; simpl; try done.
  - by apply on_opentag_settled.
  - by apply on_closetag_settled.
  - unfold on_doctype. destruct (scan_doctype d (ENTITIES st)); simpl.
    + done.
    + by destruct Hs as (? & ? & _).
    + destruct Hs as (Hc & Hpos & _). unfold counted in *. simpl. rewrite app_nil_r. lia.
  - unfold on_end. destruct (end_ (walker st) (nameResolver st)) as [w [errs|]]; [|done].
    destruct Hs as (Hc & Hpos & _). unfold settled, counted in *. simpl.
    rewrite app_nil_r. repeat split; [lia|lia|done].
Qed.

Lemma deliver_settled tok st :
  settled st ->
  match deliver (listeners document) None tok st with
  | Done st' => settled st'
  | Thrown _ _ st' => counted st' /\ 0 <= errorCount st'
  end.
Proof.
  intros Hs. destruct tok as [p ev]. unfold deliver. cbn [fst snd].
  destruct ev as [|node|t|node|d|m| |];
    try (match goal with
         | |- context [listeners document p ?e st] => exact (listeners_settled p e st Hs)
         end).
  by destruct Hs as (? & ? & _).
Qed.

Lemma write_settled tokens : forall st,
  settled st ->
  match write (listeners document) None tokens st with
  | Done st' => settled st'
  | Thrown _ _ st' => counted st' /\ 0 <= errorCount st'
  end.
Proof.
  induction tokens as [|tok tokens IH]; intros st Hs; simpl; [done|].
  pose proof (deliver_settled tok st Hs) as Hd.
  destruct (deliver (listeners document) None tok st); [by apply IH|done].
Qed.

Lemma tokenize_settled tokens st :
  settled st ->
  settled (tokenize document tokens st) /\
  (error (tokenize document tokens st) = NO_ERR -> diagnostics (tokenize document tokens st) = []).
Proof.
  intros Hs. unfold tokenize.
  pose proof (write_settled tokens st Hs) as Hw.
  destruct (write (listeners document) None tokens st) as [st'|p m st'].
  - split; [done|]. intros Hno. destruct Hw as (Hc & _ & Hz). specialize (Hz Hno).
    unfold counted in Hc. destruct (diagnostics st'); [done|]. simpl in Hc. lia.
  - destruct Hw as [Hc Hpos]. unfold settled, counted, catch in *. simpl.
    rewrite length_app. simpl. repeat split; try lia; done.
Qed.

(** X7.  Whatever the events, the run counts at least as many errors as it
    reports diagnostics, and a run that ends with the error type [NO_ERR]
    has counted no error and reported no diagnostic: the stage of the
    constraint engine that follows a valid run starts from zero errors and
    no diagnostic. *)
Theorem errors_counted (isNewSchema : bool) (rngSource : string) (tokens : list Token)
    (xmlURI : string) (w : World) :
  match resolved (parse isNewSchema rngSource tokens xmlURI document w).2 with
  | Some r =>
      Z.of_nat (length (result_diagnostics r)) <= result_errorCount r /\
      (errorType r = NO_ERR -> result_errorCount r = 0 /\ result_diagnostics r = []) /\
      (forall message n ds,
         dispatch r = Schematron message n ds ->
         message = "XML is valid." -> n = 0 /\ ds = [])
  | None => True
  end.
Proof.
  unfold parse.
  destruct (resolve_grammar isNewSchema rngSource xmlURI w) as [w' [[tree|]|]]; simpl; try done.
  - assert (settled (start tree)) as Hs by (unfold settled, counted; simpl; done).
    destruct (tokenize_settled tokens (start tree) Hs) as ((Hc & Hpos & Hz) & Hd).
    split; [done|]. split; [by auto|].
    unfold dispatch, result_of. simpl.
    destruct (error (tokenize document tokens (start tree))) eqn:He;
      intros m n ds Heq Hm; try discriminate;
      injection Heq as <- <- <-; try discriminate; auto.
  - split; [lia|]. split; [done|]. unfold dispatch. simpl.
    intros m n ds [= <- <- <-] Hm. discriminate.
Qed.

(** *** The table of entities *)

Lemma scan_grows rounds : forall cleaned E E',
  scan rounds cleaned E = Registered E' -> E ⊆ E'.
Proof.
  induction rounds as [|rounds IH]; intros [|c cleaned] E E'; simpl;
    try (by intros [= <-]).
  destruct (entityRe (c :: cleaned)) as [[[name value] rest]|]; [|done].
  destruct (E !! name) eqn:Hname; [done|].
  intros Hscan. apply IH in Hscan. etrans; [|exact Hscan].
  by apply insert_subseteq.
Qed.

Lemma on_opentag_ENTITIES p node st : ENTITIES (on_opentag document p node st) = ENTITIES st.
Proof.
  destruct (EndTagTheorems.on_opentag_scope document p node st) as (f & new & _ & He & _).
  exact He.
Qed.

Lemma listeners_ENTITIES p ev st st' :
  listeners document p ev st = Done st' -> ENTITIES st ⊆ ENTITIES st'.
Proof.
  destruct ev as [|node|t|node|d|m| |]; simpl; try (by intros [= <-]).
  - intros [= <-]. by rewrite on_opentag_ENTITIES.
  - pose proof (EndTagTheorems.on_closetag_cases document p st) as Hc.
    destruct (tagStack st) as [|f r].
    + destruct Hc as (st1 & -> & _). done.
    + simpl in Hc.
      destruct (if hasContext f then leaveContext (nameResolver st) else Some (nameResolver st)).
      * destruct Hc as (st1 & -> & _ & _ & _ & He). intros [= <-]. by rewrite He.
      * destruct Hc as (st1 & -> & _). done.
  - unfold on_doctype, scan_doctype.
    destruct (scan (length (clean d)) (clean d) (ENTITIES st)) as [E'| |] eqn:Hs; try done.
    intros [= <-]. simpl. by apply scan_grows in Hs.
  - intros [= <-]. unfold on_end.
    by destruct (end_ (walker st) (nameResolver st)) as [w [errs|]].
Qed.

Lemma deliver_ENTITIES tok st st' :
  deliver (listeners document) None tok st = Done st' -> ENTITIES st ⊆ ENTITIES st'.
Proof.
  destruct tok as [p ev]. unfold deliver. cbn [fst snd].
  destruct ev as [|node|t|node|d|m| |]; try done;
    match goal with
    | |- context [listeners document p ?e st] => exact (listeners_ENTITIES p e st st')
    end.
Qed.

Lemma write_ENTITIES tokens : forall st st',
  write (listeners document) None tokens st = Done st' -> ENTITIES st ⊆ ENTITIES st'.
Proof.
  induction tokens as [|tok tokens IH]; intros st st'; simpl.
  - by intros [= <-].
  - destruct (deliver (listeners document) None tok st) as [st1|] eqn:Hd; [|done].
    intros Hw. apply IH in Hw. etrans; [|exact Hw]. by apply (deliver_ENTITIES tok).
Qed.

Lemma scan_redefining rounds cleaned E name value rest v :
  entityRe cleaned = Some (name, value, rest) -> E !! name = Some v ->
  scan (S rounds) cleaned E = Redefining name.
Proof.
  intros Hre Hin. destruct cleaned as [|c cleaned]; [done|].
  cbn [scan]. by rewrite Hre, Hin.
Qed.

(** X8.  The table of entities only grows while the run goes on, so the five
    entities it starts with are defined in every state of a run; a doctype
    whose first declaration bears the name of one of them is refused with
    the message of a redefinition, and the run is classified
    [ERR_WELLFORM]. *)
Theorem predefined_entities_kept (tree : Grammar) (pre post : list Token) (p : Position)
    (doctype name value : string) (rest : list ascii) (st : RunState) :
  write (listeners document) None pre (start tree) = Done st ->
  entityRe (clean doctype) = Some (name, value, rest) ->
  name ∈ ["amp"; "gt"; "lt"; "quot"; "apos"] ->
  XML_ENTITIES ⊆ ENTITIES st /\
  let st' := tokenize document (pre ++ (p, Doctype doctype) :: post) (start tree) in
  error st' = ERR_WELLFORM /\
  diagnostics st' = diagnostics st ++
    [ {| range := {| startLine := line p - 1; startCharacter := 0;
                     endLine := line p - 1; endCharacter := column p |};
         message := "redefining entity: " +:+ name |} ] /\
  ENTITIES st' = ENTITIES st.
Proof.
  intros Hpre Hre Hname.
  pose proof (write_ENTITIES pre _ _ Hpre) as Hsub. simpl in Hsub.
  split; [exact Hsub|].
  assert (is_Some (XML_ENTITIES !! name)) as [v0 Hv0].
  { repeat (apply elem_of_cons in Hname as [->|Hname]; [by eexists|]).
    by apply elem_of_nil in Hname. }
  assert (exists v, ENTITIES st !! name = Some v) as [v Hv].
  { pose proof (lookup_weaken _ _ _ _ Hv0 Hsub). by eexists. }
  assert (scan_doctype doctype (ENTITIES st) = Redefining name) as Hscan.
  { unfold scan_doctype. destruct (clean doctype) as [|c cleaned] eqn:Hc; [done|].
    cbn [length]. by apply (scan_redefining _ _ _ _ value rest v). }
  simpl. unfold tokenize. rewrite write_app, Hpre. simpl. unfold deliver. simpl.
  unfold on_doctype. rewrite Hscan. done.
Qed.

End Invariants.

Lemma predefined_entities_kept_witness :
  let doctype := " r [<!ENTITY amp " +:+ Samples.quote +:+ "and" +:+ Samples.quote +:+ ">]" in
  let st' := tokenize None [(Samples.at_ 1 30, Doctype doctype)] Samples.started in
  entityRe (clean doctype) = Some ("amp", "and", []) /\
  XML_ENTITIES ⊆ ENTITIES Samples.started /\
  error st' = ERR_WELLFORM /\
  diagnostics st' =
    [ {| range := {| startLine := 0; startCharacter := 0; endLine := 0; endCharacter := 30 |};
         message := "redefining entity: amp" |} ] /\
  ENTITIES st' = ENTITIES Samples.started.
Proof.
  split; [reflexivity|].
  refine (@predefined_entities_kept Samples.sample None Samples.tei [] [] (Samples.at_ 1 30)
            (" r [<!ENTITY amp " +:+ Samples.quote +:+ "and" +:+ Samples.quote +:+ ">]")
            "amp" "and" [] Samples.started eq_refl eq_refl _).
  apply elem_of_cons. by left.
Defined.

End RunInvariants.

(** ** The grammar store: what a validation leaves in it *)

Module GrammarStoreInvariants.
Import Saxes Salve Vscode Validation.

Section Invariants.
Context `{Automaton}.

Lemma lookup_schema_other schema xmlURI w other :
  other <> xmlURI ->
  grammarStore (lookup_schema schema xmlURI w).1 !! other = grammarStore w !! other.
Proof.
  intros Hne. unfold lookup_schema.
  destruct (grammarStore w !! xmlURI) as [r|] eqn:Hr.
  - rewrite Hr. simpl. case_decide; simpl; [done|].
    by rewrite lookup_insert_ne.
  - rewrite lookup_insert_eq. simpl. rewrite insert_insert_eq.
    by rewrite lookup_insert_ne.
Qed.

Lemma parse_other isNewSchema schema tokens xmlURI document w other :
  other <> xmlURI ->
  grammarStore (parse isNewSchema schema tokens xmlURI document w).1 !! other =
  grammarStore w !! other.
Proof.
  intros Hne. unfold parse, resolve_grammar.
  destruct (grammarStore w !! xmlURI) as [stored|].
  - destruct (if isNewSchema then None else grammar stored) as [g|]; simpl.
    + unfold set_grammar. simpl. by rewrite lookup_alter_ne.
    + destruct (grammarFromSource (length (compilations w)) schema) as [g|]; simpl; [|done].
      unfold set_grammar. simpl. by rewrite lookup_alter_ne.
  - destruct isNewSchema; simpl; [|done].
    by destruct (grammarFromSource (length (compilations w)) schema).
Qed.

(** X9.  A validation of one document leaves the records the store keeps
    for the other documents as they were. *)
Theorem other_documents_untouched (schema : string) (tokens : list Token)
    (xmlURI : string) (document : option TextDocument) (w : World) (other : string) :
  other <> xmlURI ->
  grammarStore (doValidation schema tokens xmlURI document w).1.1 !! other =
  grammarStore w !! other.
Proof.
  intros Hne. unfold doValidation.
  pose proof (lookup_schema_other schema xmlURI w other Hne) as Hl.
  destruct (lookup_schema schema xmlURI w) as [w1 isNew]. simpl in Hl.
  pose proof (parse_other isNew schema tokens xmlURI document w1 other Hne) as Hp.
  destruct (parse isNew schema tokens xmlURI document w1) as [w2 parsed]. simpl in *.
  by rewrite Hp.
Qed.




End Invariants.

#[local] Existing Instance Samples.sample.

Lemma other_documents_untouched_witness :
  let w := (@doValidation Samples.sample "file:///tei.rng" Samples.no_title "file:///a.xml"
              None Samples.no_world).1.1 in
  "file:///a.xml" <> "file:///b.xml" /\
  grammarStore (@doValidation Samples.sample "file:///none.rng" Samples.no_title
                  "file:///b.xml" None w).1.1 !! "file:///a.xml" =
  grammarStore w !! "file:///a.xml".
Proof.
  split; [discriminate|].
  refine (@other_documents_untouched Samples.sample "file:///none.rng" Samples.no_title
            "file:///b.xml" None _ "file:///a.xml" _).
  discriminate.
Defined.


End GrammarStoreInvariants.

(** ** The validations in progress *)

Module PendingTheorems.
Import Pending.

(** The elements at the even indices of an array (0, 2, ...) and those at
    the odd ones. *)
Fixpoint evens {A} (l : list A) : list A :=
  match l with
  | [] => []
  | x :: r => x :: match r with [] => [] | _ :: r' => evens r' end
  end.

Fixpoint odds {A} (l : list A) : list A :=
  match l with
  | [] => []
  | _ :: r => match r with [] => [] | y :: r' => y :: odds r' end
  end.

Lemma delete_middle {A} (kept : list A) x rest :
  delete (length kept) (kept ++ x :: rest) = kept ++ rest.
Proof. induction kept as [|k kept IH]; simpl; [done|]. by rewrite IH. Qed.

Lemma abort_loop_from {A} (rounds : nat) : forall (rest kept ab : list A),
  (length rest <= rounds)%nat ->
  abort_loop rounds (length kept) (kept ++ rest) ab =
  Some (kept ++ odds rest, ab ++ evens rest).
Proof.
  induction rounds as [|rounds IH]; intros rest kept ab Hlen.
  - destruct rest; [|simpl in Hlen; lia]. simpl.
    rewrite !app_nil_r, lookup_ge_None_2 by lia. done.
  - destruct rest as [|x rest].
    { cbn [abort_loop]. rewrite !app_nil_r, lookup_ge_None_2 by lia. done. }
    cbn [abort_loop]. rewrite list_lookup_middle by done. rewrite delete_middle.
    destruct rest as [|y rest].
    + rewrite app_nil_r. destruct rounds; simpl; rewrite lookup_ge_None_2 by lia;
        by rewrite app_nil_r.
    + replace (S (length kept)) with (length (kept ++ [y])) by (rewrite length_app; simpl; lia).
      replace (kept ++ y :: rest) with ((kept ++ [y]) ++ rest) by (by rewrite <- app_assoc).
      rewrite IH by (simpl in Hlen; lia).
      simpl. by rewrite <- !app_assoc.
Qed.

Lemma abort_loop_whole {A} (validations aborted : list A) :
  abort_loop (length validations) 0 validations aborted =
  Some (odds validations, aborted ++ evens validations).
Proof. exact (abort_loop_from (length validations) validations [] aborted (le_n _)). Qed.

(** X12.  The loop that aborts the validations in progress ends, whatever
    their number.  It calls [abort] on the controllers at the even indices
    of [validations], in their order, and takes them out; the controllers at
    the odd indices are neither aborted nor taken out. *)
Theorem abort_loop_alternates {A} (validations aborted : list A) :
  abort_loop (length validations) 0 validations aborted =
  Some (odds validations, aborted ++ evens validations).
Proof. apply abort_loop_whole. Qed.

(** Of four validations in progress the loop aborts the first and the
    third. *)
Example abort_loop_of_four :
  abort_loop 4 0 ["v1"; "v2"; "v3"; "v4"] [] = Some (["v2"; "v4"], ["v1"; "v3"]).
Proof. reflexivity. Qed.

(** At most one validation is in progress, and every controller created is
    aborted or in progress. *)
Definition single (s : State) : Prop :=
  (length (validations s) <= 1)%nat /\
  forall id, (id < created s)%nat -> id ∈ aborted s \/ validations s = [id].

Definition is_found (located : SchemaLocator.Located) : bool :=
  match located with SchemaLocator.Found _ _ _ => true | _ => false end.

Lemma doValidation_single located s :
  single s ->
  exists s', doValidation located s = Some s' /\ single s' /\
             created s' = (created s + if is_found located then 1 else 0)%nat /\
             validations s' = (if is_found located then [created s] else []) /\
             aborted s' = aborted s ++ validations s.
Proof.
  intros [Hlen Hall]. unfold doValidation.
  assert ((if (0 <? length (validations s))%nat
           then abort_loop (length (validations s)) 0 (validations s) (aborted s)
           else Some (validations s, aborted s)) = Some ([], aborted s ++ validations s)) as ->.
  { rewrite abort_loop_whole.
    destruct (validations s) as [|v [|v' vs]]; simpl in *; [by rewrite app_nil_r|done|lia]. }
  assert (forall id, (id < created s)%nat -> id ∈ aborted s ++ validations s) as Hdone.
  { intros id Hid. apply elem_of_app. destruct (Hall id Hid) as [?| ->]; [by left|].
    right. apply elem_of_cons. by left. }
  destruct located; simpl; eexists; (split; [reflexivity|]); simpl;
    (split; [split|repeat split; lia]); simpl; try lia.
  - intros id Hid. destruct (decide (id = created s)) as [->|Hne]; [by right|].
    left. apply Hdone. lia.
  - intros id Hid. left. by apply Hdone.
  - intros id Hid. left. by apply Hdone.
Qed.

Lemma session_single calls : forall s,
  single s ->
  exists s', session calls s = Some s' /\ single s' /\
             created s' = (created s + length (filter (fun l => is_found l = true) calls))%nat.
Proof.
  induction calls as [|located calls IH]; intros s Hs; simpl.
  - exists s. by rewrite Nat.add_0_r.
  - destruct (doValidation_single located s Hs) as (s1 & -> & Hs1 & Hc1 & _).
    destruct (IH s1 Hs1) as (s' & -> & Hs' & Hc'). exists s'. split; [done|]. split; [done|].
    rewrite Hc', Hc1. rewrite filter_cons. destruct (is_found located); simpl; lia.
Qed.

(** X13.  From a session that starts with no validation in progress, every
    call of [doValidation] ends its loop; after any number of calls at most
    one validation is in progress, one controller was created per call that
    located a schema, and every controller created before the one in
    progress has been aborted. *)
Theorem at_most_one_validation (calls : list SchemaLocator.Located) :
  exists s,
    session calls initial = Some s /\
    (length (validations s) <= 1)%nat /\
    created s = length (filter (fun l => is_found l = true) calls) /\
    forall id, (id < created s)%nat -> id ∈ aborted s \/ validations s = [id].
Proof.
  assert (single initial) as Hs by (split; simpl; [lia|intros id; lia]).
  destruct (session_single calls initial Hs) as (s & Hrun & [Hlen Hall] & Hc).
  exists s. repeat split; try done.
Qed.

End PendingTheorems.

(** ** The names [sxml.wrapWithEl] accepts *)

Module XmlNameTheorems.
Import XmlName.

#[local] Open Scope N_scope.

(** The code units of markup, of the separators of a prefix and of
    attributes, and the halves of a surrogate pair. *)
Definition plain (c : N) : Prop :=
  c <> 0x3C /\ c <> 0x3E /\ c <> 0x26 /\ c <> 0x2F /\ c <> 0x3A /\
  c <> 0x20 /\ c <> 0x09 /\ c <> 0x0A /\ c <> 0x0D /\ c <> 0x22 /\ c <> 0x27 /\ c <> 0x3D /\
  ~ (0xD800 <= c <= 0xDFFF).

Ltac ranges :=
  unfold nameChar, nameStartChar, in_range in *;
  repeat match goal with
         | H : _ || _ = true |- _ => apply orb_prop in H as [H|H]
         | H : _ && _ = true |- _ => apply andb_prop in H as [? ?]
         | H : (_ =? _) = true |- _ => apply N.eqb_eq in H
         | H : (_ <=? _) = true |- _ => apply N.leb_le in H
         end.

Lemma nameChar_plain c : nameChar c = true -> plain c.
Proof. intros Hc. unfold plain. ranges; repeat split; lia. Qed.

Lemma nameStartChar_nameChar c : nameStartChar c = true -> nameChar c = true.
Proof. intros Hc. unfold nameChar. by rewrite Hc. Qed.

Lemma nameStartChar_first c :
  nameStartChar c = true -> ~ (0x30 <= c <= 0x39) /\ c <> 0x2D /\ c <> 0x2E.
Proof. intros Hc. ranges; repeat split; lia. Qed.

(** X14.  A text the input box accepts as the name of the wrapping element
    is not empty; it has no angle bracket, ampersand, slash, colon, equals
    sign, quote, space, tabulation or line break, and no half of a
    surrogate pair; it does not start with a digit, a hyphen or a full
    stop.  The replacement is then the selected text between a start tag
    and an end tag of that name. *)
Theorem accepted_name_plain (text selected : list N) :
  validateInput text = None ->
  text <> [] /\
  Forall plain text /\
  (forall c, head text = Some c -> ~ (0x30 <= c <= 0x39) /\ c <> 0x2D /\ c <> 0x2E) /\
  wrapWithEl (Some text) selected =
    Some ([0x3C] ++ text ++ [0x3E] ++ selected ++ [0x3C; 0x2F] ++ text ++ [0x3E]).
Proof.
  unfold validateInput. destruct (XMLname text) eqn:Hname; [intros _|done].
  destruct text as [|c r]; [done|]. simpl in Hname.
  apply andb_prop in Hname as [Hc Hr].
  split; [done|]. split; [|split].
  - constructor; [by apply nameChar_plain, nameStartChar_nameChar|].
    apply Forall_forall. intros x Hx. apply nameChar_plain.
    rewrite forallb_forall in Hr. apply Hr. by apply list_elem_of_In.
  - intros c' [= <-]. by apply nameStartChar_first.
  - done.
Qed.

Lemma accepted_name_plain_witness :
  validateInput [0x70; 0x2E; 0x31] = None /\
  [0x70; 0x2E; 0x31] <> [] /\
  Forall plain [0x70; 0x2E; 0x31] /\
  (forall c, head [0x70; 0x2E; 0x31] = Some c ->
             ~ (0x30 <= c <= 0x39) /\ c <> 0x2D /\ c <> 0x2E) /\
  wrapWithEl (Some [0x70; 0x2E; 0x31]) [0x78] =
    Some [0x3C; 0x70; 0x2E; 0x31; 0x3E; 0x78; 0x3C; 0x2F; 0x70; 0x2E; 0x31; 0x3E].
Proof.
  split; [reflexivity|].
  exact (accepted_name_plain [0x70; 0x2E; 0x31] [0x78] eq_refl).
Defined.

End XmlNameTheorems.

(** ** Locating the schema *)

Module SchemaLocatorTheorems.
Import Js JsText DoctypeScanner SchemaLocator.

(** The index at which [s] occurs first in [l]. *)
Fixpoint first_at (s l : list ascii) : option nat :=
  match starts_with s l with
  | Some _ => Some 0%nat
  | None =>
      match l with
      | [] => None
      | _ :: r => S <$> first_at s r
      end
  end.

Lemma first_at_cons s c l n :
  first_at s (c :: l) = Some (S n) ->
  starts_with s (c :: l) = None /\ first_at s l = Some n.
Proof.
  cbn [first_at]. destruct (starts_with s (c :: l)); [done|].
  destruct (first_at s l); simpl; [|done]. by intros [= ->].
Qed.

Lemma first_at_none s l : first_at s l = None -> forall i, starts_with s (drop i l) = None.
Proof.
  induction l as [|c l IH]; intros Hnone i.
  - rewrite drop_nil. simpl in Hnone. by destruct (starts_with s []).
  - cbn [first_at] in Hnone. destruct (starts_with s (c :: l)) eqn:Hs; [done|].
    destruct (first_at s l) eqn:Hl; [done|].
    destruct i as [|i]; [done|]. by apply IH.
Qed.

Lemma lit_prefix {A} s (k : list ascii -> option A) rest : lit s k (s ++ rest) = k rest.
Proof. unfold lit. by rewrite DoctypeTheorems.starts_with_prefix. Qed.

Lemma lazily_here {A} (k : list ascii -> option A) l a : k l = Some a -> lazily k l = Some a.
Proof. intros Hk. destruct l; simpl; by rewrite Hk. Qed.

(** The search goes to the first occurrence of the literal, when the rest
    of the expression matches there. *)
Lemma lazily_lit_first {A} s (k : list ascii -> option A) pre rest a :
  first_at s (pre ++ s ++ rest) = Some (length pre) ->
  k rest = Some a ->
  lazily (lit s k) (pre ++ s ++ rest) = Some a.
Proof.
  intros Hfirst Hk. induction pre as [|c pre IH].
  - apply lazily_here. rewrite app_nil_l. by rewrite lit_prefix.
  - cbn [app length] in *. apply first_at_cons in Hfirst as [Hhere Hfirst].
    cbn [lazily]. unfold lit at 1. rewrite Hhere. simpl. by apply IH.
Qed.

(** Where the literal does not occur the search fails. *)
Lemma lazily_lit_none {A} s (k : list ascii -> option A) l :
  first_at s l = None -> lazily (lit s k) l = None.
Proof.
  induction l as [|c l IH]; intros Hnone.
  - simpl in *. unfold lit. by destruct (starts_with s []).
  - cbn [first_at] in Hnone. destruct (starts_with s (c :: l)) eqn:Hs; [done|].
    destruct (first_at s l) eqn:Hl; [done|].
    cbn [lazily]. unfold lit at 1. rewrite Hs. simpl. by apply IH.
Qed.

Definition constant {A} (a : A) (k : list ascii -> option A) : Prop :=
  forall l b, k l = Some b -> b = a.

(** A search whose every match has the same value. *)
Lemma lazily_constant {A} (k : list ascii -> option A) (a : A) pre l :
  constant a k -> k l = Some a ->
  lazily k (pre ++ l) = Some a.
Proof.
  intros Hconst Hk. induction pre as [|c pre IH].
  - by apply lazily_here.
  - cbn [app lazily]. destruct (k (c :: pre ++ l)) as [b|] eqn:Hb; [|exact IH].
    by rewrite (Hconst _ _ Hb).
Qed.

(** The schematypens attribute of RELAX NG as a document writes it. *)
Definition relaxng_text : list ascii :=
  relaxng_start ++ "."%char :: relaxng_middle ++ "."%char :: relaxng_end.

Lemma relaxng_matches {A} (k : list ascii -> option A) rest :
  relaxng k (relaxng_text ++ rest) = k rest.
Proof.
  unfold relaxng, relaxng_text. rewrite <- app_assoc, lit_prefix.
  cbn [app any_char]. rewrite <- app_assoc, lit_prefix.
  cbn [app any_char]. by rewrite lit_prefix.
Qed.

Lemma constant_lit {A} (a : A) s k : constant a k -> constant a (lit s k).
Proof. intros Hk l b. unfold lit. destruct (starts_with s l); simpl; [apply Hk|done]. Qed.

Lemma constant_any_char {A} (a : A) k : constant a k -> constant a (any_char k).
Proof. intros Hk [|c l] b; simpl; [done|apply Hk]. Qed.

Lemma relaxng_const {A} (a : A) : constant a (relaxng (fun _ => Some a)).
Proof.
  unfold relaxng. repeat (apply constant_lit || apply constant_any_char).
  by intros l b [= <-].
Qed.

Lemma lazily_relaxng_first {A} (k : list ascii -> option A) pre rest a :
  first_at relaxng_start (pre ++ relaxng_text ++ rest) = Some (length pre) ->
  k rest = Some a ->
  lazily (relaxng k) (pre ++ relaxng_text ++ rest) = Some a.
Proof.
  intros Hfirst Hk. unfold relaxng. unfold relaxng_text in *.
  rewrite <- (app_assoc relaxng_start) in *.
  apply (lazily_lit_first relaxng_start _ pre _ a Hfirst).
  cbn [app any_char]. rewrite <- app_assoc, lit_prefix.
  cbn [app any_char]. by rewrite lit_prefix.
Qed.

Definition is_not_dquote (c : ascii) : bool := negb (Ascii.eqb c dquote).

Lemma quoted_value {A} (k : list ascii -> list ascii -> option A) value rest :
  value <> [] -> forallb is_not_dquote value = true ->
  quoted k (value ++ dquote :: rest) = k value rest.
Proof.
  intros Hne Hv. unfold quoted.
  change (fun c => negb (Ascii.eqb c dquote)) with is_not_dquote.
  rewrite (JsFacts.span_all is_not_dquote value dquote rest Hv eq_refl).
  by destruct value.
Qed.

(** The document with an instruction whose href attribute comes first:
    [pre], the opener, [mid], the attribute with its [value], at least one
    character [gap], the schematypens attribute, [post]. *)
Definition href_first_text (pre mid value gap post : list ascii) : list ascii :=
  pre ++ xml_model ++ (mid ++ href ++ (value ++ dquote :: gap ++ relaxng_text ++ post)).

Lemma href_first_value pre mid value gap post :
  first_at xml_model (href_first_text pre mid value gap post) = Some (length pre) ->
  first_at href (mid ++ href ++ (value ++ dquote :: gap ++ relaxng_text ++ post))
    = Some (length mid) ->
  value <> [] -> forallb is_not_dquote value = true -> gap <> [] ->
  href_first (href_first_text pre mid value gap post) = Some value.
Proof.
  intros Hmodel Hhref Hne Hv Hgap. unfold href_first, href_first_text in *.
  apply (lazily_lit_first xml_model _ pre _ value Hmodel).
  apply (lazily_lit_first href _ mid _ value Hhref).
  rewrite (quoted_value _ value _ Hne Hv).
  destruct gap as [|g gap]; [done|]. cbn [app any_char].
  apply lazily_constant; [apply relaxng_const|]. by rewrite relaxng_matches.
Qed.

(** The document with an instruction whose schematypens attribute comes
    first. *)
Definition schematypens_first_text (pre gap1 gap2 value post : list ascii) : list ascii :=
  pre ++ xml_model ++ (gap1 ++ relaxng_text ++ (gap2 ++ href ++ (value ++ dquote :: post))).

Lemma schematypens_first_value pre g1 gap1 g2 gap2 value post :
  first_at xml_model (schematypens_first_text pre (g1 :: gap1) (g2 :: gap2) value post)
    = Some (length pre) ->
  first_at relaxng_start
    (gap1 ++ relaxng_text ++ ((g2 :: gap2) ++ href ++ (value ++ dquote :: post)))
    = Some (length gap1) ->
  first_at href (gap2 ++ href ++ (value ++ dquote :: post)) = Some (length gap2) ->
  value <> [] -> forallb is_not_dquote value = true ->
  schematypens_first (schematypens_first_text pre (g1 :: gap1) (g2 :: gap2) value post)
    = Some value.
Proof.
  intros Hmodel Hrelaxng Hhref Hne Hv. unfold schematypens_first, schematypens_first_text in *.
  apply (lazily_lit_first xml_model _ pre _ value Hmodel).
  cbn [app any_char].
  apply (lazily_relaxng_first _ gap1 _ value Hrelaxng).
  cbn [app any_char].
  apply (lazily_lit_first href _ gap2 _ value Hhref).
  by rewrite (quoted_value _ value _ Hne Hv).
Qed.

Lemma locateSchema_url node doc defaultSchemas url :
  schemaURL doc defaultSchemas = Some url -> url <> "" ->
  locateSchema node (Some doc) defaultSchemas =
    if negb (String.eqb (path_root node url) "") then
      Found (pathToFileURL node url) (getText doc) (uri doc)
    else
      match URL_protocol node url with
      | None => Raised
      | Some protocol =>
          if String.eqb protocol "" then
            Found (pathToFileURL node (directory doc +:+ "/" +:+ url)) (getText doc) (uri doc)
          else Found url (getText doc) (uri doc)
      end.
Proof.
  intros Hurl Hne. unfold locateSchema. rewrite Hurl.
  destruct (String.eqb_spec url ""); done.
Qed.

(** X15.  In a document whose first instruction [<?xml-model] has an href
    attribute with a value that is not empty, followed later by the
    schematypens attribute of RELAX NG, the schema reference is that value,
    whatever the settings give for the extension of the file.  When the
    value is not an absolute path and the URL parser gives it a protocol,
    [locateSchema] returns it as it is, with the text and the URI of the
    document. *)
Theorem document_schema_overrides_settings (node : Platform) (doc : Document)
    (defaultSchemas : gmap string string) (pre mid value gap post : list ascii)
    (protocol : string) :
  chars (getText doc) = href_first_text pre mid value gap post ->
  first_at xml_model (href_first_text pre mid value gap post) = Some (length pre) ->
  first_at href (mid ++ href ++ (value ++ dquote :: gap ++ relaxng_text ++ post))
    = Some (length mid) ->
  value <> [] -> forallb is_not_dquote value = true -> gap <> [] ->
  path_root node (str value) = "" ->
  URL_protocol node (str value) = Some protocol -> protocol <> "" ->
  schemaURL doc defaultSchemas = Some (str value) /\
  locateSchema node (Some doc) defaultSchemas = Found (str value) (getText doc) (uri doc).
Proof.
  intros Htext Hmodel Hhref Hne Hv Hgap Hroot Hprotocol Hp.
  assert (schemaURL doc defaultSchemas = Some (str value)) as Hurl.
  { unfold schemaURL. by rewrite Htext, (href_first_value _ _ _ _ _ Hmodel Hhref Hne Hv Hgap). }
  split; [exact Hurl|].
  rewrite (locateSchema_url node doc defaultSchemas _ Hurl).
  - rewrite Hroot, Hprotocol. simpl. by destruct (String.eqb_spec protocol "").
  - intros Hempty. apply Hne. apply (f_equal chars) in Hempty.
    by rewrite JsFacts.chars_str in Hempty.
Qed.

(** X16.  When the first expression finds nothing and the first instruction
    has the schematypens attribute of RELAX NG before an href attribute
    with a value that is not empty, the second expression finds that
    value, and it is the schema reference whatever the settings give. *)
Theorem schematypens_before_href (doc : Document) (defaultSchemas : gmap string string)
    (pre gap1 gap2 value post : list ascii) (g1 g2 : ascii) :
  chars (getText doc) = schematypens_first_text pre (g1 :: gap1) (g2 :: gap2) value post ->
  href_first (chars (getText doc)) = None ->
  first_at xml_model (schematypens_first_text pre (g1 :: gap1) (g2 :: gap2) value post)
    = Some (length pre) ->
  first_at relaxng_start
    (gap1 ++ relaxng_text ++ ((g2 :: gap2) ++ href ++ (value ++ dquote :: post)))
    = Some (length gap1) ->
  first_at href (gap2 ++ href ++ (value ++ dquote :: post)) = Some (length gap2) ->
  value <> [] -> forallb is_not_dquote value = true ->
  schematypens_first (chars (getText doc)) = Some value /\
  schemaURL doc defaultSchemas = Some (str value).
Proof.
  intros Htext Hfirst Hmodel Hrelaxng Hhref Hne Hv.
  assert (schematypens_first (chars (getText doc)) = Some value) as Hsecond.
  { rewrite Htext. by apply schematypens_first_value. }
  split; [exact Hsecond|]. unfold schemaURL. by rewrite Hfirst, Hsecond.
Qed.

Lemma split_chars_ext sep ext l : forall cur,
  sep ∉ ext ->
  exists init, split_chars sep cur (l ++ sep :: ext) = init ++ [ext].
Proof.
  induction l as [|c l IH]; intros cur Hext; simpl.
  - rewrite Ascii.eqb_refl. exists [reverse cur].
    by rewrite (JsTextFacts.split_chars_last sep ext [] Hext).
  - destruct (Ascii.eqb c sep).
    + destruct (IH [] Hext) as [init ->]. by exists (reverse cur :: init).
    + apply (IH (c :: cur) Hext).
Qed.

Lemma extKey_ext base ext :
  "."%char ∉ chars ext -> extKey (base +:+ "." +:+ ext) = ext.
Proof.
  intros Hext. unfold extKey, Js.split. rewrite !JsFacts.chars_app. simpl.
  destruct (split_chars_ext "." (chars ext) (chars base) [] Hext) as [init ->].
  rewrite fmap_app. simpl. rewrite JsFacts.pop_snoc. simpl. apply JsFacts.str_chars.
Qed.

Lemma extKey_whole name : "."%char ∉ chars name -> extKey name = name.
Proof.
  intros Hname. unfold extKey, Js.split.
  rewrite (JsTextFacts.split_chars_last "." (chars name) [] Hname). simpl.
  apply JsFacts.str_chars.
Qed.

Lemma full_stop_free ext :
  forallb (fun c => negb (Ascii.eqb c ".")) (chars ext) = true -> "."%char ∉ chars ext.
Proof.
  intros Hall Hin. rewrite forallb_forall in Hall.
  apply list_elem_of_In in Hin. specialize (Hall _ Hin). done.
Qed.

(** X17.  In a document where [<?xml-model] does not occur, the schema
    reference is the one the settings give for the extension of the file,
    which is the text after the last full stop of the file name.  With no
    entry for the extension no schema is located; with an entry that is an
    absolute path, the schema is the file URL of that path. *)
Theorem settings_by_extension (node : Platform) (doc : Document)
    (defaultSchemas : gmap string string) (base ext : string) :
  first_at xml_model (chars (getText doc)) = None ->
  fileName doc = base +:+ "." +:+ ext ->
  forallb (fun c => negb (Ascii.eqb c ".")) (chars ext) = true ->
  extKey (fileName doc) = ext /\
  schemaURL doc defaultSchemas = defaultSchemas !! ext /\
  (defaultSchemas !! ext = None ->
   locateSchema node (Some doc) defaultSchemas = NotFound) /\
  (forall url, defaultSchemas !! ext = Some url -> url <> "" -> path_root node url <> "" ->
   locateSchema node (Some doc) defaultSchemas =
     Found (pathToFileURL node url) (getText doc) (uri doc)).
Proof.
  intros Hnone Hname Hext. apply full_stop_free in Hext.
  assert (extKey (fileName doc) = ext) as Hkey by (by rewrite Hname, extKey_ext).
  assert (schemaURL doc defaultSchemas = defaultSchemas !! ext) as Hurl.
  { unfold schemaURL, href_first, schematypens_first.
    by rewrite !(lazily_lit_none xml_model _ _ Hnone), Hkey. }
  split; [exact Hkey|]. split; [exact Hurl|]. split.
  - intros Hmissing. unfold locateSchema. by rewrite Hurl, Hmissing.
  - intros url Hsome Hne Hroot. rewrite Hsome in Hurl.
    rewrite (locateSchema_url node doc defaultSchemas url Hurl Hne).
    by destruct (String.eqb_spec (path_root node url) "").
Qed.

(** The full stops of the schematypens attribute are not escaped in the
    two expressions: other characters in their places are accepted. *)
Example relaxng_full_stops_are_wildcards :
  str <$> href_first (chars ("<?xml-model " +:+ Cases.attribute "href" "a.rng" +:+ " " +:+
                             Cases.attribute "schematypens" "http://relaxng-org/ns/structure/1_0"
                             +:+ "?>"))
  = Some "a.rng".
Proof. vm_compute. reflexivity. Qed.

Lemma document_schema_overrides_settings_witness :
  let value := chars "http://e.org/tei.rng" in
  chars (getText Cases.href_then_schematypens) =
    href_first_text [] (chars " ") value (chars " ") (chars "?><doc/>") /\
  first_at xml_model (href_first_text [] (chars " ") value (chars " ") (chars "?><doc/>"))
    = Some 0%nat /\
  schemaURL Cases.href_then_schematypens Cases.settings = Some "http://e.org/tei.rng" /\
  locateSchema Cases.posix (Some Cases.href_then_schematypens) Cases.settings =
    Found "http://e.org/tei.rng" (getText Cases.href_then_schematypens)
          "file:///home/u/letter.xml".
Proof.
  split; [reflexivity|]. split; [reflexivity|].
  refine (document_schema_overrides_settings Cases.posix Cases.href_then_schematypens
            Cases.settings [] (chars " ") (chars "http://e.org/tei.rng") (chars " ")
            (chars "?><doc/>") "http:" eq_refl eq_refl eq_refl _ eq_refl _ eq_refl eq_refl _);
    discriminate.
Defined.

Lemma schematypens_before_href_witness :
  let value := chars "http://e.org/tei.rng" in
  chars (getText Cases.schematypens_then_href) =
    schematypens_first_text [] (chars " ") (chars " ") value (chars "?><doc/>") /\
  href_first (chars (getText Cases.schematypens_then_href)) = None /\
  schematypens_first (chars (getText Cases.schematypens_then_href)) = Some value /\
  schemaURL Cases.schematypens_then_href Cases.settings = Some "http://e.org/tei.rng".
Proof.
  split; [reflexivity|]. split; [reflexivity|].
  refine (schematypens_before_href Cases.schematypens_then_href Cases.settings
            [] [] [] (chars "http://e.org/tei.rng") (chars "?><doc/>") " "%char " "%char
            eq_refl eq_refl eq_refl eq_refl eq_refl _ eq_refl).
  discriminate.
Defined.

Lemma settings_by_extension_witness :
  first_at xml_model (chars (getText Cases.no_instruction)) = None /\
  fileName Cases.no_instruction = "/home/u/letter.tei" +:+ "." +:+ "odd" /\
  extKey (fileName Cases.no_instruction) = "odd" /\
  schemaURL Cases.no_instruction Cases.settings = Cases.settings !! "odd" /\
  (Cases.settings !! "odd" = None ->
   locateSchema Cases.posix (Some Cases.no_instruction) Cases.settings = NotFound) /\
  (forall url, Cases.settings !! "odd" = Some url -> url <> "" ->
   path_root Cases.posix url <> "" ->
   locateSchema Cases.posix (Some Cases.no_instruction) Cases.settings =
     Found (pathToFileURL Cases.posix url) (getText Cases.no_instruction)
           (uri Cases.no_instruction)).
Proof.
  split; [reflexivity|]. split; [reflexivity|].
  exact (settings_by_extension Cases.posix Cases.no_instruction Cases.settings
           "/home/u/letter.tei" "odd" eq_refl eq_refl eq_refl).
Defined.

End SchemaLocatorTheorems.

(** ** Doctypes without an internal subset *)

Module BareDoctypeTheorems.
Import Saxes Salve Vscode Validation ValidationFacts DoctypeScanner.

(** A character that is no bracket and no opening angle bracket. *)
Definition is_bare (c : ascii) : bool :=
  negb (Ascii.eqb c "[") && negb (Ascii.eqb c "]") && negb (Ascii.eqb c "<").

Lemma is_bare_spec c : is_bare c = true -> c <> "["%char /\ c <> "]"%char /\ c <> "<"%char.
Proof.
  unfold is_bare. intros Hc. apply andb_prop in Hc as [Hc H3]. apply andb_prop in Hc as [H1 H2].
  repeat split; intros ->; done.
Qed.

Lemma strip_open_bare l : forallb is_bare l = true -> strip_open l = l.
Proof.
  intros Hl. unfold strip_open.
  assert (strip_open_at l = None) as ->; [|done].
  induction l as [|c l IH]; [done|]. simpl in *.
  apply andb_prop in Hl as [Hc Hl]. apply is_bare_spec in Hc as (Hc & _ & _).
  destruct (Ascii.eqb_spec c "["); [done|].
  destruct (Js.is_line_terminator c); [done|]. by apply IH.
Qed.

Lemma strip_close_bare l : forallb is_bare l = true -> strip_close l = l.
Proof.
  induction l as [|c l IH]; [done|]. simpl. intros Hl.
  apply andb_prop in Hl as [Hc Hl]. apply is_bare_spec in Hc as (_ & Hc & _).
  destruct (Ascii.eqb_spec c "]"); [done|]. simpl. by rewrite IH.
Qed.

Lemma starts_with_differs p ps c l : p <> c -> starts_with (p :: ps) (c :: l) = None.
Proof. intros Hne. cbn [starts_with]. by destruct (Ascii.eqb_spec p c). Qed.

Lemma strip_comments_bare l : forallb is_bare l = true -> strip_comments l = l.
Proof.
  unfold strip_comments. induction l as [|c l IH]; [done|]. intros Hl.
  simpl in Hl. apply andb_prop in Hl as [Hc Hl]. apply is_bare_spec in Hc as (_ & _ & Hc).
  cbn [strip_comments_from].
  assert (starts_with (Js.chars "<!--") (c :: l) = None) as ->.
  { change (Js.chars "<!--") with ("<"%char :: Js.chars "!--").
    apply starts_with_differs. congruence. }
  by rewrite IH.
Qed.

Lemma span_rest_head {A} (p : A -> bool) l :
  existsb (fun c => negb (p c)) l = true ->
  exists c r, (Js.span p l).2 = c :: r /\ p c = false /\ c ∈ l.
Proof.
  induction l as [|x l IH]; [done|]. simpl. destruct (p x) eqn:Hx; simpl.
  - intros Hex. destruct (IH Hex) as (c & r & Hs & Hc & Hin).
    exists c, r. destruct (Js.span p l) as [a b]. simpl in *.
    split; [done|]. split; [done|]. by right.
  - intros _. exists x, l. split; [done|]. split; [done|]. by left.
Qed.

Lemma span_rest_last {A} (p : A -> bool) l c :
  p c = false -> exists x, (Js.span p (l ++ [c])).2 = x ++ [c].
Proof.
  intros Hc. induction l as [|y l IH]; simpl.
  - rewrite Hc. by exists [].
  - destruct (p y).
    + destruct IH as [x Hx]. exists x. by destruct (Js.span p (l ++ [c])).
    + by exists (y :: l).
Qed.

(** What [trim] leaves of a text with a character that is not whitespace
    starts with the first such character. *)
Lemma trim_chars_head l :
  existsb (fun c => negb (Js.is_whitespace c)) l = true ->
  exists c r, Js.trim_chars l = c :: r /\ c ∈ l.
Proof.
  intros Hex. destruct (span_rest_head Js.is_whitespace l Hex) as (c & r & Hs & Hc & Hin).
  unfold Js.trim_chars. rewrite Hs, reverse_cons.
  destruct (span_rest_last Js.is_whitespace (reverse r) c Hc) as [x ->].
  rewrite reverse_snoc. by exists c, (reverse x).
Qed.

Lemma scan_doctype_bare doctype E :
  forallb is_bare (Js.chars doctype) = true ->
  existsb (fun c => negb (Js.is_whitespace c)) (Js.chars doctype) = true ->
  scan_doctype doctype E = Unexpected.
Proof.
  intros Hbare Hex. unfold scan_doctype, clean.
  rewrite (strip_open_bare _ Hbare), (strip_close_bare _ Hbare), (strip_comments_bare _ Hbare).
  destruct (trim_chars_head _ Hex) as (c & r & -> & Hin).
  rewrite forallb_forall in Hbare. apply list_elem_of_In in Hin.
  apply Hbare, is_bare_spec in Hin as (_ & _ & Hc).
  cbn [length scan]. unfold entityRe.
  assert (starts_with (Js.chars "<!ENTITY") (c :: r) = None) as ->; [|done].
  change (Js.chars "<!ENTITY") with ("<"%char :: Js.chars "!ENTITY").
  apply starts_with_differs. congruence.
Qed.

Section Theorems.
Context `{Automaton}.
Variable document : option TextDocument.

(** X18.  A doctype that has no bracket and no opening angle bracket, and
    is not only whitespace, as is every doctype that only names the root
    element or an external subset, is refused by the scanner: the run is
    classified [ERR_WELLFORM], with one more diagnostic, whose message is
    that of an unexpected construct, and two more errors counted. *)
Theorem bare_doctype_refused (pre post : list Token) (p : Position) (doctype : string)
    (st0 st : RunState) :
  write (listeners document) None pre st0 = Done st ->
  forallb is_bare (Js.chars doctype) = true ->
  existsb (fun c => negb (Js.is_whitespace c)) (Js.chars doctype) = true ->
  let st' := tokenize document (pre ++ (p, Doctype doctype) :: post) st0 in
  error st' = ERR_WELLFORM /\
  diagnostics st' = diagnostics st ++
    [ {| range := {| startLine := line p - 1; startCharacter := 0;
                     endLine := line p - 1; endCharacter := column p |};
         message := "unexpected construct in DOCTYPE: " +:+ doctype |} ] /\
  errorCount st' = errorCount st + 2 /\
  dispatch (result_of st') = StatusBar "$(error) XML is not well formed.".
Proof.
  intros Hpre Hbare Hex. simpl. unfold tokenize.
  rewrite write_app, Hpre. simpl. unfold deliver. simpl. unfold on_doctype.
  rewrite (scan_doctype_bare doctype _ Hbare Hex). simpl.
  rewrite app_nil_r. repeat split. lia.
Qed.

End Theorems.

Lemma bare_doctype_refused_witness :
  let doctype := " TEI SYSTEM 'tei.dtd'" in
  let st' := tokenize None [(Samples.at_ 1 31, Doctype doctype)] Samples.started in
  forallb is_bare (Js.chars doctype) = true /\
  existsb (fun c => negb (Js.is_whitespace c)) (Js.chars doctype) = true /\
  error st' = ERR_WELLFORM /\
  diagnostics st' =
    [ {| range := {| startLine := 0; startCharacter := 0; endLine := 0; endCharacter := 31 |};
         message := "unexpected construct in DOCTYPE:  TEI SYSTEM 'tei.dtd'" |} ] /\
  errorCount st' = 2 /\
  dispatch (result_of st') = StatusBar "$(error) XML is not well formed.".
Proof.
  split; [reflexivity|]. split; [reflexivity|].
  exact (@bare_doctype_refused Samples.sample None [] [] (Samples.at_ 1 31)
           " TEI SYSTEM 'tei.dtd'" Samples.started Samples.started eq_refl eq_refl eq_refl).
Defined.

End BareDoctypeTheorems.
